(** * SignalLang: symbol table, TAC generator and dead-code eliminator

    A shallow embedding of the compiler front end of SignalLang
    (symbolTable.cpp, errorHandler.cpp, lexer.cpp, tacGen.cpp, dce.cpp)
    together with the properties its specification states about it.

    Conventions of the embedding:
    - [std::string] is [string]; [std::unordered_map<string, SymbolEntry>]
      is [gmap string SymbolEntry]; [std::unordered_set<string>] is
      [gset string]; [std::vector] is [list], index 0 first;
      [std::stack] is a [list] whose head is the top.
    - [int] fields that may hold [-1] are [Z]; the counters that are only
      ever incremented from zero are [nat] (signed overflow is undefined in
      C++, so runs stay below it).
    - The collaborators are attached the way the driver attaches them: one
      [ErrorHandler] shared by the lexer, the symbol table and the
      generator.  Whether the lexer holds a symbol table is kept as a flag,
      since [Lexer::lexIdentifier] branches on it.
    - A pointer into the table returned by [lookup] is the index of the
      frame that holds the entry, together with the entry. *)

From Stdlib Require Import DecimalString HexadecimalString ZArith Ascii.
From Stdlib Require HexadecimalNat DecimalZ DecimalPos.
From stdpp Require Import gmap strings list.

Open Scope string_scope.

(** ** Text helpers *)

(** [std::to_string(int)]. *)
Definition to_string (z : Z) : string :=
  DecimalString.NilZero.string_of_int (Z.to_int z).

(** [SymbolTable::to_hex]: lower-case hexadecimal, no prefix. *)
Definition to_hex (n : nat) : string :=
  HexadecimalString.NilZero.string_of_uint (Nat.to_hex_uint n).

(** [s.empty()]. *)
Definition is_empty (s : string) : bool :=
  match s with "" => true | _ => false end.

(** [s.size() > 0 && s[0] == 't'], the test both the generator and the
    eliminator use to recognise a temporary. *)
Definition starts_with_t (s : string) : bool :=
  match s with
  | String c _ => bool_decide (c = "t"%char)
  | "" => false
  end.

(** ** errorHandler.h / errorHandler.cpp *)

(** The [enum class]es keep their scope: [ErrorPhase::SYNTAX] is
    [ErrorPhase.SYNTAX]. *)
Module ErrorPhase.
Inductive t := LEXICAL | SYNTAX | SEMANTIC | RUNTIME | GENERIC.
#[global] Instance phase_eq_dec : EqDecision t.
Proof. solve_decision. Defined.
End ErrorPhase.

Module Severity.
Inductive t := INFO | WARNING | ERROR | FATAL.
#[global] Instance severity_eq_dec : EqDecision t.
Proof. solve_decision. Defined.
End Severity.

Record CompilerError := mkCompilerError {
  phase : ErrorPhase.t;
  severity : Severity.t;
  message : string;
  err_line : Z;
  err_column : Z;
  recoverable : bool
}.

Global Instance CompilerError_eq_dec : EqDecision CompilerError.
Proof. solve_decision. Defined.

Record ErrorHandler := mkErrorHandler {
  errors : list CompilerError;
  stopOnFatal : bool
}.

(** [ErrorHandler::ErrorHandler()]. *)
Definition newErrorHandler : ErrorHandler :=
  {| errors := []; stopOnFatal := true |}.

(** [ErrorHandler::report]: the message is stored; the second component
    tells whether the call throws. *)
Definition report (p : ErrorPhase.t) (s : Severity.t) (msg : string)
    (line col : Z) (rec : bool) (h : ErrorHandler) : ErrorHandler * bool :=
  ({| errors := errors h ++ [mkCompilerError p s msg line col rec];
      stopOnFatal := stopOnFatal h |},
   negb rec && bool_decide (s = Severity.FATAL) && stopOnFatal h).

(** [ErrorHandler::reportError] with [recoverable] left at its default
    [true]; by [reportError_never_throws] the call always returns. *)
Definition reportError (p : ErrorPhase.t) (msg : string) (line col : Z)
    (h : ErrorHandler) : ErrorHandler :=
  fst (report p Severity.ERROR msg line col true h).

(** ** symbolTable.h / symbolTable.cpp *)

Record SymbolEntry := mkSymbolEntry {
  name : string;
  kind : string;
  type : string;
  scopeLevel : Z;
  memoryAddr : string;
  value : string;
  is_state : bool;
  is_used : bool;
  decl_line : Z;
  is_dummy : bool
}.

Global Instance SymbolEntry_eq_dec : EqDecision SymbolEntry.
Proof. solve_decision. Defined.

(** The parameterised constructor [SymbolEntry(n, k, t, s, line)]. *)
Definition newSymbolEntry (n k t : string) (s line : Z) : SymbolEntry :=
  {| name := n; kind := k; type := t; scopeLevel := s; memoryAddr := "";
     value := ""; is_state := false; is_used := false; decl_line := line;
     is_dummy := false |}.

Definition set_scopeLevel (s : Z) (e : SymbolEntry) : SymbolEntry :=
  mkSymbolEntry (name e) (kind e) (type e) s (memoryAddr e) (value e)
    (is_state e) (is_used e) (decl_line e) (is_dummy e).
Definition set_memoryAddr (a : string) (e : SymbolEntry) : SymbolEntry :=
  mkSymbolEntry (name e) (kind e) (type e) (scopeLevel e) a (value e)
    (is_state e) (is_used e) (decl_line e) (is_dummy e).
Definition set_is_used (b : bool) (e : SymbolEntry) : SymbolEntry :=
  mkSymbolEntry (name e) (kind e) (type e) (scopeLevel e) (memoryAddr e)
    (value e) (is_state e) b (decl_line e) (is_dummy e).
Definition set_is_dummy (b : bool) (e : SymbolEntry) : SymbolEntry :=
  mkSymbolEntry (name e) (kind e) (type e) (scopeLevel e) (memoryAddr e)
    (value e) (is_state e) (is_used e) (decl_line e) b.
Definition set_decl_line (l : Z) (e : SymbolEntry) : SymbolEntry :=
  mkSymbolEntry (name e) (kind e) (type e) (scopeLevel e) (memoryAddr e)
    (value e) (is_state e) (is_used e) l (is_dummy e).
Definition set_kind (k : string) (e : SymbolEntry) : SymbolEntry :=
  mkSymbolEntry (name e) k (type e) (scopeLevel e) (memoryAddr e)
    (value e) (is_state e) (is_used e) (decl_line e) (is_dummy e).
Definition set_type (t : string) (e : SymbolEntry) : SymbolEntry :=
  mkSymbolEntry (name e) (kind e) t (scopeLevel e) (memoryAddr e)
    (value e) (is_state e) (is_used e) (decl_line e) (is_dummy e).

Record SymbolTable := mkSymbolTable {
  scopes : list (gmap string SymbolEntry);
  nextMemoryIndex : nat
}.

(** A table and the error handler it reports to. *)
Definition Sym : Type := SymbolTable * ErrorHandler.

(** [scopes.emplace_back()]. *)
Definition beginScope (st : SymbolTable) : SymbolTable :=
  {| scopes := scopes st ++ [∅]; nextMemoryIndex := nextMemoryIndex st |}.

(** [SymbolTable::SymbolTable(err)]. *)
Definition newSymbolTable : SymbolTable :=
  beginScope {| scopes := []; nextMemoryIndex := 0 |}.

(** [if(!scopes.empty()) scopes.pop_back()]. *)
Definition endScope (st : SymbolTable) : SymbolTable :=
  {| scopes := removelast (scopes st); nextMemoryIndex := nextMemoryIndex st |}.

(** [static_cast<int>(scopes.size()-1)]. *)
Definition currentScope (st : SymbolTable) : Z :=
  Z.of_nat (length (scopes st)) - 1.

(** Index of [scopes.back()]. *)
Definition backIndex (st : SymbolTable) : nat := pred (length (scopes st)).

(** [scopes[i][n] = e]. *)
Definition store (i : nat) (n : string) (e : SymbolEntry)
    (st : SymbolTable) : SymbolTable :=
  {| scopes := alter (fun m : gmap string SymbolEntry => <[n := e]> m) i (scopes st);
     nextMemoryIndex := nextMemoryIndex st |}.

(** [SymbolTable::reportDuplicate], handler attached. *)
Definition duplicateMessage (existing attempt : SymbolEntry) : string :=
  "Duplicate declaration of '" ++ name attempt ++
  "'; previously declared at line " ++ to_string (decl_line existing).

Definition reportDuplicate (existing attempt : SymbolEntry)
    (h : ErrorHandler) : ErrorHandler :=
  reportError ErrorPhase.SEMANTIC (duplicateMessage existing attempt)
    (decl_line attempt) (-1) h.

(** The address a fresh entry receives in [insert]. *)
Definition assignAddr (e : SymbolEntry) (idx : nat) : string :=
  if bool_decide (kind e = "variable") && is_state e then
    "0x" ++ to_hex (4096 + idx)
  else if bool_decide (kind e = "variable") && bool_decide (scopeLevel e = 0%Z) then
    "0x" ++ to_hex (4096 + idx)
  else
    "stk" ++ to_string (Z.of_nat idx).

(** [SymbolTable::insert]. *)
Definition insert (entry : SymbolEntry) (s : Sym) : bool * Sym :=
  let '(st, h) := s in
  match scopes st !! backIndex st with
  | None => (false, s)
  | Some table =>
    match table !! name entry with
    | Some existing => (false, (st, reportDuplicate existing entry h))
    | None =>
      let e := set_scopeLevel (currentScope st) entry in
      if is_empty (memoryAddr e) then
        let e' := set_memoryAddr (assignAddr e (nextMemoryIndex st)) e in
        (true, (store (backIndex st) (name e') e'
                  {| scopes := scopes st;
                     nextMemoryIndex := S (nextMemoryIndex st) |}, h))
      else
        (true, (store (backIndex st) (name e) e st, h))
    end
  end.

(** [SymbolTable::lookup]: frames [k-1], ..., [0] in that order. *)
Fixpoint lookup_from (k : nat) (n : string)
    (fs : list (gmap string SymbolEntry)) : option (nat * SymbolEntry) :=
  match k with
  | O => None
  | S i =>
    match fs !! i with
    | Some m =>
      match m !! n with
      | Some e => Some (i, e)
      | None => lookup_from i n fs
      end
    | None => lookup_from i n fs
    end
  end.

Definition lookup (n : string) (st : SymbolTable) : option (nat * SymbolEntry) :=
  lookup_from (length (scopes st)) n (scopes st).

(** [SymbolTable::lookupLocal]. *)
Definition lookupLocal (n : string) (st : SymbolTable) : option SymbolEntry :=
  match scopes st !! backIndex st with
  | None => None
  | Some table => table !! n
  end.

(** [SymbolTable::existsInCurrentScope]. *)
Definition existsInCurrentScope (n : string) (st : SymbolTable) : bool :=
  match lookupLocal n st with Some _ => true | None => false end.

(** [SymbolTable::insertTokenPlaceholder]. *)
Definition insertTokenPlaceholder (n : string) (token_line : Z)
    (s : Sym) : bool * Sym :=
  if existsInCurrentScope n (fst s) then (false, s)
  else
    let e := newSymbolEntry n "token" "unknown" (currentScope (fst s)) token_line in
    let e := set_is_dummy true e in
    let e := set_decl_line token_line e in
    insert e s.

Definition undeclaredMessage (n : string) : string :=
  "Undeclared Identifier '" ++ n ++ "' used".

(** [SymbolTable::markUsed]. *)
Definition markUsed (n : string) (s : Sym) : Sym :=
  let '(st, h) := s in
  match lookup n st with
  | Some (i, e) => (store i n (set_is_used true e) st, h)
  | None =>
    let h' := reportError ErrorPhase.SEMANTIC (undeclaredMessage n) (-1) (-1) h in
    let d := newSymbolEntry n "variable" "unknown" 0 (-1) in
    let d := set_is_dummy true d in
    let d := set_is_used true d in
    (store 0 n d st, h')
  end.

(** [SymbolTable::updateEntry]. *)
Definition updateEntry (n : string) (updater : SymbolEntry -> SymbolEntry)
    (s : Sym) : bool * Sym :=
  match lookupLocal n (fst s) with
  | Some e => (true, (store (backIndex (fst s)) n (updater e) (fst s), snd s))
  | None =>
    let entry := newSymbolEntry n "variable" "unknown" (currentScope (fst s)) (-1) in
    let '(ok, s') := insert entry s in
    if ok then
      match lookupLocal n (fst s') with
      | Some e => (true, (store (backIndex (fst s')) n (updater e) (fst s'), snd s'))
      | None => (false, s')
      end
    else (false, s')
  end.

(** [SymbolTable::getUnusedEntries]: innermost frame first. *)
Definition unusedIn (m : gmap string SymbolEntry) : list SymbolEntry :=
  filter (fun e => is_used e = false) (snd <$> map_to_list m).

Definition getUnusedEntries (st : SymbolTable) : list SymbolEntry :=
  concat (unusedIn <$> reverse (scopes st)).

(** ** lexer/token.h *)

(** The header is not a file of its own among the sources; its text
    follows that of lexer.h in src/errorHandler/README.md.  The
    enumerators are those it declares, in its order, and the fields are
    taken in the order of [Token(kind, lexeme, line, column)].  [kind],
    [line] and [column] carry the prefix [tk_], their plain names being
    those of [SymbolEntry] and [Lexer] fields. *)
Module TokenKind.
Inductive t :=
  | IDENT | FLOAT_LIT | SEMICOLON | PLUS | MINUS | STAR | SLASH | ASSIGN
  | END_OF_FILE | UNKNOWN.
#[global] Instance kind_eq_dec : EqDecision t.
Proof. solve_decision. Defined.
End TokenKind.

Record Token := mkToken {
  tk_kind : TokenKind.t;
  lexeme : string;
  tk_line : Z;
  tk_column : Z
}.

(** ** lexer.cpp *)

Module Lex.


(** The lexer's cursor.  [src] is [None] until [setSource] has been called;
    [symtab] tells whether a symbol table is attached. *)
Record Lexer := mkLexer {
  src : option string;
  idx : nat;
  length : nat;
  line : Z;
  col : Z;
  symtab : bool
}.

(** [Lexer::Lexer(sym, err)]. *)
Definition newLexer (attached : bool) : Lexer :=
  {| src := None; idx := 0; length := 0; line := 1; col := 1;
     symtab := attached |}.

(** [Lexer::setSource]. *)
Definition setSource (source : string) (lx : Lexer) : Lexer :=
  {| src := Some source; idx := 0; length := String.length source;
     line := 1; col := 1; symtab := symtab lx |}.

Definition eof (lx : Lexer) : bool := bool_decide (length lx <= idx lx).

Definition NUL : ascii := "000"%char.

(** [Lexer::peek(offset)]. *)
Definition peek (offset : nat) (lx : Lexer) : ascii :=
  let pos := idx lx + offset in
  if bool_decide (length lx <= pos) then NUL
  else match src lx with
       | Some s => default NUL (String.get pos s)
       | None => NUL
       end.

(** [Lexer::get]. *)
Definition get (lx : Lexer) : ascii * Lexer :=
  if eof lx then (NUL, lx)
  else
    let c := peek 0 lx in
    if bool_decide (c = "010"%char) then
      (c, {| src := src lx; idx := S (idx lx); length := length lx;
             line := line lx + 1; col := 1; symtab := symtab lx |})
    else
      (c, {| src := src lx; idx := S (idx lx); length := length lx;
             line := line lx; col := col lx + 1; symtab := symtab lx |}).

(** The <cctype> classifiers in the "C" locale. *)
Definition isspace (c : ascii) : bool :=
  let n := nat_of_ascii c in
  bool_decide (n = 32) || (bool_decide (9 <= n) && bool_decide (n <= 13)).
Definition isdigit (c : ascii) : bool :=
  let n := nat_of_ascii c in bool_decide (48 <= n) && bool_decide (n <= 57).
Definition isalpha (c : ascii) : bool :=
  let n := nat_of_ascii c in
  (bool_decide (65 <= n) && bool_decide (n <= 90)) ||
  (bool_decide (97 <= n) && bool_decide (n <= 122)).
Definition isalnum (c : ascii) : bool := isalpha c || isdigit c.

Definition isIdentStart (c : ascii) : bool :=
  isalpha c || bool_decide (c = "_"%char).
Definition isIdentBody (c : ascii) : bool :=
  isalnum c || bool_decide (c = "_"%char).

(** [while (!eof() && p(peek())) lex.push_back(get())]; the loop runs at
    most [length - idx] times, which is the bound given by its callers. *)
Fixpoint take_while (p : ascii -> bool) (fuel : nat) (lex : string)
    (lx : Lexer) : string * Lexer :=
  match fuel with
  | O => (lex, lx)
  | S fuel' =>
    if negb (eof lx) && p (peek 0 lx) then
      let '(c, lx') := get lx in
      take_while p fuel' (lex ++ String c "") lx'
    else (lex, lx)
  end.

(** Characters not yet consumed. *)
Definition remaining (lx : Lexer) : nat := length lx - idx lx.

(** [Lexer::skipWhitespace]. *)
Definition skipWhitespace (lx : Lexer) : Lexer :=
  snd (take_while isspace (remaining lx) "" lx).

(** [Lexer::reportError], handler attached. *)
Definition lexReportError (msg : string) (lx : Lexer)
    (h : ErrorHandler) : ErrorHandler :=
  reportError ErrorPhase.LEXICAL msg (line lx) (col lx) h.

(** [Lexer::lexIdentifier]. *)
Definition lexIdentifier (lx : Lexer) (s : Sym) : Token * Lexer * Sym :=
  let startLine := line lx in
  let startCol := col lx in
  let '(lex, lx') := take_while isIdentBody (remaining lx) "" lx in
  let s' :=
    if symtab lx' && negb (existsInCurrentScope lex (fst s))
    then snd (insertTokenPlaceholder lex startLine s)
    else s in
  (mkToken TokenKind.IDENT lex startLine startCol, lx', s').

(** [Lexer::lexNumber]. *)
Definition lexNumber (lx : Lexer) (s : Sym) : Token * Lexer * Sym :=
  let startLine := line lx in
  let startCol := col lx in
  if bool_decide (peek 0 lx = "."%char) then
    let '(c, lx1) := get lx in
    let lex := String c "" in
    if negb (isdigit (peek 0 lx1)) then
      (mkToken TokenKind.UNKNOWN lex startLine startCol, lx1,
       (fst s, lexReportError
                 "Malformed number literal: '.' not followed by digits"
                 lx1 (snd s)))
    else
      let '(lex, lx2) := take_while isdigit (remaining lx1) lex lx1 in
      (mkToken TokenKind.FLOAT_LIT lex startLine startCol, lx2, s)
  else
    let '(lex, lx1) := take_while isdigit (remaining lx) "" lx in
    if bool_decide (peek 0 lx1 = "."%char) then
      let '(c, lx2) := get lx1 in
      let '(lex, lx3) :=
        take_while isdigit (remaining lx2) (lex ++ String c "") lx2 in
      (mkToken TokenKind.FLOAT_LIT lex startLine startCol, lx3, s)
    else
      (mkToken TokenKind.FLOAT_LIT lex startLine startCol, lx1, s).

(** [Lexer::lexOperatorOrSymbol]. *)
Definition lexOperatorOrSymbol (lx : Lexer) (s : Sym) : Token * Lexer * Sym :=
  let startLine := line lx in
  let startCol := col lx in
  let '(c, lx') := get lx in
  let tok k := (mkToken k (String c "") startLine startCol, lx', s) in
  if bool_decide (c = "+"%char) then tok TokenKind.PLUS
  else if bool_decide (c = "-"%char) then tok TokenKind.MINUS
  else if bool_decide (c = "*"%char) then tok TokenKind.STAR
  else if bool_decide (c = "/"%char) then tok TokenKind.SLASH
  else if bool_decide (c = "="%char) then tok TokenKind.ASSIGN
  else if bool_decide (c = ";"%char) then tok TokenKind.SEMICOLON
  else
    (mkToken TokenKind.UNKNOWN (String c "") startLine startCol, lx',
     (fst s, lexReportError ("Unrecognized symbol '" ++ String c "" ++ "'")
               lx' (snd s))).

(** [Lexer::getNextToken]. *)
Definition getNextToken (lx : Lexer) (s : Sym) : Token * Lexer * Sym :=
  match src lx with
  | None => (mkToken TokenKind.END_OF_FILE "<EOF>" 0 0, lx, s)
  | Some _ =>
    let lx := skipWhitespace lx in
    if eof lx then (mkToken TokenKind.END_OF_FILE "<EOF>" (line lx) (col lx), lx, s)
    else
      let c := peek 0 lx in
      if isIdentStart c then lexIdentifier lx s
      else if isdigit c || (bool_decide (c = "."%char) && isdigit (peek 1 lx))
      then lexNumber lx s
      else lexOperatorOrSymbol lx s
  end.

End Lex.

(** ** tac.h *)

Module TACOp.
Inductive t := LOAD_CONST | ASSIGN | ADD | SUB | MUL | DIV | NOP.
#[global] Instance op_eq_dec : EqDecision t.
Proof. solve_decision. Defined.
End TACOp.

Record TacInst := mkTacInst {
  op : TACOp.t;
  dest : string;
  arg1 : string;
  arg2 : string;
  arg1Literal : string
}.

Global Instance TacInst_eq_dec : EqDecision TacInst.
Proof. solve_decision. Defined.

(** ** tacGen.h / tacGen.cpp *)

(** Everything a [TACGenerator] reaches: its own fields ([cur],
    [tempCounter], [freeTemps]), the three collaborators behind its
    pointers, and the vector [out] it is handed by reference. *)
Record World := mkWorld {
  lexer : Lex.Lexer;
  table : SymbolTable;
  handler : ErrorHandler;
  cur : Token;
  tempCounter : nat;
  freeTemps : list string;
  out : list TacInst
}.

(** A generator method: it may read and change the world; [None] only when
    a loop bound handed to it is exhausted. *)
Definition Gen (A : Type) : Type := World -> option (A * World).

Definition ret {A} (a : A) : Gen A := fun w => Some (a, w).
Definition bind {A B} (m : Gen A) (k : A -> Gen B) : Gen B :=
  fun w => match m w with
           | Some (a, w') => k a w'
           | None => None
           end.
Definition exhausted {A} : Gen A := fun _ => None.

Notation "x <- m ;; k" := (bind m (fun x => k))
  (at level 60, m at next level, right associativity).
Notation "m ;;; k" := (bind m (fun _ => k))
  (at level 60, right associativity).

Definition curKind : Gen TokenKind.t := fun w => Some (tk_kind (cur w), w).
Definition curTok : Gen Token := fun w => Some (cur w, w).

(** [err->reportError(phase, msg, cur.line, cur.column)]. *)
Definition reportAtCur (p : ErrorPhase.t) (msg : string) : Gen unit :=
  fun w =>
    Some (tt, mkWorld (lexer w) (table w)
                (reportError p msg (tk_line (cur w)) (tk_column (cur w))
                   (handler w))
                (cur w) (tempCounter w) (freeTemps w) (out w)).

(** A call into the symbol table. *)
Definition onSym {A} (f : Sym -> A * Sym) : Gen A :=
  fun w =>
    let '(a, (st, h)) := f (table w, handler w) in
    Some (a, mkWorld (lexer w) st h (cur w) (tempCounter w) (freeTemps w)
               (out w)).

(** [TACGenerator::nextToken]. *)
Definition nextToken : Gen Token :=
  fun w =>
    let old := cur w in
    let '(t, lx, (st, h)) := Lex.getNextToken (lexer w) (table w, handler w) in
    Some (old, mkWorld lx st h t (tempCounter w) (freeTemps w) (out w)).

(** [TACGenerator::advance]. *)
Definition advance : Gen unit :=
  fun w =>
    let '(t, lx, (st, h)) := Lex.getNextToken (lexer w) (table w, handler w) in
    Some (tt, mkWorld lx st h t (tempCounter w) (freeTemps w) (out w)).

(** [TACGenerator::newTemp]. *)
Definition newTemp : Gen string :=
  fun w =>
    match freeTemps w with
    | t :: rest =>
      Some (t, mkWorld (lexer w) (table w) (handler w) (cur w)
                 (tempCounter w) rest (out w))
    | [] =>
      Some ("t" ++ to_string (Z.of_nat (tempCounter w)),
            mkWorld (lexer w) (table w) (handler w) (cur w)
              (S (tempCounter w)) [] (out w))
    end.

(** [out.push_back(i)]. *)
Definition push_back (i : TacInst) : Gen unit :=
  fun w =>
    Some (tt, mkWorld (lexer w) (table w) (handler w) (cur w)
                (tempCounter w) (freeTemps w) (out w ++ [i])).

Definition emitLoadConst (d literal : string) : Gen unit :=
  push_back (mkTacInst TACOp.LOAD_CONST d "" "" literal).
Definition emitBinary (o : TACOp.t) (d a b : string) : Gen unit :=
  push_back (mkTacInst o d a b "").
Definition emitAssign (d s : string) : Gen unit :=
  push_back (mkTacInst TACOp.ASSIGN d s "" "").

(** [if (x.size()>0 && x[0]=='t') freeTemps.push(x)]. *)
Definition release (x : string) : Gen unit :=
  fun w =>
    if starts_with_t x then
      Some (tt, mkWorld (lexer w) (table w) (handler w) (cur w)
                  (tempCounter w) (x :: freeTemps w) (out w))
    else Some (tt, w).

(** [TACGenerator::parseFactor]; the result is [Some name] when the method
    returns [true] with [result = name], [None] when it returns [false]. *)
Definition parseFactor : Gen (option string) :=
  k <- curKind ;;
  if bool_decide (k = TokenKind.IDENT) then
    t <- curTok ;;
    let name := lexeme t in
    onSym (fun s => (tt, markUsed name s)) ;;;
    nextToken ;;;
    ret (Some name)
  else if bool_decide (k = TokenKind.FLOAT_LIT) then
    t <- curTok ;;
    let lit := lexeme t in
    d <- newTemp ;;
    emitLoadConst d lit ;;;
    nextToken ;;;
    ret (Some d)
  else
    reportAtCur ErrorPhase.SYNTAX "Expected identifier or float literal" ;;;
    ret None.

(** The [while] loop of [TACGenerator::parseTerm]. *)
Fixpoint parseTerm_loop (fuel : nat) (left_ : string) : Gen (option string) :=
  match fuel with
  | O => exhausted
  | S fuel' =>
    k <- curKind ;;
    if bool_decide (k = TokenKind.STAR) || bool_decide (k = TokenKind.SLASH) then
      nextToken ;;;
      r <- parseFactor ;;
      match r with
      | None =>
        reportAtCur ErrorPhase.SYNTAX "Missing factor after operator" ;;;
        ret None
      | Some right_ =>
        d <- newTemp ;;
        (if bool_decide (k = TokenKind.STAR)
         then emitBinary TACOp.MUL d left_ right_
         else emitBinary TACOp.DIV d left_ right_) ;;;
        release left_ ;;;
        release right_ ;;;
        parseTerm_loop fuel' d
      end
    else ret (Some left_)
  end.

(** [TACGenerator::parseTerm]. *)
Definition parseTerm (fuel : nat) : Gen (option string) :=
  l <- parseFactor ;;
  match l with
  | None => ret None
  | Some left_ => parseTerm_loop fuel left_
  end.

(** The [while] loop of [TACGenerator::parseExpression]. *)
Fixpoint parseExpression_loop (fuel : nat) (left_ : string)
    : Gen (option string) :=
  match fuel with
  | O => exhausted
  | S fuel' =>
    k <- curKind ;;
    if bool_decide (k = TokenKind.PLUS) || bool_decide (k = TokenKind.MINUS) then
      nextToken ;;;
      r <- parseTerm fuel' ;;
      match r with
      | None =>
        reportAtCur ErrorPhase.SYNTAX "Missing term after operator" ;;;
        ret None
      | Some right_ =>
        d <- newTemp ;;
        (if bool_decide (k = TokenKind.PLUS)
         then emitBinary TACOp.ADD d left_ right_
         else emitBinary TACOp.SUB d left_ right_) ;;;
        release left_ ;;;
        release right_ ;;;
        parseExpression_loop fuel' d
      end
    else ret (Some left_)
  end.

(** [TACGenerator::parseExpression]. *)
Definition parseExpression (fuel : nat) : Gen (option string) :=
  l <- parseTerm fuel ;;
  match l with
  | None => ret None
  | Some left_ => parseExpression_loop fuel left_
  end.

(** The updater [parseStatement] hands to [updateEntry]. *)
Definition promote (lhsLine : Z) (e : SymbolEntry) : SymbolEntry :=
  set_decl_line lhsLine
    (set_is_dummy false (set_type "float" (set_kind "variable" e))).

(** Lines 88-102 of [parseStatement]: make sure [lhs] is declared. *)
Definition declare (lhs : string) (lhsLine : Z) (s : Sym) : Sym :=
  match lookup lhs (fst s) with
  | Some (_, entry) =>
    if is_dummy entry then snd (updateEntry lhs (promote lhsLine) s)
    else s
  | None =>
    let e := newSymbolEntry lhs "variable" "float" (currentScope (fst s)) lhsLine in
    snd (insert e s)
  end.

(** [TACGenerator::parseStatement]. *)
Definition parseStatement (fuel : nat) : Gen bool :=
  k <- curKind ;;
  if negb (bool_decide (k = TokenKind.IDENT)) then
    reportAtCur ErrorPhase.SYNTAX "Expected identifier at start of statement" ;;;
    ret false
  else
    t <- curTok ;;
    let lhs := lexeme t in
    let lhsLine := tk_line t in
    nextToken ;;;
    k <- curKind ;;
    if negb (bool_decide (k = TokenKind.ASSIGN)) then
      reportAtCur ErrorPhase.SYNTAX "Expected '=' after identifier" ;;;
      ret false
    else
      nextToken ;;;
      r <- parseExpression fuel ;;
      match r with
      | None =>
        reportAtCur ErrorPhase.SYNTAX "Invalid expression in assignment" ;;;
        ret false
      | Some rhsName =>
        k <- curKind ;;
        if negb (bool_decide (k = TokenKind.SEMICOLON)) then
          reportAtCur ErrorPhase.SYNTAX "Missing semicolon at end of statement" ;;;
          ret false
        else
          nextToken ;;;
          onSym (fun s => (tt, declare lhs lhsLine s)) ;;;
          emitAssign lhs rhsName ;;;
          onSym (fun s => (tt, markUsed lhs s)) ;;;
          ret true
      end.

(** The recovery loop of [parseProgram]:
    [while (cur.kind != SEMICOLON && cur.kind != END_OF_FILE) advance();]. *)
Fixpoint skip_loop (fuel : nat) : Gen unit :=
  match fuel with
  | O => exhausted
  | S fuel' =>
    k <- curKind ;;
    if negb (bool_decide (k = TokenKind.SEMICOLON)) &&
       negb (bool_decide (k = TokenKind.END_OF_FILE))
    then advance ;;; skip_loop fuel'
    else ret tt
  end.

(** What [parseProgram] does after a failed [parseStatement]. *)
Definition recover (fuel : nat) : Gen unit :=
  reportAtCur ErrorPhase.SYNTAX "Skipping to next ';' on parse error" ;;;
  skip_loop fuel ;;;
  k <- curKind ;;
  if bool_decide (k = TokenKind.SEMICOLON) then advance else ret tt.

(** [TACGenerator::parseProgram]. *)
Fixpoint parseProgram (fuel : nat) : Gen bool :=
  match fuel with
  | O => exhausted
  | S fuel' =>
    k <- curKind ;;
    if negb (bool_decide (k = TokenKind.END_OF_FILE)) then
      ok <- parseStatement fuel' ;;
      (if ok then ret tt else recover fuel') ;;;
      parseProgram fuel'
    else ret true
  end.

(** [TACGenerator::generate]. *)
Definition generate (fuel : nat) : Gen bool := parseProgram fuel.

(** [TACGenerator::TACGenerator(lexer, sym, err)] followed by the caller's
    empty [out]: the constructor reads the first token. *)
Definition newTACGenerator (lx : Lex.Lexer) (s : Sym) : World :=
  let '(t, lx', (st, h)) := Lex.getNextToken lx s in
  mkWorld lx' st h t 0 [] [].

(** A generation run the way the driver sets it up: fresh handler and
    table, [setSource], construction, [generate].  The loop bound
    [String.length source + 2] is enough for every source
    (see [run_total]). *)
Definition run (attached : bool) (source : string) : option (bool * World) :=
  let lx := Lex.setSource source (Lex.newLexer attached) in
  generate (String.length source + 2)
    (newTACGenerator lx (newSymbolTable, newErrorHandler)).

(** ** dce.h / dce.cpp *)

(** [usesOf]: the names an instruction reads. *)
Definition usesOf (i : TacInst) : list string :=
  let push (a : string) (res : list string) :=
    if negb (is_empty a) then (res ++ [a])%list else res in
  match op i with
  | TACOp.LOAD_CONST => []
  | TACOp.ASSIGN => push (arg1 i) []
  | TACOp.ADD | TACOp.SUB | TACOp.MUL | TACOp.DIV =>
    push (arg2 i) (push (arg1 i) [])
  | TACOp.NOP => []
  end.

Module DeadCodeEliminator.

(** [for (inst : tac) if (!inst.dest.empty() && inst.dest[0] != 't')
    declared.insert(inst.dest);] *)
Definition declared (tac : list TacInst) : gset string :=
  fold_left
    (fun (acc : gset string) inst =>
       if negb (is_empty (dest inst)) && negb (starts_with_t (dest inst))
       then {[dest inst]} ∪ acc else acc)
    tac ∅.

(** [for (e : sym.getUnusedEntries()) unusedSet.insert(e.name);] *)
Definition unusedSet (sym : SymbolTable) : gset string :=
  fold_left (fun (acc : gset string) e => {[name e]} ∪ acc)
    (getUnusedEntries sym) ∅.

(** [for (name : declared) if (unusedSet.find(name) == unusedSet.end())
    live.insert(name);] *)
Definition initialLive (tac : list TacInst) (sym : SymbolTable) : gset string :=
  set_fold
    (fun n (live : gset string) =>
       if bool_decide (n ∈ unusedSet sym) then live else {[n]} ∪ live)
    ∅ (declared tac).

(** The test [!def.empty() && live.find(def) != live.end()]. *)
Definition needed (inst : TacInst) (live : gset string) : bool :=
  negb (is_empty (dest inst)) && bool_decide (dest inst ∈ live).

(** [for (u : usesOf(inst)) if (!u.empty()) live.insert(u);] *)
Definition addUses (inst : TacInst) (live : gset string) : gset string :=
  fold_left
    (fun (acc : gset string) u =>
       if negb (is_empty u) then {[u]} ∪ acc else acc)
    (usesOf inst) live.

(** One iteration of the backward traversal, at index [i]. *)
Definition visit (tac : list TacInst) (i : nat)
    (st : gset string * list bool) : gset string * list bool :=
  let '(live, keep) := st in
  match tac !! i with
  | Some inst =>
    if needed inst live then (addUses inst live, <[i := true]> keep)
    else (live, keep)
  | None => (live, keep)
  end.

(** [for (int i = k - 1; i >= 0; --i)]. *)
Fixpoint backward (tac : list TacInst) (k : nat)
    (st : gset string * list bool) : gset string * list bool :=
  match k with
  | O => st
  | S i => backward tac i (visit tac i st)
  end.

(** The vector [keep] once the backward traversal is over. *)
Definition keepFlags (tac : list TacInst) (sym : SymbolTable) : list bool :=
  snd (backward tac (length tac)
         (initialLive tac sym, replicate (length tac) false)).

(** [for (i = 0; i < tac.size(); ++i) if (keep[i]) out.push_back(tac[i]);] *)
Fixpoint reconstruct (tac : list TacInst) (keep : list bool) : list TacInst :=
  match tac, keep with
  | inst :: tac', k :: keep' =>
    if k then inst :: reconstruct tac' keep' else reconstruct tac' keep'
  | _, _ => []
  end.

(** [DeadCodeEliminator::eliminate]; the result is the new content of
    [tac]. *)
Definition eliminate (tac : list TacInst) (sym : SymbolTable) : list TacInst :=
  reconstruct tac (keepFlags tac sym).

End DeadCodeEliminator.

(** ** The eliminator as the specification words it *)

Module DCESpec.

(** The name [newTemp] mints when its counter is [n]:
    ["t" + std::to_string(tempCounter)]. *)
Definition minted (n : nat) : string := "t" ++ to_string (Z.of_nat n).

(** A temporary is a name the generator introduces.  An instruction
    sequence carries no mark of where a name comes from; the names the
    generator introduces are those [newTemp] mints, [t0], [t1], ... *)
Definition temporary (d : string) : Prop := ∃ n : nat, d = minted n.

(** The only counter value at which [d] can have been minted: what follows
    the first character of [d], read as a decimal number. *)
Definition counterOf (d : string) : option nat :=
  match d with
  | String _ r =>
    match DecimalString.NilZero.int_of_string r with
    | Some i => Some (Z.to_nat (Z.of_int i))
    | None => None
    end
  | "" => None
  end.

Global Instance temporary_dec d : Decision (temporary d).
Proof.
  assert (H : ∀ n, counterOf (minted n) = Some n).
  { intros n. unfold minted, to_string.
    change (counterOf ("t" ++ ?s)) with
      (match DecimalString.NilZero.int_of_string s with
       | Some i => Some (Z.to_nat (Z.of_int i))
       | None => None
       end).
    rewrite DecimalString.NilZero.isi.
    - by rewrite DecimalZ.of_to, Nat2Z.id.
    - destruct (Z.of_nat n) as [|p|p]; simpl; try discriminate;
        intros [= E]; by apply DecimalPos.Unsigned.to_uint_nonnil in E.
    - destruct (Z.of_nat n) as [|p|p]; simpl; try discriminate;
        intros [= E]; by apply DecimalPos.Unsigned.to_uint_nonnil in E. }
  destruct (counterOf d) as [n|] eqn:E.
  - destruct (decide (d = minted n)) as [Hd|Hd].
    + left. by exists n.
    + right. intros [m ->]. rewrite H in E. congruence.
  - right. intros [m ->]. rewrite H in E. discriminate.
Defined.

(** A named destination: present and not a temporary. *)
Definition named (d : string) : Prop := d ≠ "" ∧ ¬ temporary d.

Global Instance named_dec d : Decision (named d).
Proof. unfold named. apply _. Defined.

(** The names of the symbol table's unused-entries report. *)
Definition unusedNames (sym : SymbolTable) : list string :=
  name <$> getUnusedEntries sym.

(** Step 1: every named destination of the sequence that is not in the
    unused-entries report. *)
Definition seed (tac : list TacInst) (sym : SymbolTable) : gset string :=
  list_to_set
    (filter (fun d => named d ∧ d ∉ unusedNames sym) (dest <$> tac)).

(** The names an instruction reads: none for LoadConstant, one for Assign,
    two for the binary operations; an absent operand is not a name. *)
Definition reads (i : TacInst) : list string :=
  filter (fun a => a ≠ "")
    match op i with
    | TACOp.LOAD_CONST | TACOp.NOP => []
    | TACOp.ASSIGN => [arg1 i]
    | TACOp.ADD | TACOp.SUB | TACOp.MUL | TACOp.DIV => [arg1 i; arg2 i]
    end.

(** Steps 2 and 3 for one instruction: keep it exactly when its
    destination is live, then add what it reads.  Kept instructions are
    put in front of those kept so far, which come later in the sequence. *)
Definition step (st : gset string * list TacInst) (inst : TacInst)
    : gset string * list TacInst :=
  let '(live, kept) := st in
  if bool_decide (dest inst ∈ live)
  then (live ∪ list_to_set (reads inst), inst :: kept)
  else (live, kept).

(** Steps 2 to 4: the instructions from last to first. *)
Definition eliminate (tac : list TacInst) (sym : SymbolTable) : list TacInst :=
  snd (fold_left step (reverse tac) (seed tac sym, [])).

End DCESpec.

(** ** A closed form of the eliminator *)

(** The test of the loop that fills [declared]:
    [!inst.dest.empty() && inst.dest[0] != 't']. *)
Definition declarable (d : string) : Prop := d ≠ "" ∧ starts_with_t d = false.

Global Instance declarable_dec d : Decision (declarable d).
Proof. unfold declarable. apply _. Defined.

(** The content of [live] when the backward traversal starts: the
    destinations that pass the test of [declared] and whose name no entry
    of [getUnusedEntries] bears. *)
Definition liveSeed (tac : list TacInst) (sym : SymbolTable) : gset string :=
  list_to_set
    (filter (fun d => declarable d ∧ d ∉ DCESpec.unusedNames sym)
       (dest <$> tac)).


(** The live set and the keep flags of a sequence whose traversal starts
    from [live0]: the tail is visited before the head. *)
Fixpoint scan (l : list TacInst) (live0 : gset string)
    : gset string * list bool :=
  match l with
  | [] => (live0, [])
  | x :: r =>
    let '(live, ks) := scan r live0 in
    if DeadCodeEliminator.needed x live
    then (live ∪ list_to_set (usesOf x), true :: ks)
    else (live, false :: ks)
  end.

(** ** Vocabulary of the properties *)

(** A DuplicateDeclaration diagnostic for [n] that cites line [l] as the
    place of the original declaration. *)
Definition isDuplicateDiagnostic (n : string) (l : Z) (e : CompilerError) : Prop :=
  phase e = ErrorPhase.SEMANTIC ∧
  message e = "Duplicate declaration of '" ++ n ++
              "'; previously declared at line " ++ to_string l.

(** The entry stored under [n] in frame [i], if any. *)
Definition entryAt (i : nat) (n : string) (st : SymbolTable) : option SymbolEntry :=
  match scopes st !! i with
  | Some m => m !! n
  | None => None
  end.

(** All entries stored under [n], outermost frame first. *)
Definition entriesFor (n : string) (st : SymbolTable) : list SymbolEntry :=
  omap (fun m : gmap string SymbolEntry => m !! n) (scopes st).

(** A table in which [x] was read inside a nested scope before any
    declaration: [markUsed] has put a dummy for it in the global frame. *)
Definition readInNestedScope : Sym :=
  markUsed "x" (beginScope newSymbolTable, newErrorHandler).

(** An upper bound on the tokens the generator can still consume: every
    token other than the end marker takes at least one character. *)
Definition pending (w : World) : nat :=
  Lex.remaining (lexer w) +
  (if bool_decide (tk_kind (cur w) = TokenKind.END_OF_FILE) then 0 else 1).

(** Number of Syntax-phase diagnostics recorded so far. *)
Definition syntaxCount (h : ErrorHandler) : nat :=
  length (filter (fun e => phase e = ErrorPhase.SYNTAX) (errors h)).

(** [skipped w w']: [w'] is reached from [w] by discarding tokens up to and
    including the next statement terminator, or up to the end of input when
    no terminator is left; nothing but the lexer's own effects happens on
    the way. *)
Inductive skipped : World -> World -> Prop :=
  | skipped_end w :
      tk_kind (cur w) = TokenKind.END_OF_FILE -> skipped w w
  | skipped_terminator w w' :
      tk_kind (cur w) = TokenKind.SEMICOLON ->
      advance w = Some (tt, w') -> skipped w w'
  | skipped_token w w1 w' :
      tk_kind (cur w) <> TokenKind.SEMICOLON ->
      tk_kind (cur w) <> TokenKind.END_OF_FILE ->
      advance w = Some (tt, w1) -> skipped w1 w' -> skipped w w'.

(** [m] started in [w] returns, with a result and a final world that
    satisfy [Q]. *)
Definition returns {A} (m : Gen A) (w : World) (Q : A -> World -> Prop) : Prop :=
  exists a w', m w = Some (a, w') /\ Q a w'.

(** What every generator method guarantees between its start and its
    return: no token is un-consumed, emitted instructions stay in place,
    and no Syntax diagnostic is withdrawn. *)
Definition extends (w w' : World) : Prop :=
  pending w' <= pending w /\
  out w `prefix_of` out w' /\
  syntaxCount (handler w) <= syntaxCount (handler w').

(** A step that consumes no token, emits nothing and reports no Syntax
    diagnostic. *)
Definition silent (w w' : World) : Prop :=
  pending w' = pending w /\ out w' = out w /\
  syntaxCount (handler w') = syntaxCount (handler w) /\ cur w' = cur w.

(** The diagnostic [parseProgram] records before it resynchronises. *)
Definition skippingMessage : string := "Skipping to next ';' on parse error".

(** The generator as constructed for a source text, before [generate]. *)
Definition startOn (attached : bool) (source : string) : World :=
  newTACGenerator (Lex.setSource source (Lex.newLexer attached))
    (newSymbolTable, newErrorHandler).

(** The UndeclaredIdentifier diagnostics recorded for [n]. *)
Definition undeclaredFor (n : string) (h : ErrorHandler) : list CompilerError :=
  filter (fun e => phase e = ErrorPhase.SEMANTIC /\ message e = undeclaredMessage n)
    (errors h).

(** The dummy [markUsed] synthesizes for an unbound name. *)
Definition usedDummy (n : string) : SymbolEntry :=
  set_is_used true
    (set_is_dummy true (newSymbolEntry n "variable" "unknown" 0 (-1))).

(** The instructions and the table a run leaves behind. *)
Definition compiled (attached : bool) (source : string)
    : list TacInst * SymbolTable :=
  match run attached source with
  | Some (_, w) => (out w, table w)
  | None => ([], newSymbolTable)
  end.

(** * More of the code *)

(** ** More of symbolTable.cpp *)

(** [SymbolTable::clear]. *)
Definition clear (st : SymbolTable) : SymbolTable :=
  beginScope {| scopes := []; nextMemoryIndex := 0 |}.

(** The entry [insert] stores for [entry] in a table at depth
    [currentScope st] whose counter stands at [nextMemoryIndex st]. *)
Definition stored (entry : SymbolEntry) (st : SymbolTable) : SymbolEntry :=
  let e := set_scopeLevel (currentScope st) entry in
  if is_empty (memoryAddr e)
  then set_memoryAddr (assignAddr e (nextMemoryIndex st)) e
  else e.

(** Frame [i] holds under [n] an entry that is marked used. *)
Definition usedAt (i : nat) (n : string) (st : SymbolTable) : Prop :=
  exists e, entryAt i n st = Some e /\ is_used e = true.

(** ** More of errorHandler.cpp *)

Module EH.

(** [ErrorHandler::setStopOnFatal]. *)
Definition setStopOnFatal (v : bool) (h : ErrorHandler) : ErrorHandler :=
  {| errors := errors h; stopOnFatal := v |}.

(** [ErrorHandler::reportWarning], [reportInfo], [reportFatal]: like
    [report], the handler afterwards and whether the call throws. *)
Definition reportWarning (p : ErrorPhase.t) (msg : string) (line col : Z)
    (h : ErrorHandler) : ErrorHandler * bool :=
  report p Severity.WARNING msg line col true h.
Definition reportInfo (p : ErrorPhase.t) (msg : string) (line col : Z)
    (h : ErrorHandler) : ErrorHandler * bool :=
  report p Severity.INFO msg line col true h.
Definition reportFatal (p : ErrorPhase.t) (msg : string) (line col : Z)
    (h : ErrorHandler) : ErrorHandler * bool :=
  report p Severity.FATAL msg line col false h.

(** [ErrorHandler::errorCount]. *)
Definition errorCount (h : ErrorHandler) : nat :=
  fold_left
    (fun c e =>
       if bool_decide (severity e = Severity.FATAL) ||
          bool_decide (severity e = Severity.ERROR)
       then S c else c)
    (errors h) 0.

(** [ErrorHandler::warningCount]. *)
Definition warningCount (h : ErrorHandler) : nat :=
  fold_left
    (fun c e => if bool_decide (severity e = Severity.WARNING) then S c else c)
    (errors h) 0.

(** [ErrorHandler::hasFatal]: the loop returns at the first FATAL. *)
Fixpoint hasFatal_from (es : list CompilerError) : bool :=
  match es with
  | [] => false
  | e :: es' =>
    if bool_decide (severity e = Severity.FATAL) then true
    else hasFatal_from es'
  end.
Definition hasFatal (h : ErrorHandler) : bool := hasFatal_from (errors h).

(** [ErrorHandler::getAll] and [ErrorHandler::clear]. *)
Definition getAll (h : ErrorHandler) : list CompilerError := errors h.
Definition clear (h : ErrorHandler) : ErrorHandler :=
  {| errors := []; stopOnFatal := stopOnFatal h |}.

(** [ErrorHandler::phaseToString]. *)
Definition phaseToString (p : ErrorPhase.t) : string :=
  match p with
  | ErrorPhase.SYNTAX => "Syntax Error"
  | ErrorPhase.LEXICAL => "Lexical Error"
  | ErrorPhase.SEMANTIC => "Semantic Error"
  | ErrorPhase.RUNTIME => "Runtime Error"
  | ErrorPhase.GENERIC => "Generic Error"
  end.

(** [ErrorHandler::severityToString]. *)
Definition severityToString (s : Severity.t) : string :=
  match s with
  | Severity.INFO => "INFO"
  | Severity.WARNING => "WARNING"
  | Severity.ERROR => "ERROR"
  | Severity.FATAL => "FATAL"
  end.

Definition newline : string := String "010"%char "".

(** [ErrorHandler::printSingle]. *)
Definition printSingle (e : CompilerError) : string :=
  "[" +:+ phaseToString (phase e) +:+ "]" +:+ severityToString (severity e) +:+
  (if bool_decide (0 <= err_line e)%Z then
     "(line " +:+ to_string (err_line e) +:+
     (if bool_decide (0 <= err_column e)%Z
      then ", col = " +:+ to_string (err_column e) else "") +:+
     ")"
   else "") +:+
  ": " +:+ message e +:+
  (if recoverable e then "" else "[NON-RECOVERABLE]") +:+ newline.

(** What both [printSummary] and [saveToFile] write after their test for
    an empty handler. *)
Definition listing (h : ErrorHandler) : string :=
  "=== Compiler Messages (" +:+
  to_string (Z.of_nat (length (errors h))) +:+ ") ===" +:+ newline +:+
  String.concat "" (printSingle <$> errors h) +:+
  "=== END OF MESSAGES ===" +:+ newline.

(** [ErrorHandler::printSummary]: the text sent to [cout].  The test for
    an empty handler does not return. *)
Definition printSummary (h : ErrorHandler) : string :=
  (match errors h with
   | [] => "No errors or warning " +:+ newline
   | _ => ""
   end) +:+ listing h.

(** [ErrorHandler::saveToFile]: the result and, when the file could be
    opened, its content. *)
Definition saveToFile (opened : bool) (h : ErrorHandler)
    : bool * option string :=
  if negb opened then (false, None)
  else match errors h with
       | [] => (true, Some ("No errors or warning " +:+ newline))
       | _ => (true, Some (listing h))
       end.

End EH.

(** ** More of lexer.cpp *)

(** [Lexer::tokenize]: [while (true)] with a bound on its iterations; the
    loop ends at the first END_OF_FILE, which [String.length source + 1]
    iterations always reach (see [tokenize_total]). *)
Fixpoint tokenize_loop (fuel : nat) (lx : Lex.Lexer) (s : Sym)
    (toks : list Token) : option (list Token * Lex.Lexer * Sym) :=
  match fuel with
  | O => None
  | S fuel' =>
    let '(t, lx', s') := Lex.getNextToken lx s in
    if bool_decide (tk_kind t = TokenKind.END_OF_FILE)
    then Some ((toks ++ [t])%list, lx', s')
    else tokenize_loop fuel' lx' s' (toks ++ [t])%list
  end.

Definition tokenize (source : string) (lx : Lex.Lexer) (s : Sym)
    : option (list Token * Lex.Lexer * Sym) :=
  tokenize_loop (S (String.length source)) (Lex.setSource source lx) s [].

(** Every character of [s] satisfies [p]. *)
Definition allChars (p : ascii -> bool) (s : string) : Prop :=
  Forall (fun c => p c = true) (String.list_ascii_of_string s).

(** A lexer whose source is [text] and whose [length] field is the size
    of that text, as [setSource] leaves it. *)
Definition scanning (lx : Lex.Lexer) (text : string) : Prop :=
  Lex.src lx = Some text /\ Lex.length lx = String.length text.

(** [lex] is the text of [text] from position [i] up to position [j]. *)
Definition spans (text : string) (i : nat) (lex : string) (j : nat) : Prop :=
  j = i + String.length lex /\
  lex = String.substring i (String.length lex) text.

(** The shape of a number literal: digits, optionally a dot and further
    digits, with at least one digit in all. *)
Definition numberShape (lex : string) : Prop :=
  exists a b, allChars Lex.isdigit a /\ allChars Lex.isdigit b /\
    (a <> "" \/ b <> "") /\
    ((lex = a /\ b = "") \/ lex = a +:+ "." +:+ b).

(** The character an operator or separator token is made of. *)
Definition symbolOf (k : TokenKind.t) : option ascii :=
  match k with
  | TokenKind.PLUS => Some "+"%char
  | TokenKind.MINUS => Some "-"%char
  | TokenKind.STAR => Some "*"%char
  | TokenKind.SLASH => Some "/"%char
  | TokenKind.ASSIGN => Some "="%char
  | TokenKind.SEMICOLON => Some ";"%char
  | _ => None
  end.

(** The line and column reached from [pos] after the characters of [cs],
    counted the way [Lexer::get] counts them. *)
Fixpoint walk (cs : string) (pos : Z * Z) : Z * Z :=
  match cs with
  | EmptyString => pos
  | String c r =>
    walk r (if bool_decide (c = "010"%char) then (fst pos + 1, 1)%Z
            else (fst pos, snd pos + 1)%Z)
  end.

(** The line and column of the character of [text] at index [i], both
    counted from 1. *)
Definition positionAt (text : string) (i : nat) : Z * Z :=
  walk (String.substring 0 i text) (1, 1)%Z.

(** A lexer on [text] whose line and column are those of its index. *)
Definition located (text : string) (lx : Lex.Lexer) : Prop :=
  scanning lx text /\ (Lex.line lx, Lex.col lx) = positionAt text (Lex.idx lx).

(** ** Vocabulary for the generator's invariants *)

(** Every entry is stored under its own name. *)
Definition keyed (st : SymbolTable) : Prop :=
  forall i k e, entryAt i k st = Some e -> name e = k.

(** What a table operation leaves in place: the number of frames, the
    keying of the entries, and every mark of use. *)
Definition tableGrows (st st' : SymbolTable) : Prop :=
  length (scopes st') = length (scopes st) /\
  (keyed st -> keyed st') /\
  (forall j m, usedAt j m st -> usedAt j m st').

(** An operand of an emitted instruction: a name that starts with [t], or
    a name the global frame holds as used. *)
Definition operandOK (st : SymbolTable) (a : string) : Prop :=
  a <> "" /\ (starts_with_t a = true \/ usedAt 0 a st).

(** The shape of an instruction the generator emits. *)
Definition instOK (st : SymbolTable) (x : TacInst) : Prop :=
  match op x with
  | TACOp.LOAD_CONST =>
    starts_with_t (dest x) = true /\ arg1 x = "" /\ arg2 x = "" /\
    numberShape (arg1Literal x)
  | TACOp.ASSIGN =>
    dest x <> "" /\ usedAt 0 (dest x) st /\ operandOK st (arg1 x) /\
    arg2 x = "" /\ arg1Literal x = ""
  | TACOp.NOP => False
  | _ =>
    starts_with_t (dest x) = true /\ operandOK st (arg1 x) /\
    operandOK st (arg2 x) /\ arg1Literal x = ""
  end.

(** A token as the lexer makes it. *)
Definition tokenOK (t : Token) : Prop :=
  (tk_kind t = TokenKind.IDENT -> lexeme t <> "") /\
  (tk_kind t = TokenKind.FLOAT_LIT -> numberShape (lexeme t)).

(** The invariant of a generator that works on a one-frame table. *)
Definition consistent (w : World) : Prop :=
  length (scopes (table w)) = 1 /\ keyed (table w) /\ tokenOK (cur w) /\
  Forall (fun t => starts_with_t t = true) (freeTemps w) /\
  Forall (instOK (table w)) (out w).

(** What a generator method that yields an operand guarantees. *)
Definition yields (m : Gen (option string)) : Prop :=
  ∀ w r w', m w = Some (r, w') → consistent w →
    consistent w' ∧ tableGrows (table w) (table w') ∧
    ∀ n, r = Some n → operandOK (table w') n.


(** What no operation of the table does: drop an entry. *)
Definition keepsEntries (st st' : SymbolTable) : Prop :=
  ∀ j n, is_Some (entryAt j n st) → is_Some (entryAt j n st').

(** The invariant of a generator whose lexer holds the symbol table,
    the way the driver builds them: the one frame of the table has an
    entry for the identifier under the cursor, and no Semantic diagnostic
    has been recorded. *)
Definition announced (w : World) : Prop :=
  length (scopes (table w)) = 1 ∧
  Lex.symtab (lexer w) = true ∧
  (tk_kind (cur w) = TokenKind.IDENT →
   is_Some (entryAt 0 (lexeme (cur w)) (table w))) ∧
  Forall (fun e => phase e ≠ ErrorPhase.SEMANTIC) (errors (handler w)).

(** ** token.h *)

(** [(int)k]: the enumerators of [TokenKind] numbered in the order in
    which the enum of token.h declares them (the text of that header
    follows lexer.h in src/errorHandler/README.md). *)
Definition tokenKindCode (k : TokenKind.t) : Z :=
  match k with
  | TokenKind.IDENT => 0
  | TokenKind.FLOAT_LIT => 1
  | TokenKind.SEMICOLON => 2
  | TokenKind.PLUS => 3
  | TokenKind.MINUS => 4
  | TokenKind.STAR => 5
  | TokenKind.SLASH => 6
  | TokenKind.ASSIGN => 7
  | TokenKind.END_OF_FILE => 8
  | TokenKind.UNKNOWN => 9
  end%Z.

(** ** parser.h / parser.cpp *)

Declare Scope parser_scope.

Module Parser.

(** A [Parser]: its lookahead [cur] and the three collaborators behind
    its pointers. *)
Record State := mkState {
  lexer : Lex.Lexer;
  table : SymbolTable;
  handler : ErrorHandler;
  cur : Token
}.

(** A parser method; [None] only when a loop bound is exhausted. *)
Definition M (A : Type) : Type := State -> option (A * State).

Definition ret {A} (a : A) : M A := fun p => Some (a, p).
Definition bind {A B} (m : M A) (k : A -> M B) : M B :=
  fun p => match m p with
           | Some (a, p') => k a p'
           | None => None
           end.
Definition exhausted {A} : M A := fun _ => None.

Notation "x <- m ;; k" := (bind m (fun x => k))
  (at level 60, m at next level, right associativity) : parser_scope.
Notation "m ;;; k" := (bind m (fun _ => k))
  (at level 60, right associativity) : parser_scope.
Local Open Scope parser_scope.

Definition curKind : M TokenKind.t := fun p => Some (tk_kind (cur p), p).
Definition curTok : M Token := fun p => Some (cur p, p).

(** A call into the symbol table. *)
Definition onSym {A} (f : Sym -> A * Sym) : M A :=
  fun p =>
    let '(a, (st, h)) := f (table p, handler p) in
    Some (a, mkState (lexer p) st h (cur p)).

(** [Parser::Parser(lexer, sym, err)]: the constructor reads the first
    token. *)
Definition newParser (lx : Lex.Lexer) (s : Sym) : State :=
  let '(t, lx', (st, h)) := Lex.getNextToken lx s in
  mkState lx' st h t.

(** [Parser::nextToken]. *)
Definition nextToken : M Token :=
  fun p =>
    let old := cur p in
    let '(t, lx, (st, h)) := Lex.getNextToken (lexer p) (table p, handler p) in
    Some (old, mkState lx st h t).

(** [Parser::advance]. *)
Definition advance : M unit :=
  fun p =>
    let '(t, lx, (st, h)) := Lex.getNextToken (lexer p) (table p, handler p) in
    Some (tt, mkState lx st h t).

(** [Parser::accept]. *)
Definition accept (k : TokenKind.t) : M bool :=
  c <- curKind ;;
  if bool_decide (c = k) then advance ;;; ret true else ret false.

(** [Parser::syntaxError], handler attached. *)
Definition syntaxError (msg : string) (t : Token) : M unit :=
  fun p =>
    Some (tt, mkState (lexer p) (table p)
                (reportError ErrorPhase.SYNTAX msg (tk_line t) (tk_column t)
                   (handler p))
                (cur p)).

(** [Parser::expect]. *)
Definition expect (k : TokenKind.t) : M bool :=
  c <- curKind ;;
  if bool_decide (c = k) then advance ;;; ret true
  else
    t <- curTok ;;
    syntaxError ("Expected token '" +:+ to_string (tokenKindCode k) +:+
                 "' but found '" +:+ lexeme t +:+ "'") t ;;;
    ret false.

(** [Parser::parseFactor]. *)
Definition parseFactor : M bool :=
  k <- curKind ;;
  if bool_decide (k = TokenKind.IDENT) then
    t <- curTok ;;
    let name := lexeme t in
    onSym (fun s => (tt, markUsed name s)) ;;;
    advance ;;;
    ret true
  else if bool_decide (k = TokenKind.FLOAT_LIT) then
    advance ;;;
    ret true
  else
    t <- curTok ;;
    syntaxError "Expected identifier or numeric literal in expression" t ;;;
    ret false.

(** The [while] loop of [Parser::parseTerm]. *)
Fixpoint parseTerm_loop (fuel : nat) : M bool :=
  match fuel with
  | O => exhausted
  | S fuel' =>
    k <- curKind ;;
    if bool_decide (k = TokenKind.STAR) || bool_decide (k = TokenKind.SLASH) then
      advance ;;;
      r <- parseFactor ;;
      if negb r then
        t <- curTok ;;
        syntaxError "Missing factor after operator" t ;;;
        ret false
      else parseTerm_loop fuel'
    else ret true
  end.

(** [Parser::parseTerm]. *)
Definition parseTerm (fuel : nat) : M bool :=
  r <- parseFactor ;;
  if negb r then ret false else parseTerm_loop fuel.

(** The [while] loop of [Parser::parseExpression]. *)
Fixpoint parseExpression_loop (fuel : nat) : M bool :=
  match fuel with
  | O => exhausted
  | S fuel' =>
    k <- curKind ;;
    if bool_decide (k = TokenKind.PLUS) || bool_decide (k = TokenKind.MINUS) then
      advance ;;;
      r <- parseTerm fuel' ;;
      if negb r then
        t <- curTok ;;
        syntaxError "Missing term after operator" t ;;;
        ret false
      else parseExpression_loop fuel'
    else ret true
  end.

(** [Parser::parseExpression]. *)
Definition parseExpression (fuel : nat) : M bool :=
  r <- parseTerm fuel ;;
  if negb r then ret false else parseExpression_loop fuel.

(** [Parser::parseStatement]; its semantic part, lines 100-117, is the
    text of lines 88-102 of [TACGenerator::parseStatement], that is
    [declare]. *)
Definition parseStatement (fuel : nat) : M bool :=
  k <- curKind ;;
  if negb (bool_decide (k = TokenKind.IDENT)) then
    t <- curTok ;;
    syntaxError "Statement must start with identifier (assignment)." t ;;;
    ret false
  else
    t <- curTok ;;
    let lhsName := lexeme t in
    let lhsLine := tk_line t in
    nextToken ;;;
    e <- expect TokenKind.ASSIGN ;;
    if negb e then ret false
    else
      r <- parseExpression fuel ;;
      if negb r then
        t <- curTok ;;
        syntaxError "Invalid expression on right side of assignment." t ;;;
        ret false
      else
        e <- expect TokenKind.SEMICOLON ;;
        if negb e then ret false
        else
          onSym (fun s => (tt, declare lhsName lhsLine s)) ;;;
          onSym (fun s => (tt, markUsed lhsName s)) ;;;
          ret true.

(** The recovery loop of [Parser::parse]. *)
Fixpoint skip_loop (fuel : nat) : M unit :=
  match fuel with
  | O => exhausted
  | S fuel' =>
    k <- curKind ;;
    if negb (bool_decide (k = TokenKind.SEMICOLON)) &&
       negb (bool_decide (k = TokenKind.END_OF_FILE))
    then advance ;;; skip_loop fuel'
    else ret tt
  end.

(** The [while] loop of [Parser::parse], with the flag [ok] it keeps. *)
Fixpoint parse_loop (fuel : nat) (ok : bool) : M bool :=
  match fuel with
  | O => exhausted
  | S fuel' =>
    k <- curKind ;;
    if negb (bool_decide (k = TokenKind.END_OF_FILE)) then
      s <- parseStatement fuel' ;;
      if negb s then
        skip_loop fuel' ;;;
        k <- curKind ;;
        (if bool_decide (k = TokenKind.SEMICOLON) then advance else ret tt) ;;;
        parse_loop fuel' false
      else parse_loop fuel' ok
    else ret ok
  end.

(** [Parser::parse]. *)
Definition parse (fuel : nat) : M bool := parse_loop fuel true.

(** A parse the way the driver sets it up: fresh handler and table,
    [setSource], construction, [parse]; the loop bound is the one of the
    generator's [run]. *)
Definition run (attached : bool) (source : string) : option (bool * State) :=
  let lx := Lex.setSource source (Lex.newLexer attached) in
  parse (String.length source + 2)
    (newParser lx (newSymbolTable, newErrorHandler)).

End Parser.

(** ** Vocabulary for the parser's properties *)

(** The diagnostics of a handler that are not of the Syntax phase. *)
Definition nonSyntax (h : ErrorHandler) : list CompilerError :=
  filter (fun e => phase e <> ErrorPhase.SYNTAX) (errors h).

(** A generator and a parser at the same point of the same input: same
    lexer, table and lookahead, and the same diagnostics from the lexer
    and the table. *)
Definition aligned (w : World) (p : Parser.State) : Prop :=
  lexer w = Parser.lexer p /\ table w = Parser.table p /\
  cur w = Parser.cur p /\ nonSyntax (handler w) = nonSyntax (Parser.handler p).

(** [h] with the diagnostics [es] added. *)
Definition addErrors (es : list CompilerError) (h : ErrorHandler)
    : ErrorHandler :=
  {| errors := errors h ++ es; stopOnFatal := stopOnFatal h |}.

(** An operation of the table or of the lexer does not look at the
    diagnostics recorded so far: it adds its own, none of them of the
    Syntax phase. *)
Definition oblivious {A} (f : Sym → A * Sym) : Prop :=
  ∀ st, ∃ a st' es,
    Forall (λ e, phase e ≠ ErrorPhase.SYNTAX) es ∧
    ∀ h, f (st, h) = (a, (st', addErrors es h)).

(** The lexer does not look at the diagnostics recorded so far either. *)
Definition lexOblivious (f : Lex.Lexer → Sym → Token * Lex.Lexer * Sym)
    : Prop :=
  ∀ lx st, ∃ t lx' st' es,
    Forall (λ e, phase e ≠ ErrorPhase.SYNTAX) es ∧
    ∀ h, f lx (st, h) = (t, lx', (st', addErrors es h)).

(** [n] follows [m]: from aligned states, whenever the generator method
    [m] returns, the parser method [n] returns a related result, and the
    states are aligned again. *)
Definition follows {A B} (R : A → B → Prop) (m : Gen A) (n : Parser.M B)
    : Prop :=
  ∀ w p a w', aligned w p → m w = Some (a, w') →
    ∃ b p', n p = Some (b, p') ∧ R a b ∧ aligned w' p'.

(** A generator step the parser has no counterpart for. *)
Definition generatorOnly {A} (m : Gen A) : Prop :=
  ∀ w p a w', aligned w p → m w = Some (a, w') → aligned w' p.

(** A parser step the generator has no counterpart for. *)
Definition parserOnly {B} (n : Parser.M B) : Prop :=
  ∀ p, ∃ b p', n p = Some (b, p') ∧ ∀ w, aligned w p → aligned w p'.

(** The parser's verdict next to the generator's operand. *)
Definition verdict (r : option string) (b : bool) : Prop :=
  b = match r with Some _ => true | None => false end.

(** A method that reports no Syntax diagnostic. *)
Definition quiet {A} (m : Parser.M A) : Prop :=
  ∀ p a p', m p = Some (a, p') →
    syntaxCount (Parser.handler p') = syntaxCount (Parser.handler p).

(** A method that returns [false] exactly when it has reported a Syntax
    diagnostic. *)
Definition judged (m : Parser.M bool) : Prop :=
  ∀ p b p', m p = Some (b, p') →
    if b then syntaxCount (Parser.handler p') = syntaxCount (Parser.handler p)
    else syntaxCount (Parser.handler p) < syntaxCount (Parser.handler p').


(** ** main.cpp: the compiler driver *)

Module Driver.

(** What a run of the driver leaves: the token listing, the parser's
    verdict, the instructions before and after elimination, the final
    table and the diagnostics. *)
Record Outcome := mkOutcome {
  tokens : list Token;
  parseOk : bool;
  tacBefore : list TacInst;
  tacAfter : list TacInst;
  sym : SymbolTable;
  err : ErrorHandler
}.

(** Steps 2 and 3: fresh handler, table and lexer, then
    [lexer.tokenize(source)]. *)
Definition lexStage (source : string)
    : option (list Token * Lex.Lexer * Sym) :=
  tokenize source (Lex.newLexer true) (newSymbolTable, newErrorHandler).

(** The two [sym.insert] calls of step 4. *)
Definition registerBuiltins (s : Sym) : Sym :=
  let s :=
    snd (insert (newSymbolEntry "in" "builtin" "float()->float"
                   (currentScope (fst s)) (-1)) s) in
  snd (insert (newSymbolEntry "out" "builtin" "void(float)"
                 (currentScope (fst s)) (-1)) s).

(** [main], from the source text on: steps 2 to 6.  The loops of the
    parser and of the generator get the bound of [run]. *)
Definition main (source : string) : option Outcome :=
  match lexStage source with
  | None => None
  | Some (toks, lexer, s) =>
    let lexer := Lex.setSource source lexer in
    let s := registerBuiltins s in
    let parser := Parser.newParser lexer s in
    match Parser.parse (String.length source + 2) parser with
    | None => None
    | Some (ok, parser) =>
      let lexer := Lex.setSource source (Parser.lexer parser) in
      let tacGen :=
        newTACGenerator lexer (Parser.table parser, Parser.handler parser) in
      match generate (String.length source + 2) tacGen with
      | None => None
      | Some (_, w) =>
        Some (mkOutcome toks ok (out w)
                (DeadCodeEliminator.eliminate (out w) (table w))
                (table w) (handler w))
      end
    end
  end.

End Driver.

(** The identifier [n] occurs in the token list. *)
Definition mentioned (n : string) (toks : list Token) : Prop :=
  exists t, t ∈ toks /\ tk_kind t = TokenKind.IDENT /\ lexeme t = n.

(** The current frame of [st] holds exactly the identifiers of [toks],
    each as a placeholder of the lexer. *)
Definition binds (st : SymbolTable) (toks : list Token) : Prop :=
  forall n,
    (mentioned n toks ->
     exists e, lookupLocal n st = Some e /\ kind e = "token" /\
               is_dummy e = true) /\
    (~ mentioned n toks -> lookupLocal n st = None).

(** * Properties *)

Local Open Scope list_scope.
Local Open Scope nat_scope.
Set Warnings "-clear-no-such-hyp".

(** ** Symbol table *)

Lemma reportError_errors p msg l c h :
  errors (reportError p msg l c h)
  = errors h ++ [mkCompilerError p Severity.ERROR msg l c true].
Proof. reflexivity. Qed.

Lemma reportError_never_throws p msg l c h :
  snd (report p Severity.ERROR msg l c true h) = false.
Proof. reflexivity. Qed.

Lemma insert_present entry st h existing :
  lookupLocal (name entry) st = Some existing →
  insert entry (st, h) = (false, (st, reportDuplicate existing entry h)).
Proof.
  unfold lookupLocal, insert. intros H.
  destruct (scopes st !! backIndex st) as [tbl|]; [|done].
  by rewrite H.
Qed.

Lemma insert_no_frame entry st h :
  scopes st = [] → insert entry (st, h) = (false, (st, h)).
Proof. unfold insert, backIndex. by intros ->. Qed.

Lemma back_is_Some st : scopes st ≠ [] → is_Some (scopes st !! backIndex st).
Proof.
  intros H. apply lookup_lt_is_Some. unfold backIndex.
  destruct (scopes st); simpl; [done|lia].
Qed.

Lemma lookupLocal_store st n e m :
  scopes st ≠ [] →
  lookupLocal m (store (backIndex st) n e st)
  = if decide (n = m) then Some e else lookupLocal m st.
Proof.
  intros H. destruct (back_is_Some st H) as [tbl Ht].
  unfold lookupLocal, store, backIndex in *. simpl.
  rewrite length_alter, list_lookup_alter_eq, Ht. simpl.
  apply lookup_insert.
Qed.

Lemma insert_absent entry st h :
  scopes st ≠ [] → lookupLocal (name entry) st = None →
  ∃ st', insert entry (st, h) = (true, (st', h)) ∧
         length (scopes st') = length (scopes st) ∧
         (∀ i, i ≠ backIndex st → scopes st' !! i = scopes st !! i) ∧
         (∃ e, lookupLocal (name entry) st' = Some e ∧
               name e = name entry ∧ scopeLevel e = currentScope st ∧
               kind e = kind entry ∧ type e = type entry ∧
               decl_line e = decl_line entry ∧ is_dummy e = is_dummy entry ∧
               is_used e = is_used entry) ∧
         (∀ m, m ≠ name entry → lookupLocal m st' = lookupLocal m st).
Proof.
  intros Hne Hl. destruct (back_is_Some st Hne) as [tbl Ht].
  unfold insert. unfold lookupLocal in Hl. rewrite Ht in *. rewrite Hl.
  set (e := set_scopeLevel (currentScope st) entry).
  destruct (is_empty (memoryAddr e)).
  - eexists. split; [reflexivity|].
    set (st1 := {| scopes := scopes st; nextMemoryIndex := S (nextMemoryIndex st) |}).
    assert (Hb : backIndex st = backIndex st1) by reflexivity.
    split; [apply length_alter|]. split.
    { intros i Hi. simpl. by rewrite list_lookup_alter_ne. }
    split.
    + eexists. rewrite Hb at 1. rewrite (lookupLocal_store st1) by done.
      rewrite decide_True by reflexivity. done.
    + intros m Hm. rewrite Hb at 1. rewrite (lookupLocal_store st1) by done.
      rewrite decide_False by (simpl; congruence). reflexivity.
  - eexists. split; [reflexivity|].
    split; [apply length_alter|]. split.
    { intros i Hi. simpl. by rewrite list_lookup_alter_ne. }
    split.
    + eexists. rewrite lookupLocal_store by done.
      rewrite decide_True by reflexivity. done.
    + intros m Hm. rewrite lookupLocal_store by done.
      rewrite decide_False by (simpl; congruence). reflexivity.
Qed.

Lemma lookup_from_Some k n fs i e :
  lookup_from k n fs = Some (i, e) →
  i < k ∧ ∃ m, fs !! i = Some m ∧ m !! n = Some e.
Proof.
  induction k as [|k IH]; simpl; [done|].
  destruct (fs !! k) as [m|] eqn:Ek.
  - destruct (m !! n) as [e'|] eqn:En.
    + intros [= <- <-]. split; [lia|]. by exists m.
    + intros H. destruct (IH H) as [? ?]. split; [lia|done].
  - intros H. destruct (IH H) as [? ?]. split; [lia|done].
Qed.

Lemma lookup_local n st e :
  lookupLocal n st = Some e → lookup n st = Some (backIndex st, e).
Proof.
  unfold lookupLocal, lookup, backIndex.
  destruct (scopes st) as [|f fs] eqn:E; [done|].
  simpl length. simpl pred. simpl lookup_from.
  destruct ((f :: fs) !! length fs) as [m|]; [|done].
  by intros ->.
Qed.

Lemma lookup_outer n st i e :
  lookupLocal n st = None → lookup n st = Some (i, e) →
  scopes st ≠ [] ∧ i ≠ backIndex st.
Proof.
  intros Hl Hk. apply lookup_from_Some in Hk as (Hi & m & Hm & He).
  split.
  - intros E. rewrite E in Hm. by rewrite lookup_nil in Hm.
  - intros ->. unfold lookupLocal in Hl. rewrite Hm in Hl. congruence.
Qed.

Lemma app_singleton_neq {A} (l : list A) x : l ++ [x] ≠ l.
Proof.
  intros H. apply (f_equal length) in H. rewrite length_app in H.
  simpl in H. lia.
Qed.

(** C7: [insert] fails with a DuplicateDeclaration diagnostic exactly when
    the name is already in the innermost frame, and the diagnostic cites
    the declaration line of the entry found there; a name that only an
    outer frame holds is inserted into the innermost frame, the outer
    entry is left alone and nothing is reported.  More generally a name
    the innermost frame lacks is inserted silently; only a table whose
    last frame has been popped refuses it, silently too. *)
Theorem insert_duplicate_iff entry st h :
  let r := insert entry (st, h) in
  ((fst r = false ∧
    ∃ e l, errors (snd (snd r)) = errors h ++ [e] ∧
           isDuplicateDiagnostic (name entry) l e)
   ↔ is_Some (lookupLocal (name entry) st)) ∧
  (∀ existing, lookupLocal (name entry) st = Some existing →
     fst r = false ∧ fst (snd r) = st ∧
     ∃ e, errors (snd (snd r)) = errors h ++ [e] ∧
          isDuplicateDiagnostic (name entry) (decl_line existing) e) ∧
  (∀ i outer, lookupLocal (name entry) st = None →
     lookup (name entry) st = Some (i, outer) →
     fst r = true ∧ snd (snd r) = h ∧
     scopes (fst (snd r)) !! i = scopes st !! i ∧
     ∃ e, lookup (name entry) (fst (snd r)) = Some (backIndex st, e) ∧
          name e = name entry) ∧
  (lookupLocal (name entry) st = None → scopes st ≠ [] →
     fst r = true ∧ snd (snd r) = h) ∧
  (scopes st = [] → r = (false, (st, h))).
Proof.
  intros r. subst r.
  assert (Hp : ∀ existing, lookupLocal (name entry) st = Some existing →
     fst (insert entry (st, h)) = false ∧
     fst (snd (insert entry (st, h))) = st ∧
     ∃ e, errors (snd (snd (insert entry (st, h)))) = errors h ++ [e] ∧
          isDuplicateDiagnostic (name entry) (decl_line existing) e).
  { intros existing Hl. rewrite (insert_present _ _ _ _ Hl). simpl.
    split; [done|]. split; [done|]. eexists. split; [reflexivity|].
    by split. }
  split; [|split; [exact Hp|split; [|split]]].
  - split.
    + intros [Hf (e & l & He & _)].
      destruct (lookupLocal (name entry) st) as [x|] eqn:Hl; [by eexists|].
      exfalso. destruct (scopes st) as [|f fs] eqn:Es.
      * rewrite insert_no_frame in He by done. simpl in He.
        symmetry in He. by apply app_singleton_neq in He.
      * destruct (insert_absent entry st h) as (st' & Hi & _);
          [by rewrite Es|done|].
        rewrite Hi in Hf. done.
    + intros [x Hl]. destruct (Hp x Hl) as (? & ? & e & ? & ?).
      split; [done|]. by exists e, (decl_line x).
  - intros i outer Hl Hk.
    destruct (lookup_outer _ _ _ _ Hl Hk) as [Hne Hi].
    destruct (insert_absent entry st h Hne Hl)
      as (st' & -> & Hlen & Hfr & (e & He & Hn & _) & _).
    simpl. split; [done|]. split; [done|]. split; [by apply Hfr|].
    exists e. split; [|done].
    rewrite <- Hn in He. apply lookup_local in He.
    rewrite Hn in He. rewrite He. unfold backIndex. by rewrite Hlen.
  - intros Hl Hne.
    by destruct (insert_absent entry st h Hne Hl) as (st' & -> & _).
  - apply insert_no_frame.
Qed.

Lemma entryAt_store i n e st j m :
  entryAt j m (store i n e st)
  = if decide (i = j ∧ n = m ∧ j < length (scopes st)) then Some e
    else entryAt j m st.
Proof.
  unfold entryAt, store. simpl.
  destruct (decide (i = j)) as [->|Hij].
  - rewrite list_lookup_alter_eq.
    destruct (scopes st !! j) as [f|] eqn:Ej; simpl.
    + apply lookup_lt_Some in Ej as Hlt. rewrite lookup_insert.
      repeat case_decide; try done; naive_solver.
    + apply lookup_ge_None in Ej. rewrite decide_False; [done|]. lia.
  - rewrite list_lookup_alter_ne by done.
    rewrite decide_False; [done|]. naive_solver.
Qed.

Lemma declare_dummy_local lhs line st h e :
  lookupLocal lhs st = Some e → is_dummy e = true →
  declare lhs line (st, h) = (store (backIndex st) lhs (promote line e) st, h).
Proof.
  intros Hl Hd. unfold declare. simpl.
  rewrite (lookup_local _ _ _ Hl), Hd. unfold updateEntry. simpl.
  by rewrite Hl.
Qed.

Lemma declare_concrete lhs line st h i e :
  lookup lhs st = Some (i, e) → is_dummy e = false →
  declare lhs line (st, h) = (st, h).
Proof. intros Hl Hd. unfold declare. simpl. by rewrite Hl, Hd. Qed.

Lemma lookup_one_frame n st i e :
  length (scopes st) = 1 → lookup n st = Some (i, e) →
  i = 0 ∧ backIndex st = 0 ∧ lookupLocal n st = Some e.
Proof.
  unfold lookup, lookupLocal, backIndex.
  destruct (scopes st) as [|f [|g fs]]; try discriminate. intros _. simpl.
  destruct (f !! n) as [x|]; [|done]. by intros [= <- <-].
Qed.

Lemma entriesFor_one_frame n st e :
  length (scopes st) = 1 → entryAt 0 n st = Some e → entriesFor n st = [e].
Proof.
  unfold entryAt, entriesFor.
  destruct (scopes st) as [|f [|g fs]]; try discriminate. intros _. simpl.
  by intros ->.
Qed.

(** C6: the table of a compilation has one frame, the one its constructor
    opens: neither the lexer nor the generator opens or closes a frame.
    On such a table, when the left-hand name of a statement resolves to a
    dummy entry, [declare] promotes that entry in place: kind, type,
    isDummy and declLine are set, every other field (address and scope
    level among them) and every other entry stay as they were, and the
    name still has one entry; when the name resolves to a concrete entry,
    [declare] changes nothing and reports nothing; the program
    [x = 1.0; x = 2.0;] produces no diagnostic and one entry for [x]. *)
Theorem assignment_target_declared lhs line st h i e :
  length (scopes st) = 1 →
  lookup lhs st = Some (i, e) →
  (is_dummy e = true →
     ∃ st' e',
       declare lhs line (st, h) = (st', h) ∧
       lookup lhs st' = Some (i, e') ∧
       kind e' = "variable" ∧ type e' = "float" ∧
       is_dummy e' = false ∧ decl_line e' = line ∧
       memoryAddr e' = memoryAddr e ∧ scopeLevel e' = scopeLevel e ∧
       name e' = name e ∧ value e' = value e ∧
       is_state e' = is_state e ∧ is_used e' = is_used e ∧
       length (scopes st') = length (scopes st) ∧
       nextMemoryIndex st' = nextMemoryIndex st ∧
       entriesFor lhs st' = [e'] ∧
       (∀ j n, j ≠ i ∨ n ≠ lhs → entryAt j n st' = entryAt j n st)) ∧
  (is_dummy e = false → declare lhs line (st, h) = (st, h)) ∧
  (∀ attached, ∃ w,
     run attached "x = 1.0; x = 2.0;" = Some (true, w) ∧
     errors (handler w) = [] ∧
     length (entriesFor "x" (table w)) = 1).
Proof.
  intros H1 Hk. destruct (lookup_one_frame _ _ _ _ H1 Hk) as (-> & Hb & Hl).
  split; [|split].
  - intros Hd. rewrite (declare_dummy_local _ _ _ _ _ Hl Hd).
    assert (Hne : scopes st ≠ []) by (by destruct (scopes st)).
    assert (Hlen : length (scopes (store (backIndex st) lhs (promote line e) st))
                   = length (scopes st)) by apply length_alter.
    assert (Hl' : lookupLocal lhs (store (backIndex st) lhs (promote line e) st)
                  = Some (promote line e)).
    { rewrite lookupLocal_store by done. by rewrite decide_True. }
    exists (store (backIndex st) lhs (promote line e) st), (promote line e).
    split; [done|]. split.
    { apply lookup_local in Hl'. rewrite Hl'. do 2 f_equal.
      unfold backIndex at 1. by rewrite Hlen, H1. }
    do 10 (split; [done|]). split; [exact Hlen|]. split; [done|]. split.
    { apply entriesFor_one_frame; [by rewrite Hlen|].
      rewrite Hb, entryAt_store. apply decide_True. rewrite H1.
      split; [done|]. split; [done|lia]. }
    intros j n Hjn. rewrite Hb, entryAt_store. apply decide_False. naive_solver.
  - intros Hd. by eapply declare_concrete.
  - intros [|]; eexists; (split; [vm_compute; reflexivity|]);
      split; vm_compute; reflexivity.
Qed.

(** The placeholder the lexer has entered for [x] at line 3, promoted by
    an assignment to [x] at line 7. *)
Lemma assignment_target_declared_witness :
  ∃ st' e',
    declare "x" 7 (snd (insertTokenPlaceholder "x" 3
                          (newSymbolTable, newErrorHandler)))
    = (st', newErrorHandler) ∧
    lookup "x" st' = Some (0, e') ∧ decl_line e' = 7%Z ∧
    memoryAddr e' = "stk0" ∧ entriesFor "x" st' = [e'].
Proof.
  destruct (proj1 (assignment_target_declared "x" 7
     (fst (snd (insertTokenPlaceholder "x" 3 (newSymbolTable, newErrorHandler))))
     newErrorHandler 0
     (set_memoryAddr "stk0"
        (set_is_dummy true (newSymbolEntry "x" "token" "unknown" 0 3)))
     eq_refl eq_refl) eq_refl)
    as (st' & e' & H1 & H2 & _ & _ & _ & H3 & H4 & _ & _ & _ & _ & _ & _ & _ & H5 & _).
  exists st', e'. split; [exact H1|]. split; [exact H2|].
  split; [exact H3|]. split; [exact H4|exact H5].
Defined.

(** Why the table is taken with one frame.  Through the interface of the
    table, outside any compilation, a frame can be opened with
    [beginScope]; [x] read there gets its dummy in the global frame, and
    [declare] then leaves that dummy as it is and inserts an entry for [x]
    into the nested frame. *)
Lemma declare_with_nested_frame :
  ∃ i e j e',
    lookup "x" (fst readInNestedScope) = Some (i, e) ∧ is_dummy e = true ∧
    lookup "x" (fst (declare "x" 1 readInNestedScope)) = Some (j, e') ∧
    j ≠ i ∧ memoryAddr e' ≠ memoryAddr e ∧ scopeLevel e' ≠ scopeLevel e ∧
    entryAt i "x" (fst (declare "x" 1 readInNestedScope)) = Some e ∧
    length (entriesFor "x" (fst (declare "x" 1 readInNestedScope))) = 2.
Proof.
  eexists 0, _, 1, _.
  split; [vm_compute; reflexivity|].
  split; [reflexivity|].
  split; [vm_compute; reflexivity|].
  split; [lia|]. split; [discriminate|]. split; [discriminate|].
  split; vm_compute; reflexivity.
Qed.

(** A global [x] shadowed in a nested scope, and a second global [x]. *)
Lemma insert_duplicate_iff_witness :
  fst (insert (newSymbolEntry "x" "variable" "float" 1 5)
         (beginScope
            (fst (snd (insert (newSymbolEntry "x" "variable" "float" 0 2)
                         (newSymbolTable, newErrorHandler)))),
          newErrorHandler)) = true ∧
  ∃ e, errors (snd (snd
         (insert (newSymbolEntry "x" "variable" "float" 0 5)
            (fst (snd (insert (newSymbolEntry "x" "variable" "float" 0 2)
                         (newSymbolTable, newErrorHandler))),
             newErrorHandler)))) = [e] ∧
       isDuplicateDiagnostic "x" 2 e.
Proof.
  split.
  - eapply (proj1 (proj2 (proj2 (insert_duplicate_iff
              (newSymbolEntry "x" "variable" "float" 1 5)
              (beginScope
                 (fst (snd (insert (newSymbolEntry "x" "variable" "float" 0 2)
                              (newSymbolTable, newErrorHandler)))))
              newErrorHandler))) 0); vm_compute; reflexivity.
  - destruct (proj1 (proj2 (insert_duplicate_iff
              (newSymbolEntry "x" "variable" "float" 0 5)
              (fst (snd (insert (newSymbolEntry "x" "variable" "float" 0 2)
                           (newSymbolTable, newErrorHandler))))
              newErrorHandler))
              (set_memoryAddr "0x1000"
                 (newSymbolEntry "x" "variable" "float" 0 2)) eq_refl)
      as (_ & _ & e & He & Hd).
    exists e. split; [exact He|exact Hd].
Defined.

(** ** TAC generator *)

(** *** Lexer progress *)

Lemma get_remaining lx :
  Lex.remaining (snd (Lex.get lx)) ≤ Lex.remaining lx ∧
  (Lex.eof lx = false → Lex.remaining (snd (Lex.get lx)) < Lex.remaining lx).
Proof.
  unfold Lex.get, Lex.remaining, Lex.eof.
  case_bool_decide as He; simpl; [split; [lia|done]|].
  case_bool_decide; simpl; split; intros; lia.
Qed.

Lemma take_while_remaining p fuel lex lx :
  Lex.remaining (snd (Lex.take_while p fuel lex lx)) ≤ Lex.remaining lx.
Proof.
  revert lex lx. induction fuel as [|fuel IH]; intros lex lx; simpl; [done|].
  destruct (negb (Lex.eof lx) && p (Lex.peek 0 lx)); simpl; [|done].
  pose proof (get_remaining lx) as [Hg _].
  destruct (Lex.get lx) as [c lx']. simpl in Hg.
  etrans; [apply IH|done].
Qed.

Lemma take_while_progress p lex lx :
  Lex.eof lx = false → p (Lex.peek 0 lx) = true →
  Lex.remaining (snd (Lex.take_while p (Lex.remaining lx) lex lx))
  < Lex.remaining lx.
Proof.
  intros He Hp.
  destruct (Lex.remaining lx) as [|n] eqn:Er.
  { unfold Lex.eof in He. apply bool_decide_eq_false in He.
    unfold Lex.remaining in Er. lia. }
  simpl. rewrite He, Hp. simpl.
  pose proof (get_remaining lx) as [_ Hg]. specialize (Hg He).
  destruct (Lex.get lx) as [c lx']. simpl in Hg.
  pose proof (take_while_remaining p n (lex ++ String c "")%string lx').
  lia.
Qed.

(** *** Syntax diagnostics come from the generator only *)

Lemma syntaxCount_reportError p msg l c h :
  syntaxCount (reportError p msg l c h)
  = syntaxCount h + (if bool_decide (p = ErrorPhase.SYNTAX) then 1 else 0).
Proof.
  unfold syntaxCount, reportError. simpl.
  rewrite filter_app, length_app. f_equal.
  rewrite filter_cons. simpl.
  case_bool_decide; [rewrite decide_True by done|rewrite decide_False by done];
    reflexivity.
Qed.

Lemma insert_syntaxCount e s :
  syntaxCount (snd (snd (insert e s))) = syntaxCount (snd s).
Proof.
  destruct s as [st h]. unfold insert.
  destruct (scopes st !! backIndex st) as [tbl|]; [|done].
  destruct (tbl !! name e); simpl.
  - unfold reportDuplicate. rewrite syntaxCount_reportError. simpl. lia.
  - by destruct (is_empty _).
Qed.

Lemma insertTokenPlaceholder_syntaxCount n l s :
  syntaxCount (snd (snd (insertTokenPlaceholder n l s))) = syntaxCount (snd s).
Proof.
  unfold insertTokenPlaceholder.
  destruct (existsInCurrentScope n (fst s)); [done|].
  apply insert_syntaxCount.
Qed.

Lemma markUsed_syntaxCount n s :
  syntaxCount (snd (markUsed n s)) = syntaxCount (snd s).
Proof.
  destruct s as [st h]. unfold markUsed.
  destruct (lookup n st) as [[i e]|]; simpl; [done|].
  rewrite syntaxCount_reportError. simpl. lia.
Qed.

Lemma updateEntry_syntaxCount n f s :
  syntaxCount (snd (snd (updateEntry n f s))) = syntaxCount (snd s).
Proof.
  unfold updateEntry.
  destruct (lookupLocal n (fst s)); [done|].
  pose proof (insert_syntaxCount
    (newSymbolEntry n "variable" "unknown" (currentScope (fst s)) (-1)) s) as H.
  destruct (insert _ s) as [ok s']. simpl in H.
  destruct ok; [|done].
  by destruct (lookupLocal n (fst s')).
Qed.

Lemma declare_syntaxCount lhs l s :
  syntaxCount (snd (declare lhs l s)) = syntaxCount (snd s).
Proof.
  unfold declare.
  destruct (lookup lhs (fst s)) as [[i e]|].
  - destruct (is_dummy e); [|done]. apply updateEntry_syntaxCount.
  - apply insert_syntaxCount.
Qed.

(** *** One call of the lexer *)

Lemma isIdentStart_body c : Lex.isIdentStart c = true → Lex.isIdentBody c = true.
Proof.
  unfold Lex.isIdentStart, Lex.isIdentBody, Lex.isalnum.
  rewrite !orb_true_iff. tauto.
Qed.

Lemma lexIdentifier_spec lx s :
  Lex.eof lx = false → Lex.isIdentStart (Lex.peek 0 lx) = true →
  tk_kind (fst (fst (Lex.lexIdentifier lx s))) = TokenKind.IDENT ∧
  Lex.remaining (snd (fst (Lex.lexIdentifier lx s))) < Lex.remaining lx ∧
  syntaxCount (snd (snd (Lex.lexIdentifier lx s))) = syntaxCount (snd s).
Proof.
  intros He Hp. unfold Lex.lexIdentifier.
  pose proof (take_while_progress Lex.isIdentBody "" lx He
                (isIdentStart_body _ Hp)) as Hr.
  destruct (Lex.take_while _ _ _ lx) as [lex lx']. simpl in *.
  split; [done|]. split; [done|].
  destruct (Lex.symtab lx' && negb (existsInCurrentScope lex (fst s))); [|done].
  apply insertTokenPlaceholder_syntaxCount.
Qed.

Lemma lexReportError_syntaxCount msg lx h :
  syntaxCount (Lex.lexReportError msg lx h) = syntaxCount h.
Proof.
  unfold Lex.lexReportError. rewrite syntaxCount_reportError. simpl. lia.
Qed.

Lemma lexNumber_spec lx s :
  Lex.eof lx = false →
  Lex.isdigit (Lex.peek 0 lx) = true ∨ Lex.peek 0 lx = "."%char →
  Lex.remaining (snd (fst (Lex.lexNumber lx s))) < Lex.remaining lx ∧
  syntaxCount (snd (snd (Lex.lexNumber lx s))) = syntaxCount (snd s).
Proof.
  intros He Hp. unfold Lex.lexNumber.
  case_bool_decide as Hdot.
  - pose proof (get_remaining lx) as [_ Hg]. specialize (Hg He).
    destruct (Lex.get lx) as [c lx1]. simpl in Hg.
    destruct (negb (Lex.isdigit (Lex.peek 0 lx1))); simpl.
    + split; [done|]. apply lexReportError_syntaxCount.
    + pose proof (take_while_remaining Lex.isdigit (Lex.remaining lx1)
                    (String c "") lx1) as Ht.
      destruct (Lex.take_while _ _ _ lx1) as [lex lx2]. simpl in *.
      split; [lia|done].
  - destruct Hp as [Hp|Hp]; [|done].
    pose proof (take_while_progress Lex.isdigit "" lx He Hp) as Ht.
    destruct (Lex.take_while _ _ _ lx) as [lex lx1]. simpl in Ht.
    case_bool_decide.
    + pose proof (get_remaining lx1) as [Hg _].
      destruct (Lex.get lx1) as [c lx2]. simpl in Hg.
      pose proof (take_while_remaining Lex.isdigit (Lex.remaining lx2)
                    (lex ++ String c "")%string lx2) as Ht2.
      destruct (Lex.take_while _ _ _ lx2) as [lex' lx3]. simpl in *.
      split; [lia|done].
    + simpl. split; [lia|done].
Qed.

Lemma lexOperatorOrSymbol_spec lx s :
  Lex.eof lx = false →
  Lex.remaining (snd (fst (Lex.lexOperatorOrSymbol lx s))) < Lex.remaining lx ∧
  syntaxCount (snd (snd (Lex.lexOperatorOrSymbol lx s))) = syntaxCount (snd s).
Proof.
  intros He. unfold Lex.lexOperatorOrSymbol.
  pose proof (get_remaining lx) as [_ Hg]. specialize (Hg He).
  destruct (Lex.get lx) as [c lx']. simpl in Hg. cbv zeta.
  repeat match goal with
         | |- context [bool_decide ?P] => destruct (bool_decide P)
         end; simpl; (split; [exact Hg|]); try reflexivity.
  apply lexReportError_syntaxCount.
Qed.

Lemma getNextToken_spec lx s :
  Lex.remaining (snd (fst (Lex.getNextToken lx s))) +
    (if bool_decide (tk_kind (fst (fst (Lex.getNextToken lx s)))
                     = TokenKind.END_OF_FILE) then 0 else 1)
  ≤ Lex.remaining lx ∧
  syntaxCount (snd (snd (Lex.getNextToken lx s))) = syntaxCount (snd s).
Proof.
  unfold Lex.getNextToken.
  destruct (Lex.src lx) as [source|]; simpl;
    [|split; [try case_bool_decide; lia|done]].
  pose proof (take_while_remaining Lex.isspace (Lex.remaining lx) "" lx) as Hs.
  fold (Lex.skipWhitespace lx) in Hs.
  set (lx1 := Lex.skipWhitespace lx) in *.
  destruct (Lex.eof lx1) eqn:He; simpl;
    [split; [try case_bool_decide; lia|done]|].
  destruct (Lex.isIdentStart (Lex.peek 0 lx1)) eqn:Hi.
  - destruct (lexIdentifier_spec lx1 s He Hi) as (Hk & Hr & Hc).
    rewrite Hk. simpl. split; [lia|done].
  - destruct (Lex.isdigit (Lex.peek 0 lx1) ||
              bool_decide (Lex.peek 0 lx1 = "."%char) &&
              Lex.isdigit (Lex.peek 1 lx1)) eqn:Hn.
    + destruct (lexNumber_spec lx1 s He) as (Hr & Hc).
      { apply orb_true_iff in Hn as [?|Hn]; [by left|].
        apply andb_true_iff in Hn as [Hn _].
        apply bool_decide_eq_true in Hn. by right. }
      split; [|done].
      destruct (bool_decide (tk_kind _ = TokenKind.END_OF_FILE)); lia.
    + destruct (lexOperatorOrSymbol_spec lx1 s He) as (Hr & Hc).
      split; [|done].
      destruct (bool_decide (tk_kind _ = TokenKind.END_OF_FILE)); lia.
Qed.

(** *** Reasoning about generator methods *)

Lemma returns_ret {A} (a : A) w (Q : A → World → Prop) :
  Q a w → returns (ret a) w Q.
Proof. intros H. by exists a, w. Qed.

Lemma returns_bind {A B} (m : Gen A) (k : A → Gen B) w
    (P : A → World → Prop) (Q : B → World → Prop) :
  returns m w P → (∀ a w', P a w' → returns (k a) w' Q) →
  returns (bind m k) w Q.
Proof.
  intros (a & w' & Hm & HP) Hk. destruct (Hk a w' HP) as (b & w'' & Hb & HQ).
  exists b, w''. unfold bind. by rewrite Hm.
Qed.

Lemma returns_bind_eq {A B} (m : Gen A) (k : A → Gen B) w a w'
    (Q : B → World → Prop) :
  m w = Some (a, w') → returns (k a) w' Q → returns (bind m k) w Q.
Proof.
  intros Hm (b & w'' & Hb & HQ). exists b, w''. unfold bind. by rewrite Hm.
Qed.

Lemma returns_weaken {A} (m : Gen A) w (P Q : A → World → Prop) :
  returns m w P → (∀ a w', P a w' → Q a w') → returns m w Q.
Proof. intros (a & w' & Hm & HP) H. exists a, w'. auto. Qed.

Lemma extends_refl w : extends w w.
Proof. by repeat split. Qed.

Lemma extends_trans w1 w2 w3 : extends w1 w2 → extends w2 w3 → extends w1 w3.
Proof.
  intros (? & ? & ?) (? & ? & ?). repeat split; [lia| |lia].
  by etrans.
Qed.

Lemma silent_extends w w' : silent w w' → extends w w'.
Proof. intros (Hp & Ho & Hs & _). unfold extends. rewrite Hp, Ho, Hs. done. Qed.

Lemma curKind_spec w :
  returns curKind w (fun k w' => k = tk_kind (cur w) ∧ w' = w).
Proof. by eexists _, _. Qed.

Lemma curTok_spec w : returns curTok w (fun t w' => t = cur w ∧ w' = w).
Proof. by eexists _, _. Qed.

Lemma reportAtCur_spec msg w :
  returns (reportAtCur ErrorPhase.SYNTAX msg) w
    (fun _ w' => pending w' = pending w ∧ out w' = out w ∧
                 syntaxCount (handler w') = S (syntaxCount (handler w)) ∧
                 cur w' = cur w).
Proof.
  eexists _, _. split; [reflexivity|]. simpl.
  rewrite syntaxCount_reportError. simpl. repeat split; lia.
Qed.

Lemma onSym_spec (f : Sym → Sym) w :
  (∀ s, syntaxCount (snd (f s)) = syntaxCount (snd s)) →
  returns (onSym (fun s => (tt, f s))) w (fun _ w' => silent w w').
Proof.
  intros Hf. unfold onSym, returns.
  specialize (Hf (table w, handler w)).
  destruct (f (table w, handler w)) as [st h]. simpl in Hf.
  eexists _, _. split; [reflexivity|]. by repeat split.
Qed.

Lemma advance_spec w :
  returns advance w
    (fun _ w' => pending w' ≤ pending w ∧
                 (tk_kind (cur w) ≠ TokenKind.END_OF_FILE →
                  pending w' < pending w) ∧
                 out w' = out w ∧
                 syntaxCount (handler w') = syntaxCount (handler w)).
Proof.
  unfold advance, returns.
  pose proof (getNextToken_spec (lexer w) (table w, handler w)) as [Hr Hc].
  destruct (Lex.getNextToken (lexer w) (table w, handler w))
    as [[t lx] [st h]]. simpl in *.
  eexists _, _. split; [reflexivity|]. unfold pending. simpl.
  repeat split; try done.
  - case_bool_decide; lia.
  - intros Hk. rewrite (bool_decide_eq_false_2 _ Hk). lia.
Qed.

Lemma nextToken_spec w :
  returns nextToken w
    (fun _ w' => pending w' ≤ pending w ∧
                 (tk_kind (cur w) ≠ TokenKind.END_OF_FILE →
                  pending w' < pending w) ∧
                 out w' = out w ∧
                 syntaxCount (handler w') = syntaxCount (handler w)).
Proof.
  destruct (advance_spec w) as ([] & w' & Ha & H).
  exists (cur w), w'. split; [|done].
  unfold nextToken, advance in *.
  destruct (Lex.getNextToken (lexer w) (table w, handler w))
    as [[t lx] [st h]]. congruence.
Qed.

Lemma newTemp_spec w : returns newTemp w (fun _ w' => silent w w').
Proof.
  unfold newTemp, returns. destruct (freeTemps w); eexists _, _;
    (split; [reflexivity|]); by repeat split.
Qed.

Lemma push_back_spec i w :
  returns (push_back i) w
    (fun _ w' => pending w' = pending w ∧ out w' = out w ++ [i] ∧
                 syntaxCount (handler w') = syntaxCount (handler w) ∧
                 cur w' = cur w).
Proof. by eexists _, _. Qed.

Lemma release_spec x w : returns (release x) w (fun _ w' => silent w w').
Proof.
  unfold release, returns. destruct (starts_with_t x); eexists _, _;
    (split; [reflexivity|]); by repeat split.
Qed.

Lemma consumed_extends w w' :
  pending w' ≤ pending w → out w' = out w →
  syntaxCount (handler w') = syntaxCount (handler w) → extends w w'.
Proof. intros Hp Ho Hs. unfold extends. rewrite Ho, Hs. done. Qed.

Lemma emitted_extends w w' i :
  pending w' = pending w → out w' = out w ++ [i] →
  syntaxCount (handler w') = syntaxCount (handler w) → extends w w'.
Proof.
  intros Hp Ho Hs. unfold extends. rewrite Hp, Ho, Hs.
  split; [done|]. split; [|done]. by apply prefix_app_r.
Qed.

Lemma reported_extends w w' :
  pending w' = pending w → out w' = out w →
  syntaxCount (handler w') = S (syntaxCount (handler w)) → extends w w'.
Proof.
  intros Hp Ho Hs. unfold extends. rewrite Hp, Ho, Hs.
  split; [done|]. split; [done|lia].
Qed.

Ltac step_with lem H :=
  eapply returns_bind; [apply lem|cbv beta; intros ? ? H].

Lemma parseFactor_spec w :
  returns parseFactor w
    (fun r w' => extends w w' ∧
       (r = None → syntaxCount (handler w) < syntaxCount (handler w'))).
Proof.
  unfold parseFactor.
  step_with curKind_spec H0. destruct H0 as [-> ->].
  case_bool_decide as Hk; [|case_bool_decide as Hf].
  - step_with curTok_spec H1. destruct H1 as [-> ->].
    step_with (onSym_spec (markUsed (lexeme (cur w)))) H2.
    { intros s. apply markUsed_syntaxCount. }
    step_with nextToken_spec H3. destruct H3 as (Hp & _ & Ho & Hs).
    apply returns_ret. split; [|done].
    eapply extends_trans; [by apply silent_extends|].
    by apply consumed_extends.
  - step_with curTok_spec H1. destruct H1 as [-> ->].
    step_with newTemp_spec H2.
    step_with push_back_spec H3. destruct H3 as (Hp3 & Ho3 & Hs3 & _).
    step_with nextToken_spec H4. destruct H4 as (Hp & _ & Ho & Hs).
    apply returns_ret. split; [|done].
    eapply extends_trans; [by apply silent_extends|].
    eapply extends_trans; [by eapply emitted_extends|].
    by apply consumed_extends.
  - step_with reportAtCur_spec H1. destruct H1 as (Hp & Ho & Hs & _).
    apply returns_ret. split; [by apply reported_extends|].
    intros _. lia.
Qed.

(** The shared end of both binary folds: mint the destination, emit the
    instruction, release the operands. *)
Lemma fold_tail_spec (o1 o2 : TACOp.t) (b : bool) left_ right_
    (k : string → Gen (option string)) w (Q : option string → World → Prop) :
  (∀ d w', extends w w' → returns (k d) w' Q) →
  returns (d <- newTemp ;;
           (if b then emitBinary o1 d left_ right_
            else emitBinary o2 d left_ right_) ;;;
           release left_ ;;; release right_ ;;; k d) w Q.
Proof.
  intros Hk.
  step_with newTemp_spec H1.
  destruct b.
  all: step_with push_back_spec H2; destruct H2 as (Hp2 & Ho2 & Hs2 & _).
  all: step_with release_spec H3.
  all: step_with release_spec H4.
  all: apply Hk.
  all: eapply extends_trans; [by apply silent_extends|].
  all: eapply extends_trans; [by eapply emitted_extends|].
  all: eapply extends_trans; by apply silent_extends.
Qed.

Lemma parseTerm_loop_spec fuel : ∀ left_ w,
  pending w < fuel →
  returns (parseTerm_loop fuel left_) w
    (fun r w' => extends w w' ∧
       (r = None → syntaxCount (handler w) < syntaxCount (handler w'))).
Proof.
  induction fuel as [|fuel IH]; intros left_ w Hfuel; [lia|].
  simpl.
  step_with curKind_spec H0. destruct H0 as [-> ->].
  destruct (bool_decide (tk_kind (cur w) = TokenKind.STAR) ||
            bool_decide (tk_kind (cur w) = TokenKind.SLASH)) eqn:Hop.
  - assert (Hne : tk_kind (cur w) ≠ TokenKind.END_OF_FILE).
    { apply orb_true_iff in Hop as [Hop|Hop];
        apply bool_decide_eq_true in Hop; congruence. }
    step_with nextToken_spec H1. destruct H1 as (Hp1 & Hlt & Ho1 & Hs1).
    specialize (Hlt Hne).
    assert (He1 : extends w w') by by apply consumed_extends.
    step_with parseFactor_spec H2. destruct H2 as [He2 Hf2].
    destruct a0 as [right_|].
    + apply fold_tail_spec. intros d w3 He3.
      eapply returns_weaken.
      * apply IH. destruct He2 as (? & _), He3 as (? & _). lia.
      * cbv beta. intros r w4 [He4 Hf4]. split.
        -- eapply extends_trans; [exact He1|].
           eapply extends_trans; [exact He2|].
           eapply extends_trans; [exact He3|exact He4].
        -- intros Hr. specialize (Hf4 Hr).
           destruct He2 as (_ & _ & ?), He3 as (_ & _ & ?). lia.
    + step_with reportAtCur_spec H3. destruct H3 as (Hp3 & Ho3 & Hs3 & _).
      apply returns_ret. split.
      * eapply extends_trans; [exact He1|].
        eapply extends_trans; [exact He2|]. by apply reported_extends.
      * intros _. destruct He2 as (_ & _ & ?). lia.
  - apply returns_ret. split; [apply extends_refl|done].
Qed.

Lemma parseTerm_spec fuel w :
  pending w < fuel →
  returns (parseTerm fuel) w
    (fun r w' => extends w w' ∧
       (r = None → syntaxCount (handler w) < syntaxCount (handler w'))).
Proof.
  intros Hfuel. unfold parseTerm.
  step_with parseFactor_spec H1. destruct H1 as [He1 Hf1].
  destruct a as [left_|].
  - eapply returns_weaken.
    + apply parseTerm_loop_spec. destruct He1 as (? & _). lia.
    + cbv beta. intros r w2 [He2 Hf2]. split.
      * by eapply extends_trans.
      * intros Hr. specialize (Hf2 Hr). destruct He1 as (_ & _ & ?). lia.
  - apply returns_ret. split; [done|]. intros _. by apply Hf1.
Qed.

Lemma parseExpression_loop_spec fuel : ∀ left_ w,
  pending w < fuel →
  returns (parseExpression_loop fuel left_) w
    (fun r w' => extends w w' ∧
       (r = None → syntaxCount (handler w) < syntaxCount (handler w'))).
Proof.
  induction fuel as [|fuel IH]; intros left_ w Hfuel; [lia|].
  simpl.
  step_with curKind_spec H0. destruct H0 as [-> ->].
  destruct (bool_decide (tk_kind (cur w) = TokenKind.PLUS) ||
            bool_decide (tk_kind (cur w) = TokenKind.MINUS)) eqn:Hop.
  - assert (Hne : tk_kind (cur w) ≠ TokenKind.END_OF_FILE).
    { apply orb_true_iff in Hop as [Hop|Hop];
        apply bool_decide_eq_true in Hop; congruence. }
    step_with nextToken_spec H1. destruct H1 as (Hp1 & Hlt & Ho1 & Hs1).
    specialize (Hlt Hne).
    assert (He1 : extends w w') by by apply consumed_extends.
    eapply returns_bind; [apply parseTerm_spec; lia|].
    cbv beta. intros r2 w2 [He2 Hf2].
    destruct r2 as [right_|].
    + apply fold_tail_spec. intros d w3 He3.
      eapply returns_weaken.
      * apply IH. destruct He2 as (? & _), He3 as (? & _). lia.
      * cbv beta. intros r w4 [He4 Hf4]. split.
        -- eapply extends_trans; [exact He1|].
           eapply extends_trans; [exact He2|].
           eapply extends_trans; [exact He3|exact He4].
        -- intros Hr. specialize (Hf4 Hr).
           destruct He2 as (_ & _ & ?), He3 as (_ & _ & ?). lia.
    + step_with reportAtCur_spec H3. destruct H3 as (Hp3 & Ho3 & Hs3 & _).
      apply returns_ret. split.
      * eapply extends_trans; [exact He1|].
        eapply extends_trans; [exact He2|]. by apply reported_extends.
      * intros _. destruct He2 as (_ & _ & ?). lia.
  - apply returns_ret. split; [apply extends_refl|done].
Qed.

Lemma parseExpression_spec fuel w :
  pending w < fuel →
  returns (parseExpression fuel) w
    (fun r w' => extends w w' ∧
       (r = None → syntaxCount (handler w) < syntaxCount (handler w'))).
Proof.
  intros Hfuel. unfold parseExpression.
  eapply returns_bind; [by apply parseTerm_spec|].
  cbv beta. intros r1 w1 [He1 Hf1].
  destruct r1 as [left_|].
  - eapply returns_weaken.
    + apply parseExpression_loop_spec. destruct He1 as (? & _). lia.
    + cbv beta. intros r w2 [He2 Hf2]. split.
      * by eapply extends_trans.
      * intros Hr. specialize (Hf2 Hr). destruct He1 as (_ & _ & ?). lia.
  - apply returns_ret. split; [done|]. intros _. by apply Hf1.
Qed.

Lemma parseStatement_spec fuel w :
  pending w < fuel →
  returns (parseStatement fuel) w
    (fun ok w' => extends w w' ∧
       (ok = false → syntaxCount (handler w) < syntaxCount (handler w')) ∧
       (tk_kind (cur w) ≠ TokenKind.END_OF_FILE →
        pending w' < pending w ∨
        (ok = false ∧ tk_kind (cur w') ≠ TokenKind.END_OF_FILE))).
Proof.
  intros Hfuel. unfold parseStatement.
  step_with curKind_spec H0. destruct H0 as [-> ->].
  case_bool_decide as Hk; simpl.
  2:{ step_with reportAtCur_spec H1. destruct H1 as (Hp & Ho & Hs & Hc).
      apply returns_ret. split; [by apply reported_extends|].
      split; [intros _; lia|]. intros Hne. right. by rewrite Hc. }
  assert (Hne : tk_kind (cur w) ≠ TokenKind.END_OF_FILE) by congruence.
  step_with curTok_spec H1. destruct H1 as [-> ->].
  step_with nextToken_spec H2. destruct H2 as (Hp1 & Hlt & Ho1 & Hs1).
  specialize (Hlt Hne). rename w' into w1.
  assert (He1 : extends w w1) by by apply consumed_extends.
  step_with curKind_spec H3. destruct H3 as [-> ->].
  case_bool_decide as Hk2; simpl.
  2:{ step_with reportAtCur_spec H4. destruct H4 as (Hp & Ho & Hs & Hc).
      apply returns_ret. split.
      - eapply extends_trans; [exact He1|]. by apply reported_extends.
      - split; [intros _; lia|]. intros _. left. lia. }
  step_with nextToken_spec H4. destruct H4 as (Hp2 & _ & Ho2 & Hs2).
  rename w' into w2.
  assert (He2 : extends w1 w2) by by apply consumed_extends.
  eapply returns_bind; [apply parseExpression_spec; lia|].
  cbv beta. intros r w3 [He3 Hf3].
  assert (He03 : extends w w3).
  { eapply extends_trans; [exact He1|]. by eapply extends_trans. }
  assert (Hlt3 : pending w3 < pending w).
  { destruct He3 as (? & _). lia. }
  destruct r as [rhsName|].
  2:{ step_with reportAtCur_spec H5. destruct H5 as (Hp & Ho & Hs & Hc).
      apply returns_ret. split.
      - eapply extends_trans; [exact He03|]. by apply reported_extends.
      - split; [|intros _; left; lia].
        intros _. destruct He03 as (_ & _ & ?). lia. }
  step_with curKind_spec H5. destruct H5 as [-> ->].
  case_bool_decide as Hk3; simpl.
  2:{ step_with reportAtCur_spec H6. destruct H6 as (Hp & Ho & Hs & Hc).
      apply returns_ret. split.
      - eapply extends_trans; [exact He03|]. by apply reported_extends.
      - split; [|intros _; left; lia].
        intros _. destruct He03 as (_ & _ & ?). lia. }
  step_with nextToken_spec H6. destruct H6 as (Hp4 & _ & Ho4 & Hs4).
  step_with (onSym_spec (declare (lexeme (cur w)) (tk_line (cur w)))) H7.
  { intros s. apply declare_syntaxCount. }
  step_with push_back_spec H8. destruct H8 as (Hp8 & Ho8 & Hs8 & _).
  step_with (onSym_spec (markUsed (lexeme (cur w)))) H9.
  { intros s. apply markUsed_syntaxCount. }
  apply returns_ret.
  assert (He : extends w3 w'2).
  { eapply extends_trans; [by apply consumed_extends|].
    eapply extends_trans; [by apply silent_extends|].
    eapply extends_trans; [by eapply emitted_extends|].
    by apply silent_extends. }
  split; [by eapply extends_trans|]. split; [done|].
  intros _. left. destruct He as (? & _). lia.
Qed.

Lemma skip_loop_spec fuel : ∀ w,
  pending w < fuel →
  returns (skip_loop fuel) w
    (fun _ w' =>
       pending w' ≤ pending w ∧ out w' = out w ∧
       syntaxCount (handler w') = syntaxCount (handler w) ∧
       (tk_kind (cur w) ≠ TokenKind.END_OF_FILE →
        pending w' < pending w ∨ tk_kind (cur w') = TokenKind.SEMICOLON) ∧
       (tk_kind (cur w') = TokenKind.SEMICOLON ∨
        tk_kind (cur w') = TokenKind.END_OF_FILE) ∧
       (∀ w'', (if bool_decide (tk_kind (cur w') = TokenKind.SEMICOLON)
                then advance else ret tt) w' = Some (tt, w'') →
               skipped w w'')).
Proof.
  induction fuel as [|fuel IH]; intros w Hfuel; [lia|].
  simpl.
  step_with curKind_spec H0. destruct H0 as [-> ->].
  destruct (decide (tk_kind (cur w) = TokenKind.SEMICOLON)) as [Hs|Hs];
    [|destruct (decide (tk_kind (cur w) = TokenKind.END_OF_FILE)) as [He|He]].
  - rewrite (bool_decide_eq_true_2 _ Hs). simpl.
    apply returns_ret. split; [done|]. split; [done|]. split; [done|].
    split; [by right|]. split; [by left|].
    intros w''. rewrite (bool_decide_eq_true_2 _ Hs).
    intros Ha. by eapply skipped_terminator.
  - rewrite (bool_decide_eq_false_2 _ Hs), (bool_decide_eq_true_2 _ He). simpl.
    apply returns_ret. split; [done|]. split; [done|]. split; [done|].
    split; [done|]. split; [by right|].
    intros w''. rewrite (bool_decide_eq_false_2 _ Hs).
    intros [= <-]. by apply skipped_end.
  - rewrite (bool_decide_eq_false_2 _ Hs), (bool_decide_eq_false_2 _ He). simpl.
    destruct (advance_spec w) as ([] & w1 & Ha & Hp1 & Hlt & Ho1 & Hs1).
    specialize (Hlt He).
    apply (returns_bind_eq _ _ _ _ _ _ Ha).
    eapply returns_weaken; [apply IH; lia|].
    cbv beta. intros [] w2 (Hp2 & Ho2 & Hs2 & _ & Hend & Hsk).
    split; [lia|]. split; [congruence|]. split; [congruence|].
    split; [intros; left; lia|]. split; [done|].
    intros w'' Hfin. eapply skipped_token; eauto.
Qed.

Lemma recover_spec fuel w :
  pending w < fuel →
  returns (recover fuel) w
    (fun _ w' =>
       pending w' ≤ pending w ∧
       (tk_kind (cur w) ≠ TokenKind.END_OF_FILE → pending w' < pending w) ∧
       out w' = out w ∧
       syntaxCount (handler w') = S (syntaxCount (handler w)) ∧
       ∃ w0, reportAtCur ErrorPhase.SYNTAX skippingMessage w = Some (tt, w0) ∧
             skipped w0 w').
Proof.
  intros Hfuel. unfold recover. fold skippingMessage.
  destruct (reportAtCur_spec skippingMessage w)
    as ([] & w0 & Hr & Hp0 & Ho0 & Hs0 & Hc0).
  apply (returns_bind_eq _ _ _ _ _ _ Hr).
  eapply returns_bind; [apply skip_loop_spec; lia|].
  cbv beta. intros [] w1 (Hp1 & Ho1 & Hs1 & Hlt1 & Hend & Hsk).
  step_with curKind_spec H2. destruct H2 as [-> ->].
  destruct (decide (tk_kind (cur w1) = TokenKind.SEMICOLON)) as [Hsemi|Hsemi].
  - rewrite (bool_decide_eq_true_2 _ Hsemi) in *.
    destruct (advance_spec w1) as ([] & w2 & Ha & Hp2 & Hlt2 & Ho2 & Hs2).
    exists tt, w2. split; [exact Ha|].
    assert (Hne : tk_kind (cur w1) ≠ TokenKind.END_OF_FILE) by congruence.
    specialize (Hlt2 Hne).
    split; [lia|]. split; [intros; lia|]. split; [congruence|].
    split; [congruence|]. exists w0. split; [done|]. by apply Hsk.
  - rewrite (bool_decide_eq_false_2 _ Hsemi) in *.
    apply returns_ret.
    split; [lia|]. split.
    { intros Hne. rewrite <- Hc0 in Hne.
      destruct (Hlt1 Hne) as [?|?]; [lia|done]. }
    split; [congruence|]. split; [congruence|].
    exists w0. split; [done|]. by apply Hsk.
Qed.

Lemma parseProgram_spec fuel : ∀ w,
  pending w + 1 < fuel →
  returns (parseProgram fuel) w
    (fun ok w' => ok = true ∧ extends w w' ∧
                  tk_kind (cur w') = TokenKind.END_OF_FILE).
Proof.
  induction fuel as [|fuel IH]; intros w Hfuel; [lia|].
  simpl.
  step_with curKind_spec H0. destruct H0 as [-> ->].
  destruct (decide (tk_kind (cur w) = TokenKind.END_OF_FILE)) as [He|He].
  { rewrite (bool_decide_eq_true_2 _ He). simpl.
    apply returns_ret. split; [done|]. split; [apply extends_refl|done]. }
  rewrite (bool_decide_eq_false_2 _ He). simpl.
  eapply returns_bind; [apply parseStatement_spec; lia|].
  cbv beta. intros ok w1 (He1 & Hf1 & Hpr1). specialize (Hpr1 He).
  destruct ok.
  - apply (returns_bind_eq _ _ _ tt w1 _ eq_refl).
    assert (Hlt : pending w1 < pending w).
    { by destruct Hpr1 as [?|[? _]]. }
    eapply returns_weaken; [apply IH; lia|].
    cbv beta. intros ok w2 (-> & He2 & Hend).
    split; [done|]. split; [by eapply extends_trans|done].
  - eapply returns_bind.
    { apply recover_spec. destruct He1 as (? & _). lia. }
    cbv beta. intros [] w2 (Hp2 & Hlt2 & Ho2 & Hs2 & _).
    assert (Hlt : pending w2 < pending w).
    { destruct He1 as (? & _).
      destruct Hpr1 as [?|[_ Hc]]; [lia|]. specialize (Hlt2 Hc). lia. }
    eapply returns_weaken; [apply IH; lia|].
    cbv beta. intros ok w3 (-> & He3 & Hend).
    split; [done|]. split; [|done].
    eapply extends_trans; [exact He1|].
    eapply extends_trans; [|exact He3].
    unfold extends. rewrite Ho2, Hs2. split; [done|]. split; [done|lia].
Qed.


Lemma startOn_pending attached source :
  pending (startOn attached source) ≤ String.length source.
Proof.
  unfold startOn, newTACGenerator.
  pose proof (getNextToken_spec
    (Lex.setSource source (Lex.newLexer attached))
    (newSymbolTable, newErrorHandler)) as [Hr _].
  destruct (Lex.getNextToken _ _) as [[t lx] [st h]]. simpl in Hr.
  unfold pending. simpl.
  unfold Lex.remaining at 2 in Hr. simpl in Hr. lia.
Qed.

Lemma run_total attached source :
  ∃ w, run attached source = Some (true, w) ∧
       tk_kind (cur w) = TokenKind.END_OF_FILE.
Proof.
  pose proof (startOn_pending attached source) as Hp.
  destruct (parseProgram_spec (String.length source + 2)
              (startOn attached source) ltac:(lia))
    as (ok & w & Hrun & -> & _ & Hend).
  by exists w.
Qed.



(** ** Dead-code eliminator *)

Import DeadCodeEliminator.

Lemma is_empty_true s : is_empty s = true ↔ s = "".
Proof. destruct s; simpl; split; congruence. Qed.

Lemma is_empty_false s : is_empty s = false ↔ s ≠ "".
Proof. destruct s; simpl; split; congruence. Qed.

Lemma usesOf_nonempty i u : u ∈ usesOf i → u ≠ "".
Proof.
  unfold usesOf.
  destruct (op i); simpl;
    destruct (is_empty (arg1 i)) eqn:E1; simpl;
    try destruct (is_empty (arg2 i)) eqn:E2; simpl;
    rewrite ?elem_of_cons, ?elem_of_nil;
    rewrite ?is_empty_false in *; intuition congruence.
Qed.

Lemma reads_usesOf i : DCESpec.reads i = usesOf i.
Proof.
  unfold DCESpec.reads, usesOf.
  destruct (op i); try reflexivity;
    destruct (arg1 i) as [|c1 s1]; try destruct (arg2 i) as [|c2 s2];
    reflexivity.
Qed.

Lemma addUses_union i (live : gset string) :
  addUses i live = live ∪ list_to_set (usesOf i).
Proof.
  unfold addUses.
  assert (H : ∀ u, u ∈ usesOf i → u ≠ "") by apply usesOf_nonempty.
  revert live H. induction (usesOf i) as [|u us IH]; intros live H; simpl.
  - set_solver.
  - assert (Hu : is_empty u = false).
    { apply is_empty_false, H. left. }
    rewrite Hu. simpl. rewrite IH.
    + set_solver.
    + intros v Hv. apply H. by right.
Qed.

Lemma declared_elem tac d :
  d ∈ declared tac ↔ d ∈ (dest <$> tac) ∧ declarable d.
Proof.
  unfold declared.
  assert (G : ∀ (acc : gset string),
    d ∈ fold_left
      (fun (acc : gset string) inst =>
         if negb (is_empty (dest inst)) && negb (starts_with_t (dest inst))
         then {[dest inst]} ∪ acc else acc) tac acc
    ↔ d ∈ acc ∨ (d ∈ (dest <$> tac) ∧ declarable d)).
  { induction tac as [|x tac IH]; intros acc; simpl.
    - rewrite elem_of_nil. tauto.
    - rewrite IH, elem_of_cons. unfold declarable.
      destruct (is_empty (dest x)) eqn:E; simpl.
      + apply is_empty_true in E. intuition congruence.
      + apply is_empty_false in E.
        destruct (starts_with_t (dest x)) eqn:T; simpl.
        * intuition congruence.
        * rewrite elem_of_union, elem_of_singleton. intuition congruence. }
  rewrite G. set_solver.
Qed.

Lemma unusedSet_elem sym n :
  n ∈ unusedSet sym ↔ n ∈ DCESpec.unusedNames sym.
Proof.
  unfold unusedSet, DCESpec.unusedNames.
  assert (G : ∀ (l : list SymbolEntry) (acc : gset string),
    n ∈ fold_left (fun (acc : gset string) e => {[name e]} ∪ acc) l acc
    ↔ n ∈ acc ∨ n ∈ (name <$> l)).
  { induction l as [|e l IH]; intros acc; simpl.
    - rewrite elem_of_nil. tauto.
    - rewrite IH, elem_of_cons, elem_of_union, elem_of_singleton. tauto. }
  rewrite G. set_solver.
Qed.

Lemma initialLive_seed tac sym : initialLive tac sym = liveSeed tac sym.
Proof.
  apply set_eq. intros d.
  unfold initialLive, liveSeed, set_fold. simpl.
  rewrite elem_of_list_to_set, list_elem_of_filter.
  assert (G : ∀ l : list string,
    d ∈ foldr (fun n (live : gset string) =>
                 if bool_decide (n ∈ unusedSet sym) then live
                 else {[n]} ∪ live) ∅ l
    ↔ d ∈ l ∧ d ∉ unusedSet sym).
  { induction l as [|n l IH]; simpl.
    - rewrite elem_of_nil. set_solver.
    - rewrite elem_of_cons. case_bool_decide as Hn.
      + rewrite IH. intuition congruence.
      + rewrite elem_of_union, elem_of_singleton, IH. intuition congruence. }
  rewrite G, elem_of_elements, declared_elem, unusedSet_elem. tauto.
Qed.

Lemma seed_nonempty tac sym : "" ∉ liveSeed tac sym.
Proof.
  unfold liveSeed. rewrite elem_of_list_to_set, list_elem_of_filter.
  unfold declarable. intros [[[H _] _] _]. by apply H.
Qed.

Lemma flags_shift n (ks : list bool) :
  false :: replicate n false ++ ks = replicate n false ++ false :: ks.
Proof. induction n as [|n IH]; simpl; congruence. Qed.

Lemma flags_set n (ks : list bool) :
  <[n:=true]> (replicate n false ++ false :: ks)
  = replicate n false ++ true :: ks.
Proof. induction n as [|n IH]; simpl; congruence. Qed.

Lemma needed_live x (live : gset string) :
  "" ∉ live → needed x live = bool_decide (dest x ∈ live).
Proof.
  intros H0. unfold needed.
  destruct (is_empty (dest x)) eqn:E; simpl; [|done].
  apply is_empty_true in E. rewrite E. by rewrite bool_decide_eq_false_2.
Qed.

Lemma reconstruct_elem l ks x : x ∈ reconstruct l ks → x ∈ l.
Proof.
  revert ks. induction l as [|y r IH]; intros ks; simpl.
  - by destruct ks.
  - destruct ks as [|[] ks]; rewrite ?elem_of_cons, ?elem_of_nil;
      [tauto| |]; intros H.
    + destruct H as [?|H]; [by left|]. right. by eapply IH.
    + right. by eapply IH.
Qed.

Lemma reconstruct_all l : reconstruct l (replicate (length l) true) = l.
Proof. induction l as [|x r IH]; simpl; congruence. Qed.

(** *** The traversal from a fixed initial live set *)

Section Scan.

Context (live0 : gset string).

(** The index loop, run over a prefix whose suffix has been visited,
    agrees with [scan]. *)
Lemma backward_scan pre suf :
  backward (pre ++ suf) (length pre)
    (fst (scan suf live0),
     replicate (length pre) false ++ snd (scan suf live0))
  = (fst (scan (pre ++ suf) live0), snd (scan (pre ++ suf) live0)).
Proof.
  revert suf. induction pre as [|x pre IH] using rev_ind; intros suf.
  - simpl. reflexivity.
  - rewrite length_app. simpl. rewrite Nat.add_1_r. simpl.
    rewrite <- (assoc_L (++)). simpl.
    unfold visit.
    rewrite list_lookup_middle by reflexivity.
    specialize (IH (x :: suf)). simpl in IH.
    destruct (scan suf live0) as [live ks] eqn:Es. simpl.
    rewrite flags_shift.
    destruct (needed x live) eqn:En.
    + rewrite addUses_union, flags_set. exact IH.
    + exact IH.
Qed.

Lemma scan_mono l : live0 ⊆ fst (scan l live0).
Proof.
  induction l as [|x r IH]; simpl; [done|].
  destruct (scan r live0) as [live ks]. simpl in IH.
  destruct (needed x live); simpl; set_solver.
Qed.

Lemma scan_nonempty l :
  "" ∉ live0 → "" ∉ fst (scan l live0).
Proof.
  intros H0. induction l as [|x r IH]; simpl; [done|].
  destruct (scan r live0) as [live ks]. simpl in IH.
  destruct (needed x live); simpl; [|done].
  rewrite elem_of_union, elem_of_list_to_set.
  intros [?|Hu]; [done|]. by apply usesOf_nonempty in Hu.
Qed.

(** The specification's last-to-first fold agrees with [scan]. *)
Lemma spec_fold l :
  "" ∉ live0 →
  fold_left DCESpec.step (reverse l) (live0, [])
  = (fst (scan l live0), reconstruct l (snd (scan l live0))).
Proof.
  intros H0. induction l as [|x r IH]; [done|].
  rewrite reverse_cons, fold_left_app, IH. simpl.
  pose proof (scan_nonempty r H0) as Hr.
  destruct (scan r live0) as [live ks]. simpl in *.
  rewrite (needed_live x live Hr), reads_usesOf.
  by case_bool_decide.
Qed.

(** The live set reached after a whole traversal. *)
Lemma scan_live l d :
  d ∈ fst (scan l live0) ↔
  d ∈ live0 ∨ ∃ j u, l !! j = Some u ∧ snd (scan l live0) !! j = Some true
                     ∧ d ∈ usesOf u.
Proof.
  induction l as [|x r IH]; simpl.
  - split; [by left|]. intros [?|(j & u & Hj & _)]; [done|].
    by rewrite lookup_nil in Hj.
  - destruct (scan r live0) as [live ks]. simpl in IH.
    destruct (needed x live) eqn:En; simpl.
    + rewrite elem_of_union, elem_of_list_to_set, IH. split.
      * intros [[?|(j & u & Hj & Hk & Hu)]|Hx].
        -- by left.
        -- right. by exists (S j), u.
        -- right. by exists 0, x.
      * intros [?|(j & u & Hj & Hk & Hu)]; [by left; left|].
        destruct j as [|j]; simpl in *.
        -- right. congruence.
        -- left. right. by exists j, u.
    + rewrite IH. split.
      * intros [?|(j & u & Hj & Hk & Hu)]; [by left|].
        right. by exists (S j), u.
      * intros [?|(j & u & Hj & Hk & Hu)]; [by left|].
        destruct j as [|j]; simpl in *; [congruence|].
        right. by exists j, u.
Qed.

(** When exactly the instruction at index [i] is retained. *)
Lemma scan_flag l i a :
  l !! i = Some a →
  snd (scan l live0) !! i = Some true ↔
  dest a ≠ "" ∧
  (dest a ∈ live0 ∨
   ∃ j u, i < j ∧ l !! j = Some u ∧ snd (scan l live0) !! j = Some true
          ∧ dest a ∈ usesOf u).
Proof.
  revert i. induction l as [|x r IH]; intros i Hi; [by rewrite lookup_nil in Hi|].
  simpl. pose proof (scan_live r (dest a)) as Hl.
  destruct (scan r live0) as [live ks] eqn:Es. simpl in *.
  destruct i as [|i]; simpl in Hi.
  - inversion Hi; subst x. clear Hi.
    assert (Hn : needed a live = true ↔ dest a ≠ "" ∧ dest a ∈ live).
    { unfold needed. rewrite andb_true_iff, negb_true_iff, is_empty_false,
        bool_decide_eq_true. tauto. }
    assert (Hs : (∃ j u, r !! j = Some u ∧ ks !! j = Some true
                         ∧ dest a ∈ usesOf u) ↔
                 ∃ j u, 0 < j ∧ (a :: r) !! j = Some u ∧
                   (if needed a live
                    then (live ∪ list_to_set (usesOf a), true :: ks)
                    else (live, false :: ks)).2 !! j = Some true
                   ∧ dest a ∈ usesOf u).
    { split.
      - intros (j & u & ? & ? & ?). exists (S j), u.
        split; [lia|]. by destruct (needed a live).
      - intros (j & u & Hj & ? & Hk & ?). destruct j as [|j]; [lia|].
        exists j, u. by destruct (needed a live). }
    rewrite <- Hs, <- Hl, <- Hn.
    destruct (needed a live); simpl; split; congruence.
  - specialize (IH i Hi).
    assert (Hs : (∃ j u, i < j ∧ r !! j = Some u ∧ ks !! j = Some true
                         ∧ dest a ∈ usesOf u) ↔
                 ∃ j u, S i < j ∧ (x :: r) !! j = Some u ∧
                   (if needed x live
                    then (live ∪ list_to_set (usesOf x), true :: ks)
                    else (live, false :: ks)).2 !! j = Some true
                   ∧ dest a ∈ usesOf u).
    { split.
      - intros (j & u & ? & ? & ? & ?). exists (S j), u.
        split; [lia|]. by destruct (needed x live).
      - intros (j & u & Hj & ? & Hk & ?). destruct j as [|j]; [lia|].
        exists j, u. split; [lia|]. by destruct (needed x live). }
    rewrite <- Hs, <- IH. by destruct (needed x live).
Qed.

(** An instruction whose destination is live from the start is kept. *)
Lemma seeded_kept l x :
  x ∈ l → dest x ≠ "" → dest x ∈ live0 →
  x ∈ reconstruct l (snd (scan l live0)).
Proof.
  intros Hx Hne Hd. induction l as [|y r IH]; [by apply elem_of_nil in Hx|].
  simpl. pose proof (scan_mono r) as Hm.
  destruct (scan r live0) as [live ks]. simpl in *.
  apply elem_of_cons in Hx as [->|Hx].
  - assert (needed y live = true) as ->.
    { unfold needed. rewrite andb_true_iff, negb_true_iff, is_empty_false,
        bool_decide_eq_true. split; [done|]. by apply Hm. }
    simpl. by left.
  - destruct (needed y live); simpl; [right|]; by apply IH.
Qed.

(** Visiting the kept instructions alone keeps them all. *)
Lemma scan_kept l :
  scan (reconstruct l (snd (scan l live0))) live0
  = (fst (scan l live0),
     replicate (length (reconstruct l (snd (scan l live0)))) true).
Proof.
  induction l as [|x r IH]; [done|].
  simpl. destruct (scan r live0) as [live ks]. simpl in *.
  destruct (needed x live) eqn:En; simpl; [|done].
  rewrite IH. simpl. by rewrite En.
Qed.

End Scan.

Lemma keepFlags_scan tac sym :
  keepFlags tac sym = snd (scan tac (liveSeed tac sym)).
Proof.
  unfold keepFlags. rewrite initialLive_seed.
  pose proof (backward_scan (liveSeed tac sym) tac []) as H.
  rewrite app_nil_r in H. simpl in H. rewrite app_nil_r in H.
  rewrite H. reflexivity.
Qed.

Lemma eliminate_scan tac sym :
  eliminate tac sym = reconstruct tac (snd (scan tac (liveSeed tac sym))).
Proof. unfold eliminate. by rewrite keepFlags_scan. Qed.

Lemma seed_kept tac sym :
  liveSeed (eliminate tac sym) sym = liveSeed tac sym.
Proof.
  apply set_eq. intros d. unfold liveSeed.
  rewrite !elem_of_list_to_set, !list_elem_of_filter, !list_elem_of_fmap.
  split; intros [Hp (x & -> & Hx)]; (split; [done|]); exists x; (split; [done|]).
  - rewrite eliminate_scan in Hx. by eapply reconstruct_elem.
  - rewrite eliminate_scan. apply seeded_kept; [done|apply Hp|].
    unfold liveSeed at 1.
    rewrite elem_of_list_to_set, list_elem_of_filter, list_elem_of_fmap.
    split; [done|]. by exists x.
Qed.

(** *** The seed of the specification and the seed of the code *)

Lemma temporary_starts_with_t d :
  DCESpec.temporary d → starts_with_t d = true.
Proof. by intros [n ->]. Qed.

(** What [newTemp] takes from its counter is a temporary. *)
Lemma newTemp_temporary w d w' :
  freeTemps w = [] → newTemp w = Some (d, w') → DCESpec.temporary d.
Proof.
  intros Hf H. unfold newTemp in H. rewrite Hf in H.
  injection H as <- _. by exists (tempCounter w).
Qed.

Lemma spec_seed_elem tac sym d :
  d ∈ DCESpec.seed tac sym ↔
  d ∈ (dest <$> tac) ∧ DCESpec.named d ∧ d ∉ DCESpec.unusedNames sym.
Proof.
  unfold DCESpec.seed. rewrite elem_of_list_to_set, list_elem_of_filter. tauto.
Qed.

Lemma liveSeed_elem tac sym d :
  d ∈ liveSeed tac sym ↔
  d ∈ (dest <$> tac) ∧ declarable d ∧ d ∉ DCESpec.unusedNames sym.
Proof.
  unfold liveSeed. rewrite elem_of_list_to_set, list_elem_of_filter. tauto.
Qed.

(** The code seeds the names the specification seeds, those that start
    with [t] left out. *)
Lemma liveSeed_spec tac sym d :
  d ∈ liveSeed tac sym ↔ d ∈ DCESpec.seed tac sym ∧ starts_with_t d = false.
Proof.
  rewrite liveSeed_elem, spec_seed_elem. unfold declarable, DCESpec.named.
  split.
  - intros (Hd & [Hne Ht] & Hu). repeat split; try done.
    intros Hm. apply temporary_starts_with_t in Hm. congruence.
  - intros ((Hd & [Hne _] & Hu) & Ht). done.
Qed.

Lemma spec_seed_nonempty tac sym : "" ∉ DCESpec.seed tac sym.
Proof. rewrite spec_seed_elem. intros (_ & [H _] & _). by apply H. Qed.

Lemma spec_eliminate_scan tac sym :
  DCESpec.eliminate tac sym
  = reconstruct tac (snd (scan tac (DCESpec.seed tac sym))).
Proof.
  unfold DCESpec.eliminate. by rewrite spec_fold by apply spec_seed_nonempty.
Qed.

(** The traversal and the reconstruction are those of the specification,
    started from the live set the code has built. *)
Lemma eliminate_fold tac sym :
  eliminate tac sym
  = snd (fold_left DCESpec.step (reverse tac) (initialLive tac sym, [])).
Proof.
  rewrite eliminate_scan, initialLive_seed.
  by rewrite spec_fold by apply seed_nonempty.
Qed.

(** On a sequence in which the only destinations that start with [t] are
    minted names, the code computes what the specification describes. *)
Lemma eliminate_refines_spec_on_minted tac sym :
  (∀ x, x ∈ tac → starts_with_t (dest x) = true →
        DCESpec.temporary (dest x)) →
  eliminate tac sym = DCESpec.eliminate tac sym.
Proof.
  intros Hm. rewrite eliminate_scan, spec_eliminate_scan.
  replace (DCESpec.seed tac sym) with (liveSeed tac sym); [done|].
  apply set_eq. intros d. rewrite liveSeed_spec. split; [tauto|].
  intros Hd. split; [done|].
  apply spec_seed_elem in Hd as (Hin & [_ Hn] & _).
  apply list_elem_of_fmap in Hin as (x & -> & Hx).
  destruct (starts_with_t (dest x)) eqn:Et; [|done].
  exfalso. by apply Hn, Hm.
Qed.

(** C2 on the code: [eliminate] scans the instructions and rebuilds the
    sequence as the specification says, but it does not seed the live set
    with every named destination that the unused-entries report does not
    list: of these it takes only the names that do not start with [t],
    whether [newTemp] minted them or the source text wrote them.  For
    [temp = 1.0;] the destination [temp] is not a temporary and the report
    does not list it; the steps of the specification keep both
    instructions, [eliminate] returns none. *)
Theorem eliminate_seed_misses_named :
  (∀ tac sym,
     DeadCodeEliminator.eliminate tac sym
     = snd (fold_left DCESpec.step (reverse tac)
              (DeadCodeEliminator.initialLive tac sym, []))) ∧
  (∀ tac sym d,
     d ∈ DeadCodeEliminator.initialLive tac sym ↔
     d ∈ DCESpec.seed tac sym ∧ starts_with_t d = false) ∧
  fst (compiled true "temp = 1.0;")
  = [ mkTacInst TACOp.LOAD_CONST "t0" "" "" "1.0";
      mkTacInst TACOp.ASSIGN "temp" "t0" "" "" ] ∧
  DCESpec.named "temp" ∧
  ("temp" ∉ DCESpec.unusedNames (snd (compiled true "temp = 1.0;"))) ∧
  DCESpec.eliminate
    (fst (compiled true "temp = 1.0;"))
    (snd (compiled true "temp = 1.0;"))
  = fst (compiled true "temp = 1.0;") ∧
  DeadCodeEliminator.eliminate
    (fst (compiled true "temp = 1.0;"))
    (snd (compiled true "temp = 1.0;"))
  = [].
Proof.
  split; [apply eliminate_fold|].
  split; [intros tac sym d; rewrite initialLive_seed; apply liveSeed_spec|].
  split; [vm_compute; reflexivity|].
  split.
  { apply (bool_decide_eq_true_1 (DCESpec.named "temp")).
    vm_compute. reflexivity. }
  split.
  { apply (bool_decide_eq_true_1
             ("temp" ∉ DCESpec.unusedNames (snd (compiled true "temp = 1.0;")))).
    vm_compute. reflexivity. }
  split; vm_compute; reflexivity.
Qed.

(** C8: elimination is idempotent for a fixed symbol table: running it on
    its own output changes nothing. *)
Theorem eliminate_idempotent tac sym :
  DeadCodeEliminator.eliminate (DeadCodeEliminator.eliminate tac sym) sym
  = DeadCodeEliminator.eliminate tac sym.
Proof.
  rewrite (eliminate_scan (eliminate tac sym)), seed_kept.
  rewrite eliminate_scan, scan_kept. simpl.
  apply reconstruct_all.
Qed.

(** C9: no iteration of the backward traversal removes a name from the
    live set, and liveness is therefore per name: when the instruction at
    index [j] is retained, every instruction at an earlier index [i] with
    the same destination is retained as well, whatever lies between. *)
Theorem liveness_is_per_name tac sym i j a b :
  i < j → tac !! i = Some a → tac !! j = Some b → dest a = dest b →
  DeadCodeEliminator.keepFlags tac sym !! j = Some true →
  (∀ k st, fst st ⊆ fst (DeadCodeEliminator.visit tac k st)) ∧
  DeadCodeEliminator.keepFlags tac sym !! i = Some true.
Proof.
  intros Hij Ha Hb Hd Hj. split.
  - intros k [live keep]. unfold visit. simpl.
    destruct (tac !! k) as [inst|]; [|done].
    destruct (needed inst live); [|done].
    simpl. rewrite addUses_union. set_solver.
  - revert Hj. rewrite keepFlags_scan.
    rewrite (scan_flag _ _ _ _ Ha), (scan_flag _ _ _ _ Hb), Hd.
    intros [Hne [H0|(k & u & Hjk & Hk & Hf & Hu)]]; (split; [done|]).
    + by left.
    + right. exists k, u. split; [lia|done].
Qed.

(** The program [x = 1.0; x = 2.0;]: the first assignment to [x] is
    shadowed by the second before anything reads it, and is kept. *)
Lemma liveness_is_per_name_witness :
  (∀ k st, fst st ⊆ fst (DeadCodeEliminator.visit
                           (fst (compiled true "x = 1.0; x = 2.0;")) k st)) ∧
  DeadCodeEliminator.keepFlags
    (fst (compiled true "x = 1.0; x = 2.0;"))
    (snd (compiled true "x = 1.0; x = 2.0;")) !! 1 = Some true.
Proof.
  apply (liveness_is_per_name
           (fst (compiled true "x = 1.0; x = 2.0;"))
           (snd (compiled true "x = 1.0; x = 2.0;"))
           1 3
           (mkTacInst TACOp.ASSIGN "x" "t0" "" "")
           (mkTacInst TACOp.ASSIGN "x" "t1" "" "")).
  - lia.
  - vm_compute. reflexivity.
  - vm_compute. reflexivity.
  - reflexivity.
  - vm_compute. reflexivity.
Defined.

Lemma starts_with_t_nonempty d : starts_with_t d = true → d ≠ "".
Proof. by destruct d. Qed.

(** C10: a destination is a temporary for the eliminator as soon as its
    name starts with [t]: such a name is never in the initial live set,
    whatever the symbol table says about it, so an instruction that
    defines it is retained exactly when a retained later instruction
    reads the name. *)
Theorem temporaries_by_first_letter tac sym d :
  starts_with_t d = true →
  (d ∉ DeadCodeEliminator.initialLive tac sym) ∧
  (∀ i inst, tac !! i = Some inst → dest inst = d →
     (DeadCodeEliminator.keepFlags tac sym !! i = Some true ↔
      ∃ j u, i < j ∧ tac !! j = Some u ∧
             DeadCodeEliminator.keepFlags tac sym !! j = Some true ∧
             d ∈ usesOf u)).
Proof.
  intros Ht.
  assert (Hseed : d ∉ liveSeed tac sym).
  { unfold liveSeed.
    rewrite elem_of_list_to_set, list_elem_of_filter. unfold declarable.
    intros [[[_ Hf] _] _]. congruence. }
  split; [by rewrite initialLive_seed|].
  intros i inst Hi Hd. rewrite keepFlags_scan, (scan_flag _ _ _ _ Hi), Hd.
  split.
  - by intros [_ [?|?]].
  - intros H. split; [by apply starts_with_t_nonempty|by right].
Qed.

(** The program [temp = 1.0;]: [temp] is a user variable that the table
    records as used, yet it is not seeded and both instructions go. *)
Lemma temporaries_by_first_letter_witness :
  (∃ e, entriesFor "temp" (snd (compiled true "temp = 1.0;")) = [e] ∧
        is_used e = true ∧ kind e = "variable") ∧
  ("temp" ∉ DeadCodeEliminator.initialLive
              (fst (compiled true "temp = 1.0;"))
              (snd (compiled true "temp = 1.0;"))) ∧
  DeadCodeEliminator.eliminate
    (fst (compiled true "temp = 1.0;"))
    (snd (compiled true "temp = 1.0;")) = [].
Proof.
  split; [eexists; vm_compute; done|].
  split.
  - apply (temporaries_by_first_letter
             (fst (compiled true "temp = 1.0;"))
             (snd (compiled true "temp = 1.0;")) "temp").
    reflexivity.
  - vm_compute. reflexivity.
Defined.

(** ** Concrete programs *)

Lemma newTemp_reuses w t rest :
  freeTemps w = t :: rest →
  ∃ w', newTemp w = Some (t, w') ∧ freeTemps w' = rest ∧
        tempCounter w' = tempCounter w.
Proof. intros H. unfold newTemp. rewrite H. by eexists. Qed.

Lemma newTemp_mints w :
  freeTemps w = [] →
  ∃ w', newTemp w
        = Some (("t" ++ to_string (Z.of_nat (tempCounter w)))%string, w') ∧
        freeTemps w' = [] ∧ tempCounter w' = S (tempCounter w).
Proof. intros H. unfold newTemp. rewrite H. by eexists. Qed.

Lemma lookup_after_dummy k n d fs :
  fs ≠ [] → 0 < k →
  (∀ i m, i < k → fs !! i = Some m → m !! n = None) →
  lookup_from k n (alter (fun m : gmap string SymbolEntry => <[n:=d]> m) 0 fs)
  = Some (0, d).
Proof.
  intros Hne. induction k as [|k IH]; intros Hk Hnone; [lia|].
  simpl. destruct k as [|k].
  - rewrite list_lookup_alter_eq. destruct fs as [|f fs]; [done|]. simpl.
    by rewrite lookup_insert_eq.
  - rewrite list_lookup_alter_ne by lia.
    destruct (fs !! S k) as [m|] eqn:Em.
    + rewrite (Hnone (S k) m) by (done || lia).
      apply IH; [lia|]. intros i m' Hi. apply Hnone. lia.
    + apply IH; [lia|]. intros i m' Hi. apply Hnone. lia.
Qed.

Lemma lookup_from_None k n fs :
  lookup_from k n fs = None →
  ∀ i m, i < k → fs !! i = Some m → m !! n = None.
Proof.
  induction k as [|k IH]; intros H i m Hi Hm; [lia|].
  simpl in H. destruct (decide (i = k)) as [->|Hik].
  - rewrite Hm in H. by destruct (m !! n).
  - apply (IH ltac:(destruct (fs !! k) as [m'|];
                    [by destruct (m' !! n)|done]) i m); [lia|done].
Qed.

Lemma markUsed_unbound n st h :
  lookup n st = None → scopes st ≠ [] →
  ∃ st' h',
    markUsed n (st, h) = (st', h') ∧
    errors h' = errors h ++
      [mkCompilerError ErrorPhase.SEMANTIC Severity.ERROR
         (undeclaredMessage n) (-1) (-1) true] ∧
    lookup n st' = Some (0, usedDummy n) ∧
    snd (markUsed n (st', h')) = h'.
Proof.
  intros Hl Hne. unfold markUsed. rewrite Hl.
  eexists _, _. split; [reflexivity|]. split; [reflexivity|].
  assert (Hk : lookup n (store 0 n (usedDummy n) st) = Some (0, usedDummy n)).
  { unfold lookup, store. simpl. rewrite length_alter.
    apply lookup_after_dummy; [done| |by apply lookup_from_None].
    destruct (scopes st); simpl; [done|lia]. }
  split; [exact Hk|].
  fold (usedDummy n). by rewrite Hk.
Qed.

(** C1: for [x = 1.5 + 2.0;] the generator emits exactly four
    instructions: the literal [1.5] loaded into the first temporary, the
    literal [2.0] loaded into the second, their sum put into the third,
    and the third assigned to [x]. *)
Theorem tac_of_sum attached :
  ∃ w, run attached "x = 1.5 + 2.0;" = Some (true, w) ∧
       out w = [ mkTacInst TACOp.LOAD_CONST "t0" "" "" "1.5";
                 mkTacInst TACOp.LOAD_CONST "t1" "" "" "2.0";
                 mkTacInst TACOp.ADD "t2" "t0" "t1" "";
                 mkTacInst TACOp.ASSIGN "x" "t2" "" "" ].
Proof. destruct attached; eexists; split; vm_compute; reflexivity. Qed.

(** C3 on the code: an operand is pushed onto the reclaim pool whenever
    its name starts with [t].  In [x = tau + 1.0;] the user variable
    [tau] ends up in the pool, and in the next statement [newTemp] hands
    it out as the destination of a LoadConstant. *)
Theorem user_name_reclaimed :
  (∀ x w, ∃ w', release x w = Some (tt, w') ∧
     freeTemps w' = if starts_with_t x then x :: freeTemps w
                    else freeTemps w) ∧
  (∃ w, run true "x = tau + 1.0;" = Some (true, w) ∧
        freeTemps w = ["t0"; "tau"]) ∧
  (∃ w, run true "x = tau + 1.0; y = 2.0 + 3.0;" = Some (true, w) ∧
        out w !! 4 = Some (mkTacInst TACOp.LOAD_CONST "tau" "" "" "3.0")).
Proof.
  split; [|split].
  - intros x w. unfold release. destruct (starts_with_t x); by eexists.
  - eexists. split; vm_compute; reflexivity.
  - eexists. split; vm_compute; reflexivity.
Qed.

(** * Further properties *)

(** ** Symbol table: scopes, lookup and insertion *)

Lemma removelast_snoc {A} (l : list A) x : removelast (l ++ [x]) = l.
Proof. induction l as [|y l IH]; [done|]. simpl. rewrite IH. by destruct l. Qed.

(** X1: [endScope] undoes [beginScope]: the table is exactly what it was,
    and in between [currentScope] is one more.  On a table without any
    frame [endScope] does nothing and [currentScope] is -1. *)
Theorem endScope_beginScope st :
  endScope (beginScope st) = st ∧
  currentScope (beginScope st) = (currentScope st + 1)%Z ∧
  (scopes st = [] → endScope st = st ∧ currentScope st = (-1)%Z).
Proof.
  destruct st as [fs k]. unfold endScope, beginScope, currentScope. simpl.
  split; [by rewrite removelast_snoc|]. split.
  - rewrite length_app. simpl. lia.
  - by intros ->.
Qed.

Lemma entryAt_beginScope j n st :
  entryAt j n (beginScope st) = entryAt j n st.
Proof.
  unfold entryAt, beginScope. simpl.
  destruct (decide (j < length (scopes st))) as [Hlt|Hge].
  - by rewrite lookup_app_l.
  - rewrite (lookup_ge_None_2 (scopes st)) by lia.
    destruct (decide (j = length (scopes st))) as [->|Hne].
    + rewrite list_lookup_middle by done. apply lookup_empty.
    + rewrite lookup_ge_None_2; [done|]. rewrite length_app. simpl. lia.
Qed.

Lemma lookup_from_entryAt k n st :
  lookup_from k n (scopes st)
  = match k with
    | O => None
    | S i => match entryAt i n st with
             | Some e => Some (i, e)
             | None => lookup_from i n (scopes st)
             end
    end.
Proof.
  destruct k as [|i]; [done|]. simpl. unfold entryAt.
  destruct (scopes st !! i) as [m|]; [|done]. by destruct (m !! n).
Qed.

Lemma lookup_from_spec k n st i e :
  lookup_from k n (scopes st) = Some (i, e) ↔
  i < k ∧ entryAt i n st = Some e ∧ ∀ j, i < j → j < k → entryAt j n st = None.
Proof.
  induction k as [|k IH].
  - simpl. split; [done|]. intros [? _]. lia.
  - rewrite lookup_from_entryAt.
    destruct (entryAt k n st) as [e'|] eqn:Ek.
    + split.
      * intros [= <- <-]. split; [lia|]. split; [done|]. intros; lia.
      * intros (Hi & He & Hn).
        destruct (decide (i = k)) as [->|Hik]; [congruence|].
        rewrite (Hn k) in Ek by lia. done.
    + rewrite IH. split.
      * intros (Hi & He & Hn). split; [lia|]. split; [done|].
        intros j ? ?. destruct (decide (j = k)) as [->|]; [done|].
        apply Hn; lia.
      * intros (Hi & He & Hn).
        destruct (decide (i = k)) as [->|Hik]; [congruence|].
        split; [lia|]. split; [done|]. intros j ? ?. apply Hn; lia.
Qed.

Lemma lookup_from_none_spec k n st :
  lookup_from k n (scopes st) = None ↔ ∀ j, j < k → entryAt j n st = None.
Proof.
  induction k as [|k IH].
  - simpl. split; [intros; lia|done].
  - rewrite lookup_from_entryAt.
    destruct (entryAt k n st) as [e'|] eqn:Ek.
    + split; [done|]. intros H. rewrite H in Ek by lia. done.
    + rewrite IH. split.
      * intros H j ?. destruct (decide (j = k)) as [->|]; [done|].
        apply H; lia.
      * intros H j ?. apply H; lia.
Qed.

Lemma entryAt_out_of_range j n st :
  length (scopes st) ≤ j → entryAt j n st = None.
Proof. intros H. unfold entryAt. by rewrite lookup_ge_None_2. Qed.

Lemma lookup_frames n st :
  (∀ i e, lookup n st = Some (i, e) ↔
          entryAt i n st = Some e ∧ ∀ j, i < j → entryAt j n st = None) ∧
  (lookup n st = None ↔ ∀ j, entryAt j n st = None).
Proof.
  split.
  - intros i e. unfold lookup. rewrite lookup_from_spec. split.
    + intros (Hi & He & Hn). split; [done|]. intros j Hj.
      destruct (decide (j < length (scopes st))); [by apply Hn|].
      apply entryAt_out_of_range. lia.
    + intros (He & Hn). split; [|split; [done|by intros; apply Hn]].
      destruct (decide (i < length (scopes st))); [done|].
      rewrite entryAt_out_of_range in He by lia. done.
  - unfold lookup. rewrite lookup_from_none_spec. split.
    + intros H j. destruct (decide (j < length (scopes st))); [by apply H|].
      apply entryAt_out_of_range. lia.
    + intros H j _. apply H.
Qed.

(** X2: [lookup] finds the entry of the innermost frame that holds
    the name: it returns frame [i] and entry [e] exactly when frame [i]
    holds [e] under the name and no frame above [i] holds the name; it
    finds nothing exactly when no frame holds the name. *)
Theorem lookup_innermost n st :
  (∀ i e, lookup n st = Some (i, e) ↔
          entryAt i n st = Some e ∧ ∀ j, i < j → entryAt j n st = None) ∧
  (lookup n st = None ↔ ∀ j, entryAt j n st = None).
Proof. apply lookup_frames. Qed.

Lemma lookup_ext n st st' :
  (∀ j, entryAt j n st' = entryAt j n st) → lookup n st' = lookup n st.
Proof.
  intros H. destruct (lookup n st) as [[i e]|] eqn:E.
  - apply lookup_frames. apply lookup_frames in E as [He Hn].
    split; [by rewrite H|]. intros j Hj. rewrite H. by apply Hn.
  - apply lookup_frames. intros j. rewrite H.
    by apply (proj1 (proj2 (lookup_frames n st))).
Qed.

Lemma beginScope_fresh_frame n st :
  lookupLocal n (beginScope st) = None ∧
  lookup n (beginScope st) = lookup n st.
Proof.
  split.
  - unfold lookupLocal, backIndex, beginScope. simpl.
    rewrite length_app. simpl. rewrite Nat.add_1_r. simpl.
    rewrite list_lookup_middle by done. apply lookup_empty.
  - apply lookup_ext. intros j. apply entryAt_beginScope.
Qed.

Lemma insert_fresh_eq entry st h :
  scopes st ≠ [] → lookupLocal (name entry) st = None →
  insert entry (st, h)
  = (true,
     (store (backIndex st) (name entry) (stored entry st)
        (mkSymbolTable (scopes st)
           (nextMemoryIndex st +
            (if is_empty (memoryAddr entry) then 1 else 0))), h)).
Proof.
  intros Hne Hl. destruct (back_is_Some st Hne) as [tbl Ht].
  unfold insert, stored. unfold lookupLocal in Hl. rewrite Ht in *. rewrite Hl.
  simpl. destruct (is_empty (memoryAddr entry)); simpl.
  - by rewrite Nat.add_1_r.
  - rewrite Nat.add_0_r. by destruct st.
Qed.

Lemma backIndex_lt st : scopes st ≠ [] → backIndex st < length (scopes st).
Proof. unfold backIndex. destruct (scopes st); simpl; [done|lia]. Qed.

(** X3: inserting a name the current frame does not hold succeeds
    without any diagnostic; the name then resolves to the inserted entry
    in the current frame, with the scope level of that frame; an address
    given by the caller is kept and the address counter stays, a missing
    address is assigned from the counter, which goes up by one; no other
    name resolves differently and the number of frames is the same. *)
Theorem insert_fresh entry st h :
  scopes st ≠ [] → lookupLocal (name entry) st = None →
  ∃ st',
    insert entry (st, h) = (true, (st', h)) ∧
    lookup (name entry) st' = Some (backIndex st, stored entry st) ∧
    scopeLevel (stored entry st) = currentScope st ∧
    (memoryAddr entry ≠ "" →
       memoryAddr (stored entry st) = memoryAddr entry ∧
       nextMemoryIndex st' = nextMemoryIndex st) ∧
    (memoryAddr entry = "" →
       memoryAddr (stored entry st)
       = assignAddr (set_scopeLevel (currentScope st) entry)
           (nextMemoryIndex st) ∧
       nextMemoryIndex st' = S (nextMemoryIndex st)) ∧
    (∀ m, m ≠ name entry → lookup m st' = lookup m st) ∧
    length (scopes st') = length (scopes st).
Proof.
  intros Hne Hl. rewrite (insert_fresh_eq _ _ _ Hne Hl).
  eexists. split; [reflexivity|].
  set (st1 := mkSymbolTable (scopes st) _).
  assert (Hb : backIndex st1 = backIndex st) by done.
  split.
  { rewrite <- Hb at 2.
    assert (Hb' : backIndex (store (backIndex st) (name entry)
                    (stored entry st) st1) = backIndex st1).
    { unfold backIndex, store. simpl. by rewrite length_alter. }
    rewrite <- Hb'. apply lookup_local. rewrite <- Hb.
    rewrite lookupLocal_store by done. by rewrite decide_True. }
  split.
  { unfold stored. by destruct (is_empty _). }
  split.
  { intros Ha. unfold stored. simpl.
    destruct (memoryAddr entry) eqn:E; [done|]. simpl.
    split; [done|]. lia. }
  split.
  { intros Ha. unfold stored. simpl. rewrite Ha. simpl. split; [done|]. lia. }
  split.
  { intros m Hm. apply lookup_ext. intros j. rewrite entryAt_store.
    rewrite decide_False by naive_solver. done. }
  apply length_alter.
Qed.

Lemma insert_fresh_witness :
  ∃ st',
    insert (newSymbolEntry "x" "variable" "float" 7 3)
      (beginScope newSymbolTable, newErrorHandler)
    = (true, (st', newErrorHandler)) ∧
    lookup "x" st'
    = Some (1, set_memoryAddr "stk0"
                 (newSymbolEntry "x" "variable" "float" 1 3)).
Proof.
  destruct (insert_fresh (newSymbolEntry "x" "variable" "float" 7 3)
              (beginScope newSymbolTable) newErrorHandler
              ltac:(discriminate) eq_refl)
    as (st' & Hi & Hl & _).
  exists st'. split; [exact Hi|exact Hl].
Defined.

Lemma insert_into_new_scope entry st h :
  fst (insert entry (beginScope st, h)) = true ∧
  snd (snd (insert entry (beginScope st, h))) = h ∧
  scopes (fst (snd (insert entry (beginScope st, h))))
  = scopes st ++ [{[name entry := stored entry (beginScope st)]}].
Proof.
  assert (Hne : scopes (beginScope st) ≠ []).
  { unfold beginScope. simpl. by destruct (scopes st). }
  rewrite (insert_fresh_eq _ _ _ Hne
             (proj1 (beginScope_fresh_frame (name entry) st))).
  simpl. split; [done|]. split; [done|].
  unfold backIndex, beginScope. simpl. rewrite length_app. simpl.
  rewrite Nat.add_1_r. simpl.
  rewrite alter_app_r_alt by lia.
  rewrite Nat.sub_diag. simpl. by rewrite insert_empty.
Qed.

(** X4: what is declared inside a scope is gone when the scope
    ends: after [beginScope], an [insert] (which always succeeds there,
    silently) and [endScope], the frames and every lookup are those of
    the start; the address counter is not wound back. *)
Theorem scope_discards_its_entries entry st h :
  let r := insert entry (beginScope st, h) in
  fst r = true ∧ snd (snd r) = h ∧
  scopes (endScope (fst (snd r))) = scopes st ∧
  (∀ n, lookup n (endScope (fst (snd r))) = lookup n st) ∧
  nextMemoryIndex st ≤ nextMemoryIndex (endScope (fst (snd r))).
Proof.
  intros r. subst r.
  destruct (insert_into_new_scope entry st h) as (Hok & Hh & Hs).
  assert (Hsc : scopes (endScope (fst (snd (insert entry (beginScope st, h)))))
                = scopes st).
  { unfold endScope. cbn [scopes]. rewrite Hs. apply removelast_snoc. }
  split; [done|]. split; [done|]. split; [done|]. split.
  - intros n. unfold lookup. by rewrite Hsc.
  - assert (Hne : scopes (beginScope st) ≠ []).
    { unfold beginScope. simpl. by destruct (scopes st). }
    rewrite (insert_fresh_eq _ _ _ Hne
               (proj1 (beginScope_fresh_frame (name entry) st))).
    simpl. lia.
Qed.

(** ** Symbol table: usage marks, placeholders, updates *)

Lemma store_length i n e st :
  length (scopes (store i n e st)) = length (scopes st).
Proof. apply length_alter. Qed.

Lemma store_nonempty i n e st :
  scopes st ≠ [] → scopes (store i n e st) ≠ [].
Proof.
  intros H E. apply (f_equal length) in E. rewrite store_length in E.
  by destruct (scopes st).
Qed.

Lemma lookup_store_same i n e e' st :
  lookup n st = Some (i, e) → lookup n (store i n e' st) = Some (i, e').
Proof.
  intros H. apply lookup_frames in H as [He Hn].
  apply lookup_frames. split.
  - rewrite entryAt_store. rewrite decide_True; [done|].
    split; [done|]. split; [done|].
    destruct (decide (i < length (scopes st))); [done|].
    rewrite entryAt_out_of_range in He by lia. done.
  - intros j Hj. rewrite entryAt_store. rewrite decide_False by lia.
    by apply Hn.
Qed.

Lemma lookup_store_other i n e st m :
  m ≠ n → lookup m (store i n e st) = lookup m st.
Proof.
  intros Hm. apply lookup_ext. intros j. rewrite entryAt_store.
  by rewrite decide_False by naive_solver.
Qed.

Lemma store_store i n e st : store i n e (store i n e st) = store i n e st.
Proof.
  unfold store. simpl. f_equal. rewrite list_alter_alter_eq.
  apply list_alter_ext; [|done]. intros m _. simpl. apply insert_insert_eq.
Qed.

Lemma markUsed_found n st h i e :
  lookup n st = Some (i, e) →
  markUsed n (st, h) = (store i n (set_is_used true e) st, h).
Proof. intros H. unfold markUsed. by rewrite H. Qed.

Lemma markUsed_unfound n st h :
  lookup n st = None →
  markUsed n (st, h)
  = (store 0 n (usedDummy n) st,
     reportError ErrorPhase.SEMANTIC (undeclaredMessage n) (-1) (-1) h).
Proof. intros H. unfold markUsed. by rewrite H. Qed.

(** X5: on a table with at least one frame, [markUsed] leaves the
    name resolving to an entry that is marked used; marking the same name
    again changes neither table nor diagnostics; no other name resolves
    differently; and no diagnostic is recorded when the name was bound. *)
Theorem markUsed_idempotent n st h :
  scopes st ≠ [] →
  (∃ i e, lookup n (fst (markUsed n (st, h))) = Some (i, e) ∧
          is_used e = true) ∧
  markUsed n (markUsed n (st, h)) = markUsed n (st, h) ∧
  (∀ m, m ≠ n → lookup m (fst (markUsed n (st, h))) = lookup m st) ∧
  (is_Some (lookup n st) → snd (markUsed n (st, h)) = h).
Proof.
  intros Hne.
  destruct (lookup n st) as [[i e]|] eqn:Hl.
  - pose proof (lookup_store_same _ _ _ (set_is_used true e) _ Hl) as Hl'.
    rewrite (markUsed_found _ _ _ _ _ Hl). cbn [fst snd].
    split; [by eexists _, _|]. split.
    + rewrite (markUsed_found _ _ _ _ _ Hl'). simpl. by rewrite store_store.
    + split; [|done]. intros m Hm. by apply lookup_store_other.
  - destruct (markUsed_unbound n st h Hl Hne) as (st' & h' & Hm & _ & Hk & Hh).
    rewrite (markUsed_unfound _ _ _ Hl) in *. injection Hm as <- <-.
    cbn [fst snd]. split; [by eexists _, _|]. split.
    + rewrite (markUsed_found _ _ _ _ _ Hk). unfold usedDummy. simpl.
      by rewrite store_store.
    + split; [|by intros [? ?]]. intros m Hm. by apply lookup_store_other.
Qed.

Lemma markUsed_idempotent_witness :
  markUsed "z" (markUsed "z" (beginScope newSymbolTable, newErrorHandler))
  = markUsed "z" (beginScope newSymbolTable, newErrorHandler).
Proof.
  apply (markUsed_idempotent "z" (beginScope newSymbolTable) newErrorHandler).
  discriminate.
Defined.

(** Without any frame, nothing can be stored and every reference
    reports again. *)
Lemma markUsed_without_frame n st h :
  scopes st = [] →
  markUsed n (st, h)
  = (st, reportError ErrorPhase.SEMANTIC (undeclaredMessage n) (-1) (-1) h).
Proof.
  intros He. unfold markUsed, lookup. rewrite He. simpl.
  f_equal. destruct st as [fs k]. simpl in *. subst fs. reflexivity.
Qed.

Lemma usedAt_store i n e st j m :
  usedAt j m st → ((i, n) = (j, m) → is_used e = true) →
  usedAt j m (store i n e st).
Proof.
  intros (e0 & He0 & Hu) Hkeep. unfold usedAt.
  rewrite entryAt_store. case_decide as Hd.
  - destruct Hd as (-> & -> & _). exists e. split; [done|]. by apply Hkeep.
  - by exists e0.
Qed.

Lemma lookupLocal_entryAt n st :
  lookupLocal n st = entryAt (backIndex st) n st.
Proof. reflexivity. Qed.

Lemma usedAt_not_local j m st :
  usedAt j m st → lookupLocal m st = None → j ≠ backIndex st.
Proof.
  intros (e & He & _) Hl ->. rewrite lookupLocal_entryAt in Hl. congruence.
Qed.

Lemma insert_keeps_used entry s j m :
  usedAt j m (fst s) → usedAt j m (fst (snd (insert entry s))).
Proof.
  destruct s as [st h]. intros Hu.
  destruct (lookupLocal (name entry) st) as [x|] eqn:Hl.
  { by rewrite (insert_present _ _ _ _ Hl). }
  destruct (decide (scopes st = [])) as [He|Hne].
  { by rewrite insert_no_frame. }
  rewrite (insert_fresh_eq _ _ _ Hne Hl). simpl.
  apply (usedAt_store _ _ _ (mkSymbolTable (scopes st) _)); [done|].
  intros [= <- <-]. by destruct (usedAt_not_local _ _ _ Hu Hl).
Qed.

Lemma updateEntry_present n f st h e :
  lookupLocal n st = Some e →
  updateEntry n f (st, h) = (true, (store (backIndex st) n (f e) st, h)).
Proof. intros H. unfold updateEntry. simpl. by rewrite H. Qed.

Lemma updateEntry_no_frame n f st h :
  scopes st = [] → updateEntry n f (st, h) = (false, (st, h)).
Proof.
  intros He. unfold updateEntry. cbn [fst snd].
  assert (lookupLocal n st = None) as ->.
  { unfold lookupLocal. by rewrite He. }
  by rewrite insert_no_frame.
Qed.

Lemma updateEntry_absent n f st h :
  scopes st ≠ [] → lookupLocal n st = None →
  updateEntry n f (st, h)
  = (true,
     (store (backIndex st) n
        (f (stored (newSymbolEntry n "variable" "unknown"
                      (currentScope st) (-1)) st))
        (store (backIndex st) n
           (stored (newSymbolEntry n "variable" "unknown"
                      (currentScope st) (-1)) st)
           (mkSymbolTable (scopes st) (nextMemoryIndex st + 1))), h)).
Proof.
  intros Hne Hl. unfold updateEntry. cbn [fst snd]. rewrite Hl.
  rewrite (insert_fresh_eq
             (newSymbolEntry n "variable" "unknown" (currentScope st) (-1))
             _ _ Hne Hl).
  cbn [fst snd name newSymbolEntry memoryAddr is_empty].
  set (st1 := mkSymbolTable (scopes st) _).
  assert (Hb : backIndex st = backIndex st1) by done.
  rewrite Hb at 1. rewrite (lookupLocal_store st1) by done.
  rewrite decide_True by done.
  f_equal. f_equal. f_equal. unfold backIndex, store. simpl.
  by rewrite length_alter.
Qed.

(** X6: a mark of use is never withdrawn: an entry that is marked
    used in some frame is still there and still marked after [insert],
    [insertTokenPlaceholder], [markUsed], [beginScope], and after
    [updateEntry] with an updater that does not reset the mark. *)
Theorem used_stays_used s j m :
  usedAt j m (fst s) →
  (∀ entry, usedAt j m (fst (snd (insert entry s)))) ∧
  (∀ n l, usedAt j m (fst (snd (insertTokenPlaceholder n l s)))) ∧
  (∀ n, usedAt j m (fst (markUsed n s))) ∧
  (∀ n f, (∀ e, is_used e = true → is_used (f e) = true) →
          usedAt j m (fst (snd (updateEntry n f s)))) ∧
  usedAt j m (beginScope (fst s)).
Proof.
  intros Hu. split; [|split; [|split; [|split]]].
  - intros entry. by apply insert_keeps_used.
  - intros n l. unfold insertTokenPlaceholder.
    destruct (existsInCurrentScope n (fst s)); [done|].
    by apply insert_keeps_used.
  - intros n. destruct s as [st h]. simpl in Hu.
    destruct (lookup n st) as [[i e]|] eqn:Hl.
    + rewrite (markUsed_found _ _ _ _ _ Hl). simpl. by apply usedAt_store.
    + rewrite (markUsed_unfound _ _ _ Hl). simpl. by apply usedAt_store.
  - intros n f Hf. destruct s as [st h]. cbn [fst snd] in *.
    destruct (lookupLocal n st) as [e|] eqn:Hl.
    + rewrite (updateEntry_present _ _ _ _ _ Hl). cbn [fst snd].
      apply usedAt_store; [done|].
      intros [= <- <-]. apply Hf. destruct Hu as (e0 & He0 & Hu0).
      rewrite lookupLocal_entryAt in Hl. congruence.
    + destruct (decide (scopes st = [])) as [He|Hne].
      { by rewrite updateEntry_no_frame. }
      rewrite (updateEntry_absent _ _ _ _ Hne Hl). cbn [fst snd].
      apply usedAt_store;
        [|intros [= <- <-]; by destruct (usedAt_not_local _ _ _ Hu Hl)].
      apply (usedAt_store _ _ _ (mkSymbolTable (scopes st) _)); [done|].
      intros [= <- <-]. by destruct (usedAt_not_local _ _ _ Hu Hl).
  - destruct Hu as (e & He & Hu). exists e. by rewrite entryAt_beginScope.
Qed.

Lemma used_stays_used_witness :
  usedAt 0 "z"
    (fst (snd (insert (newSymbolEntry "z" "variable" "float" 1 4)
                 (beginScope (fst (markUsed "z" (newSymbolTable, newErrorHandler))),
                  newErrorHandler)))).
Proof.
  apply (used_stays_used
           (beginScope (fst (markUsed "z" (newSymbolTable, newErrorHandler))),
            newErrorHandler) 0 "z").
  eexists. split; vm_compute; reflexivity.
Defined.

Lemma existsInCurrentScope_spec n st :
  existsInCurrentScope n st = true ↔ is_Some (lookupLocal n st).
Proof.
  unfold existsInCurrentScope.
  destruct (lookupLocal n st) as [e|]; split; intros H; try done.
Qed.

Lemma insertTokenPlaceholder_result n l st h :
  let r := insertTokenPlaceholder n l (st, h) in
  snd (snd r) = h ∧
  (fst r = true ↔ scopes st ≠ [] ∧ lookupLocal n st = None) ∧
  (fst r = false → fst (snd r) = st) ∧
  (fst r = true →
     ∃ e, lookupLocal n (fst (snd r)) = Some e ∧
          kind e = "token" ∧ type e = "unknown" ∧ is_dummy e = true ∧
          is_used e = false ∧ decl_line e = l ∧
          scopeLevel e = currentScope st).
Proof.
  intros r. subst r. unfold insertTokenPlaceholder. cbn [fst snd].
  destruct (existsInCurrentScope n st) eqn:Hex.
  - apply existsInCurrentScope_spec in Hex as [e He]. cbn [fst snd].
    split; [done|]. split; [|split; [done|done]].
    split; [done|]. intros [_ H]. congruence.
  - assert (Hl : lookupLocal n st = None).
    { destruct (lookupLocal n st) eqn:E; [|done].
      assert (existsInCurrentScope n st = true)
        by (apply existsInCurrentScope_spec; by eexists).
      congruence. }
    destruct (decide (scopes st = [])) as [He|Hne].
    + rewrite insert_no_frame by done. cbn [fst snd].
      split; [done|]. split; [|split; [done|done]].
      split; [done|]. by intros [? _].
    + set (e := set_decl_line l (set_is_dummy true
                  (newSymbolEntry n "token" "unknown" (currentScope st) l))).
      rewrite (insert_fresh_eq e _ _ Hne Hl). cbn [fst snd].
      split; [done|]. split; [done|]. split; [done|].
      intros _. eexists. split.
      { set (st1 := mkSymbolTable (scopes st) _).
        assert (Hb : backIndex st = backIndex st1) by done.
        rewrite Hb. rewrite (lookupLocal_store st1) by done.
        by rewrite decide_True. }
      done.
Qed.

(** X7: [insertTokenPlaceholder] never records a diagnostic; it
    succeeds exactly when there is a frame and the current frame does not
    hold the name; when it fails the table is unchanged; when it succeeds
    the current frame holds, under the name, an unused dummy of kind
    [token] and type [unknown] declared at the given line. *)
Theorem insertTokenPlaceholder_silent n l st h :
  let r := insertTokenPlaceholder n l (st, h) in
  snd (snd r) = h ∧
  (fst r = true ↔ scopes st ≠ [] ∧ lookupLocal n st = None) ∧
  (fst r = false → fst (snd r) = st) ∧
  (fst r = true →
     ∃ e, lookupLocal n (fst (snd r)) = Some e ∧
          kind e = "token" ∧ type e = "unknown" ∧ is_dummy e = true ∧
          is_used e = false ∧ decl_line e = l ∧
          scopeLevel e = currentScope st).
Proof. apply insertTokenPlaceholder_result. Qed.


(** X8: [updateEntry] works on the current frame only and never
    records a diagnostic: it succeeds exactly when there is a frame; an
    entry of the current frame is replaced by its update and the address
    counter stays; a name the current frame lacks is first inserted as a
    default variable, which takes an address, and then updated; no other
    name of the current frame changes. *)
Theorem updateEntry_applies n f st h :
  let r := updateEntry n f (st, h) in
  snd (snd r) = h ∧
  (fst r = true ↔ scopes st ≠ []) ∧
  (scopes st = [] → fst (snd r) = st) ∧
  (∀ e, lookupLocal n st = Some e →
        lookupLocal n (fst (snd r)) = Some (f e) ∧
        nextMemoryIndex (fst (snd r)) = nextMemoryIndex st) ∧
  (scopes st ≠ [] → lookupLocal n st = None →
     lookupLocal n (fst (snd r))
     = Some (f (stored (newSymbolEntry n "variable" "unknown"
                          (currentScope st) (-1)) st)) ∧
     nextMemoryIndex (fst (snd r)) = S (nextMemoryIndex st)) ∧
  (∀ m, m ≠ n → lookupLocal m (fst (snd r)) = lookupLocal m st).
Proof.
  intros r. subst r.
  destruct (decide (scopes st = [])) as [He|Hne].
  { rewrite updateEntry_no_frame by done. cbn [fst snd].
    split; [done|]. split; [done|]. split; [done|].
    split.
    { intros e Hl. unfold lookupLocal in Hl. by rewrite He in Hl. }
    split; [done|done]. }
  destruct (lookupLocal n st) as [e|] eqn:Hl.
  - rewrite (updateEntry_present _ _ _ _ _ Hl). cbn [fst snd].
    split; [done|]. split; [done|]. split; [done|]. split.
    { intros e' [= <-]. rewrite lookupLocal_store by done.
      by rewrite decide_True. }
    split; [done|].
    intros m Hm. rewrite lookupLocal_store by done. by rewrite decide_False.
  - rewrite (updateEntry_absent _ _ _ _ Hne Hl). cbn [fst snd].
    set (st1 := mkSymbolTable (scopes st) _).
    set (d := stored _ st).
    assert (Hb : backIndex st = backIndex (store (backIndex st) n d st1)).
    { unfold backIndex, store. simpl. by rewrite length_alter. }
    assert (Hb1 : backIndex st = backIndex st1) by done.
    assert (Hne2 : scopes (store (backIndex st) n d st1) ≠ []).
    { by apply store_nonempty. }
    split; [done|]. split; [done|]. split; [done|]. split; [done|]. split.
    { intros _ _. rewrite Hb at 1. rewrite lookupLocal_store by done.
      rewrite decide_True by done. split; [done|]. simpl. lia. }
    intros m Hm. rewrite Hb at 1. rewrite lookupLocal_store by done.
    rewrite decide_False by done. rewrite Hb1 at 1.
    rewrite (lookupLocal_store st1) by done. by rewrite decide_False.
Qed.

Lemma updateEntry_applies_witness :
  lookupLocal "v"
    (fst (snd (updateEntry "v" (set_kind "constant")
                 (newSymbolTable, newErrorHandler))))
  = Some (set_kind "constant"
            (set_memoryAddr "0x1000"
               (newSymbolEntry "v" "variable" "unknown" 0 (-1)))).
Proof.
  apply (proj1 (proj1 (proj2 (proj2 (proj2 (proj2
           (updateEntry_applies "v" (set_kind "constant")
              newSymbolTable newErrorHandler)))))
           ltac:(discriminate) eq_refl)).
Defined.

Lemma getUnusedEntries_elem st e :
  e ∈ getUnusedEntries st ↔
  ∃ i n, entryAt i n st = Some e ∧ is_used e = false.
Proof.
  unfold getUnusedEntries. rewrite list_elem_of_In, in_concat.
  setoid_rewrite <- list_elem_of_In. split.
  - intros (l & Hl & He). apply list_elem_of_fmap in Hl as (m & -> & Hm).
    rewrite elem_of_reverse in Hm. apply list_elem_of_lookup in Hm as [i Hi].
    unfold unusedIn in He. apply list_elem_of_filter in He as [Hu He].
    apply list_elem_of_fmap in He as ([n e'] & -> & Hn).
    apply elem_of_map_to_list in Hn. exists i, n. split; [|done].
    unfold entryAt. by rewrite Hi.
  - intros (i & n & He & Hu). unfold entryAt in He.
    destruct (scopes st !! i) as [m|] eqn:Hi; [|done].
    exists (unusedIn m). split.
    + apply list_elem_of_fmap. exists m. split; [done|].
      apply elem_of_reverse. by eapply list_elem_of_lookup_2.
    + unfold unusedIn. apply list_elem_of_filter. split; [done|].
      apply list_elem_of_fmap. exists (n, e). split; [done|].
      by apply elem_of_map_to_list.
Qed.

(** X9: the unused-entries report lists exactly the entries, of
    any frame, that are not marked used. *)
Theorem getUnusedEntries_spec st e :
  e ∈ getUnusedEntries st ↔
  ∃ i n, entryAt i n st = Some e ∧ is_used e = false.
Proof. apply getUnusedEntries_elem. Qed.


(** ** Symbol table: addresses *)

Lemma to_hex_inj a b : to_hex a = to_hex b → a = b.
Proof.
  unfold to_hex. intros H.
  assert (Hn : ∀ n, Nat.to_hex_uint n ≠ Hexadecimal.Nil).
  { intros n E.
    pose proof (HexadecimalNat.Unsigned.to_of (Nat.to_hex_uint n)) as Ht.
    rewrite HexadecimalNat.Unsigned.of_to in Ht. rewrite E in Ht.
    discriminate Ht. }
  apply HexadecimalNat.Unsigned.to_uint_inj.
  apply (f_equal HexadecimalString.NilZero.uint_of_string) in H.
  rewrite !HexadecimalString.NilZero.usu in H by apply Hn. congruence.
Qed.

Lemma to_string_inj a b : to_string a = to_string b → a = b.
Proof.
  unfold to_string. intros H.
  assert (Hn : ∀ z, Z.to_int z ≠ Decimal.Pos Decimal.Nil ∧
                    Z.to_int z ≠ Decimal.Neg Decimal.Nil).
  { intros [|p|p]; simpl; split; try discriminate;
      intros [= E]; by apply DecimalPos.Unsigned.to_uint_nonnil in E. }
  apply DecimalZ.to_int_inj.
  apply (f_equal DecimalString.NilZero.int_of_string) in H.
  rewrite !DecimalString.NilZero.isi in H by apply Hn. congruence.
Qed.

(** X10: addresses assigned at different values of the counter are
    different, whatever the entries they are assigned to (the counter
    being a natural number: no [int] overflow is modelled). *)
Theorem addresses_distinct e e' i j :
  i ≠ j → assignAddr e i ≠ assignAddr e' j.
Proof.
  intros Hij H. apply Hij. unfold assignAddr in H.
  repeat match type of H with
         | context [if ?b then _ else _] => destruct b
         end; simpl in H; try discriminate.
  all: injection H as H.
  all: try (apply to_hex_inj in H; lia).
  all: apply to_string_inj in H; lia.
Qed.

Lemma addresses_distinct_witness :
  assignAddr (newSymbolEntry "a" "variable" "float" 0 1) 0
  ≠ assignAddr (newSymbolEntry "b" "token" "unknown" 0 1) 1.
Proof. apply addresses_distinct. lia. Defined.

(** ** Error handler *)

Lemma errorCount_filter h :
  EH.errorCount h
  = length (filter (fun e => severity e = Severity.FATAL ∨
                             severity e = Severity.ERROR) (errors h)).
Proof.
  unfold EH.errorCount.
  assert (G : ∀ es c,
    fold_left (fun c e =>
       if bool_decide (severity e = Severity.FATAL) ||
          bool_decide (severity e = Severity.ERROR)
       then S c else c) es c
    = c + length (filter (fun e => severity e = Severity.FATAL ∨
                                   severity e = Severity.ERROR) es)).
  { induction es as [|e es IH]; intros c; simpl; [lia|].
    rewrite IH, filter_cons.
    destruct (decide (severity e = Severity.FATAL ∨
                      severity e = Severity.ERROR)) as [Hd|Hd].
    - assert (bool_decide (severity e = Severity.FATAL) ||
              bool_decide (severity e = Severity.ERROR) = true) as ->.
      { destruct Hd as [->| ->]; reflexivity. }
      simpl. lia.
    - assert (bool_decide (severity e = Severity.FATAL) ||
              bool_decide (severity e = Severity.ERROR) = false) as ->.
      { destruct (severity e); try reflexivity; exfalso; apply Hd; auto. }
      lia. }
  apply G.
Qed.

Lemma warningCount_filter h :
  EH.warningCount h
  = length (filter (fun e => severity e = Severity.WARNING) (errors h)).
Proof.
  unfold EH.warningCount.
  assert (G : ∀ es c,
    fold_left (fun c e =>
       if bool_decide (severity e = Severity.WARNING) then S c else c) es c
    = c + length (filter (fun e => severity e = Severity.WARNING) es)).
  { induction es as [|e es IH]; intros c; simpl; [lia|].
    rewrite IH, filter_cons. case_bool_decide.
    - rewrite decide_True by done. simpl. lia.
    - rewrite decide_False by done. lia. }
  apply G.
Qed.

Lemma hasFatal_spec h :
  EH.hasFatal h = true ↔ ∃ e, e ∈ errors h ∧ severity e = Severity.FATAL.
Proof.
  unfold EH.hasFatal. induction (errors h) as [|e es IH]; simpl.
  - split; [done|]. intros (e & He & _). by apply elem_of_nil in He.
  - case_bool_decide as Hf.
    + split; [|done]. intros _. exists e. split; [|done].
      apply elem_of_cons. by left.
    + rewrite IH. split.
      * intros (x & Hx & Hs). exists x. split; [|done].
        apply elem_of_cons. by right.
      * intros (x & Hx & Hs). apply elem_of_cons in Hx as [->|Hx]; [done|].
        by exists x.
Qed.

(** X11: [report] appends the diagnostic it is given, last, and the
    counters follow its severity: [errorCount] goes up by one for ERROR
    and FATAL, [warningCount] by one for WARNING, and [hasFatal] holds
    afterwards exactly when it held before or the severity is FATAL. *)
Theorem report_counts p s msg l c rec h :
  let h' := fst (report p s msg l c rec h) in
  EH.getAll h' = EH.getAll h ++ [mkCompilerError p s msg l c rec] ∧
  EH.errorCount h'
  = EH.errorCount h +
    (if bool_decide (s = Severity.ERROR ∨ s = Severity.FATAL) then 1 else 0) ∧
  EH.warningCount h'
  = EH.warningCount h + (if bool_decide (s = Severity.WARNING) then 1 else 0) ∧
  EH.hasFatal h' = EH.hasFatal h || bool_decide (s = Severity.FATAL).
Proof.
  intros h'. subst h'. split; [done|].
  rewrite !errorCount_filter, !warningCount_filter. simpl.
  rewrite !filter_app, !length_app, !filter_cons. simpl.
  split; [|split].
  - f_equal. destruct s; reflexivity.
  - f_equal. destruct s; reflexivity.
  - unfold EH.hasFatal. simpl.
    induction (errors h) as [|e es IH]; simpl.
    + by destruct s.
    + destruct (bool_decide (severity e = Severity.FATAL)); [done|apply IH].
Qed.

(** X12: errors, warnings and informational messages partition the
    recorded diagnostics, and a handler that has a fatal diagnostic
    counts at least one error. *)
Theorem counts_partition h :
  EH.errorCount h + EH.warningCount h +
    length (filter (fun e => severity e = Severity.INFO) (EH.getAll h))
  = length (EH.getAll h) ∧
  (EH.hasFatal h = true → 0 < EH.errorCount h).
Proof.
  rewrite errorCount_filter, warningCount_filter. unfold EH.getAll. split.
  - induction (errors h) as [|e es IH]; [done|].
    rewrite !filter_cons. simpl.
    destruct (severity e) eqn:Es.
    all: repeat case_decide; try naive_solver; simpl in *; lia.
  - intros Hf. apply hasFatal_spec in Hf as (e & He & Hs).
    assert (e ∈ filter (fun e => severity e = Severity.FATAL ∨
                                 severity e = Severity.ERROR) (errors h))
      as Hin by (apply list_elem_of_filter; auto).
    destruct (filter _ (errors h)); [by apply elem_of_nil in Hin|simpl; lia].
Qed.

Lemma counts_partition_witness :
  0 < EH.errorCount
        (fst (EH.reportFatal ErrorPhase.RUNTIME "F1" 1 1
                (EH.setStopOnFatal false newErrorHandler))).
Proof.
  apply (counts_partition
           (fst (EH.reportFatal ErrorPhase.RUNTIME "F1" 1 1
                   (EH.setStopOnFatal false newErrorHandler)))).
  reflexivity.
Defined.

(** Of the reporting methods only [reportFatal] can throw, and
    it throws exactly when [stopOnFatal] is set, after the diagnostic has
    been recorded; [reportError] whatever its recoverable flag,
    [reportWarning] and [reportInfo] always return, and so does every
    report once [setStopOnFatal(false)] was called. *)
Lemma only_reportFatal_throws p msg l c h :
  snd (EH.reportFatal p msg l c h) = stopOnFatal h ∧
  errors (fst (EH.reportFatal p msg l c h))
  = errors h ++ [mkCompilerError p Severity.FATAL msg l c false] ∧
  (∀ rec, snd (report p Severity.ERROR msg l c rec h) = false) ∧
  snd (EH.reportWarning p msg l c h) = false ∧
  snd (EH.reportInfo p msg l c h) = false ∧
  (∀ s rec, snd (report p s msg l c rec (EH.setStopOnFatal false h)) = false).
Proof.
  repeat split.
  - intros rec. unfold report. simpl. by rewrite andb_false_r.
  - intros s rec. unfold report. simpl. by rewrite andb_false_r.
Qed.

(** X13: for a handler with diagnostics, [saveToFile] writes what
    [printSummary] prints; for an empty handler [saveToFile] writes the
    one line [No errors or warning] while [printSummary] goes on after
    that line with an empty listing; a file that cannot be opened gives
    [false] and nothing is written. *)
Theorem saveToFile_vs_printSummary h :
  (errors h ≠ [] →
     EH.saveToFile true h = (true, Some (EH.printSummary h))) ∧
  (errors h = [] →
     EH.saveToFile true h
       = (true, Some ("No errors or warning " +:+ EH.newline)) ∧
     EH.printSummary h
       = "No errors or warning " +:+ EH.newline +:+
         "=== Compiler Messages (0) ===" +:+ EH.newline +:+
         "=== END OF MESSAGES ===" +:+ EH.newline) ∧
  EH.saveToFile false h = (false, None).
Proof.
  unfold EH.saveToFile, EH.printSummary. simpl. split; [|split].
  - intros Hne. by destruct (errors h).
  - intros He. unfold EH.listing. rewrite He. done.
  - done.
Qed.

Lemma saveToFile_vs_printSummary_witness :
  EH.saveToFile true
    (reportError ErrorPhase.SEMANTIC "E1" (-1) (-1) newErrorHandler)
  = (true, Some (EH.printSummary
       (reportError ErrorPhase.SEMANTIC "E1" (-1) (-1) newErrorHandler))).
Proof.
  apply (saveToFile_vs_printSummary
           (reportError ErrorPhase.SEMANTIC "E1" (-1) (-1) newErrorHandler)).
  discriminate.
Defined.

(** ** Lexer *)

Lemma get_fields lx :
  Lex.src (snd (Lex.get lx)) = Lex.src lx ∧
  Lex.length (snd (Lex.get lx)) = Lex.length lx ∧
  Lex.symtab (snd (Lex.get lx)) = Lex.symtab lx ∧
  Lex.idx (snd (Lex.get lx))
  = Lex.idx lx + (if Lex.eof lx then 0 else 1).
Proof.
  unfold Lex.get. destruct (Lex.eof lx); simpl; [repeat split; lia|].
  case_bool_decide; simpl; repeat split; lia.
Qed.

Lemma string_get_in_range text i :
  i < String.length text → is_Some (String.get i text).
Proof.
  revert i. induction text as [|a text IH]; intros i Hi; simpl in *; [lia|].
  destruct i as [|i]; [by eexists|]. apply IH. lia.
Qed.

Lemma get_char lx text :
  scanning lx text → Lex.eof lx = false →
  String.get (Lex.idx lx) text = Some (fst (Lex.get lx)).
Proof.
  intros [Hs Hl] He. unfold Lex.get. rewrite He.
  assert (fst (if bool_decide (Lex.peek 0 lx = "010"%char)
               then (Lex.peek 0 lx, _) else (Lex.peek 0 lx, _))
          = Lex.peek 0 lx) as ->.
  { by case_bool_decide. }
  unfold Lex.peek, Lex.eof in *. rewrite Nat.add_0_r, He, Hs.
  apply bool_decide_eq_false in He.
  destruct (string_get_in_range text (Lex.idx lx)) as [c Hc]; [lia|].
  by rewrite Hc.
Qed.

Lemma substring_step text i c n :
  String.get i text = Some c →
  String.substring i (S n) text = String c (String.substring (S i) n text).
Proof.
  revert i. induction text as [|a text IH]; intros i Hg; simpl in Hg;
    [done|].
  destruct i as [|i].
  - injection Hg as ->. simpl. by destruct text.
  - simpl. rewrite (IH i Hg). by destruct text.
Qed.

Lemma substring_zero text i : String.substring i 0 text = "".
Proof.
  revert i. induction text as [|a text IH]; intros [|i]; simpl; try done.
Qed.

Lemma string_app_cons x (a b : string) : String x a +:+ b = String x (a +:+ b).
Proof. reflexivity. Qed.

Lemma string_app_assoc (a b c : string) : (a +:+ b) +:+ c = a +:+ (b +:+ c).
Proof.
  induction a as [|x a IH]; [done|]. by rewrite !string_app_cons, IH.
Qed.

Lemma string_app_nil_r (a : string) : a +:+ "" = a.
Proof. induction a as [|x a IH]; [done|]. by rewrite string_app_cons, IH. Qed.

(** What one of the lexer's character loops does. *)
Lemma take_while_spec p fuel : ∀ lex lx,
  ∃ added,
    fst (Lex.take_while p fuel lex lx) = lex +:+ added ∧
    allChars p added ∧
    Lex.src (snd (Lex.take_while p fuel lex lx)) = Lex.src lx ∧
    Lex.length (snd (Lex.take_while p fuel lex lx)) = Lex.length lx ∧
    Lex.symtab (snd (Lex.take_while p fuel lex lx)) = Lex.symtab lx ∧
    Lex.idx (snd (Lex.take_while p fuel lex lx))
    = Lex.idx lx + String.length added ∧
    (∀ text, scanning lx text →
             added = String.substring (Lex.idx lx) (String.length added) text) ∧
    (0 < fuel → Lex.eof lx = false → p (Lex.peek 0 lx) = true →
     ∃ rest, added = String (Lex.peek 0 lx) rest).
Proof.
  induction fuel as [|fuel IH]; intros lex lx; simpl.
  - exists "". split; [by rewrite string_app_nil_r|].
    split; [constructor|]. split; [done|]. split; [done|]. split; [done|].
    split; [simpl; lia|].
    split; [intros text _; by rewrite substring_zero|]. lia.
  - destruct (negb (Lex.eof lx) && p (Lex.peek 0 lx)) eqn:Hc; simpl.
    + apply andb_true_iff in Hc as [He Hp]. apply negb_true_iff in He.
      pose proof (get_fields lx) as (Hs & Hl & Hy & Hi). rewrite He in Hi.
      pose proof (get_char lx) as Hch.
      assert (Hpk : fst (Lex.get lx) = Lex.peek 0 lx).
      { unfold Lex.get. rewrite He. by case_bool_decide. }
      destruct (Lex.get lx) as [c lx']. simpl in *. subst c.
      destruct (IH (lex +:+ String (Lex.peek 0 lx) "") lx')
        as (added & Hlex & Hall & Hs' & Hl' & Hy' & Hi' & Hsub & _).
      exists (String (Lex.peek 0 lx) added).
      split. { rewrite Hlex, string_app_assoc. done. }
      split. { constructor; done. }
      split; [congruence|]. split; [congruence|]. split; [congruence|].
      split. { simpl. lia. }
      split.
      * intros text Hr. simpl.
        rewrite (substring_step _ _ (Lex.peek 0 lx)) by by apply Hch.
        f_equal. rewrite Hi, Nat.add_1_r in Hsub. apply Hsub.
        destruct Hr. split; congruence.
      * intros _ _ _. by eexists.
    + exists "". split; [by rewrite string_app_nil_r|].
      split; [constructor|]. split; [done|]. split; [done|]. split; [done|].
      split; [simpl; lia|].
      split; [intros text _; by rewrite substring_zero|].
      intros _ He Hp. rewrite He, Hp in Hc. done.
Qed.

Lemma substring_empty i n : String.substring i n "" = "".
Proof. by destruct i, n. Qed.

Lemma substring_add text : ∀ i a b,
  String.substring i (a + b) text
  = String.substring i a text +:+ String.substring (i + a) b text.
Proof.
  induction text as [|c text IH]; intros i a b.
  - by rewrite !substring_empty.
  - destruct i as [|i]; [|apply IH].
    destruct a as [|a]; [done|]. simpl.
    rewrite string_app_cons. f_equal. apply (IH 0).
Qed.

Lemma string_length_app (a b : string) :
  String.length (a +:+ b) = String.length a + String.length b.
Proof.
  induction a as [|x a IH]; [done|]. rewrite string_app_cons. simpl.
  by rewrite IH.
Qed.

Lemma spans_nil text i : spans text i "" i.
Proof. split; [simpl; lia|]. by rewrite substring_zero. Qed.

Lemma spans_app text i a j b k :
  spans text i a j → spans text j b k → spans text i (a +:+ b) k.
Proof.
  intros [-> Ha] [-> Hb]. split.
  - rewrite string_length_app. lia.
  - rewrite string_length_app, substring_add. by rewrite <- Ha, <- Hb.
Qed.

Lemma spans_get lx text :
  scanning lx text → Lex.eof lx = false →
  spans text (Lex.idx lx) (String (fst (Lex.get lx)) "")
    (Lex.idx (snd (Lex.get lx))) ∧
  scanning (snd (Lex.get lx)) text ∧
  fst (Lex.get lx) = Lex.peek 0 lx.
Proof.
  intros Hr He. pose proof (get_char lx text Hr He) as Hc.
  pose proof (get_fields lx) as (Hs & Hl & _ & Hi). rewrite He in Hi.
  split; [|split].
  - split; [simpl; lia|]. simpl String.length.
    rewrite (substring_step _ _ _ _ Hc). by rewrite substring_zero.
  - destruct Hr. split; congruence.
  - unfold Lex.get. rewrite He. by case_bool_decide.
Qed.

Lemma spans_take_while p fuel lex lx text :
  scanning lx text →
  ∃ added,
    fst (Lex.take_while p fuel lex lx) = lex +:+ added ∧
    allChars p added ∧
    spans text (Lex.idx lx) added
      (Lex.idx (snd (Lex.take_while p fuel lex lx))) ∧
    scanning (snd (Lex.take_while p fuel lex lx)) text ∧
    Lex.symtab (snd (Lex.take_while p fuel lex lx)) = Lex.symtab lx ∧
    (0 < fuel → Lex.eof lx = false → p (Lex.peek 0 lx) = true →
     ∃ rest, added = String (Lex.peek 0 lx) rest).
Proof.
  intros Hr.
  destruct (take_while_spec p fuel lex lx)
    as (added & H1 & H2 & H3 & H4 & H5 & H6 & H7 & H8).
  exists added. split; [done|]. split; [done|]. split.
  { split; [done|]. by apply H7. }
  split; [|split; [done|done]].
  destruct Hr. split; congruence.
Qed.

Lemma remaining_pos lx : Lex.eof lx = false → 0 < Lex.remaining lx.
Proof.
  unfold Lex.eof, Lex.remaining. intros H.
  apply bool_decide_eq_false in H. lia.
Qed.

Lemma allChars_nil p : allChars p "".
Proof. constructor. Qed.

Lemma allChars_app p (a b : string) :
  allChars p a → allChars p b → allChars p (a +:+ b).
Proof.
  unfold allChars. induction a as [|x a IH]; intros Ha Hb; [done|].
  rewrite string_app_cons. simpl in *. inversion Ha; subst.
  constructor; [done|]. by apply IH.
Qed.

Lemma take_while_scanning p fuel lex lx text :
  scanning lx text → scanning (snd (Lex.take_while p fuel lex lx)) text.
Proof.
  intros [? ?].
  destruct (take_while_spec p fuel lex lx) as (? & _ & _ & ? & ? & _).
  split; congruence.
Qed.

Lemma take_while_spans p fuel lex lx text added :
  scanning lx text → fst (Lex.take_while p fuel lex lx) = lex +:+ added →
  spans text (Lex.idx lx) added (Lex.idx (snd (Lex.take_while p fuel lex lx))).
Proof.
  intros Hr Hlex.
  destruct (take_while_spec p fuel lex lx)
    as (added' & H1 & _ & _ & _ & _ & H6 & H7 & _).
  assert (added' = added) as ->.
  { rewrite H1 in Hlex. clear -Hlex.
    induction lex as [|x lex IH]; [done|].
    rewrite !string_app_cons in Hlex. injection Hlex. done. }
  split; [done|]. by apply H7.
Qed.

(** The identifier lexer, entered the way [getNextToken] enters it. *)
Lemma lexIdentifier_result lx s :
  Lex.eof lx = false → Lex.isIdentStart (Lex.peek 0 lx) = true →
  ∃ rest lx',
    Lex.lexIdentifier lx s
    = (mkToken TokenKind.IDENT (String (Lex.peek 0 lx) rest)
         (Lex.line lx) (Lex.col lx), lx',
       if Lex.symtab lx &&
          negb (existsInCurrentScope (String (Lex.peek 0 lx) rest) (fst s))
       then snd (insertTokenPlaceholder (String (Lex.peek 0 lx) rest)
                   (Lex.line lx) s)
       else s) ∧
    allChars Lex.isIdentBody (String (Lex.peek 0 lx) rest) ∧
    Lex.src lx' = Lex.src lx ∧
    (∀ text, scanning lx text →
       spans text (Lex.idx lx) (String (Lex.peek 0 lx) rest) (Lex.idx lx') ∧
       scanning lx' text).
Proof.
  intros He Hp. unfold Lex.lexIdentifier.
  destruct (take_while_spec Lex.isIdentBody (Lex.remaining lx) "" lx)
    as (added & H1 & H2 & H3 & H4 & H5 & H6 & H7 & H8).
  destruct (H8 (remaining_pos _ He) He (isIdentStart_body _ Hp)) as [rest ->].
  pose proof (take_while_scanning Lex.isIdentBody (Lex.remaining lx) "" lx)
    as Hsc.
  destruct (Lex.take_while Lex.isIdentBody (Lex.remaining lx) "" lx)
    as [lex lx'].
  simpl in *. subst lex. exists rest, lx'. rewrite H5.
  split; [done|]. split; [done|]. split; [done|].
  intros text Hr. split; [|by apply Hsc]. split; [done|]. by apply H7.
Qed.

Lemma peek_after_get lx :
  Lex.eof lx = false → Lex.peek 0 (snd (Lex.get lx)) = Lex.peek 1 lx.
Proof.
  intros He. pose proof (get_fields lx) as (Hs & Hl & _ & Hi).
  rewrite He in Hi. unfold Lex.peek. rewrite Hs, Hl, Hi.
  by rewrite Nat.add_0_r.
Qed.

Lemma numberShape_digits a : allChars Lex.isdigit a → a ≠ "" → numberShape a.
Proof.
  intros Ha Hne. exists a, "". split; [done|]. split; [constructor|].
  split; [by left|]. by left.
Qed.

Lemma numberShape_dot a b :
  allChars Lex.isdigit a → allChars Lex.isdigit b → a ≠ "" ∨ b ≠ "" →
  numberShape (a +:+ "." +:+ b).
Proof.
  intros Ha Hb Hn. exists a, b. split; [done|]. split; [done|].
  split; [done|]. by right.
Qed.

Lemma peek_at_end n lx : Lex.eof lx = true → Lex.peek n lx = Lex.NUL.
Proof.
  unfold Lex.eof, Lex.peek. intros He. apply bool_decide_eq_true in He.
  rewrite bool_decide_eq_true_2; [done|lia].
Qed.

Lemma isdigit_not_eof lx :
  Lex.isdigit (Lex.peek 0 lx) = true → Lex.eof lx = false.
Proof.
  intros H. destruct (Lex.eof lx) eqn:E; [|done].
  by rewrite (peek_at_end 0 lx E) in H.
Qed.

(** The number lexer, entered the way [getNextToken] enters it. *)
Lemma lexNumber_result lx s :
  Lex.eof lx = false →
  Lex.isdigit (Lex.peek 0 lx) ||
    bool_decide (Lex.peek 0 lx = "."%char) && Lex.isdigit (Lex.peek 1 lx)
  = true →
  ∃ lex lx',
    Lex.lexNumber lx s
    = (mkToken TokenKind.FLOAT_LIT lex (Lex.line lx) (Lex.col lx), lx', s) ∧
    numberShape lex ∧
    Lex.src lx' = Lex.src lx ∧
    (∀ text, scanning lx text →
       spans text (Lex.idx lx) lex (Lex.idx lx') ∧ scanning lx' text).
Proof.
  intros He Hd. unfold Lex.lexNumber.
  case_bool_decide as Hdot.
  - assert (Hd1 : Lex.isdigit (Lex.peek 1 lx) = true).
    { rewrite Hdot in Hd. by destruct (Lex.isdigit (Lex.peek 1 lx)). }
    pose proof (peek_after_get lx He) as Hpk.
    pose proof (get_fields lx) as (Hs & Hl & _ & Hi).
    pose proof (spans_get lx) as Hg.
    assert (Hc : fst (Lex.get lx) = "."%char).
    { unfold Lex.get. rewrite He. rewrite <- Hdot. by case_bool_decide. }
    destruct (Lex.get lx) as [c lx1]. simpl in *. subst c.
    rewrite Hpk, Hd1. simpl.
    destruct (take_while_spec Lex.isdigit (Lex.remaining lx1) "." lx1)
      as (added & H1 & H2 & H3 & H4 & H5 & H6 & H7 & H8).
    pose proof (take_while_scanning Lex.isdigit (Lex.remaining lx1) "." lx1)
      as Hsc.
    destruct (Lex.take_while Lex.isdigit (Lex.remaining lx1) "." lx1)
      as [lex lx2]. simpl in *. subst lex.
    exists ("." +:+ added), lx2. split; [done|]. split.
    { apply (numberShape_dot "" added); [constructor|done|]. right.
      rewrite <- Hpk in Hd1. pose proof (isdigit_not_eof _ Hd1) as He1.
      destruct (H8 (remaining_pos _ He1) He1 Hd1) as [rest ->]. done. }
    split; [congruence|].
    intros text Hr. destruct (Hg text Hr He) as (Hsp & Hr1 & _).
    split; [|by apply Hsc].
    eapply spans_app; [exact Hsp|]. split; [done|]. by apply H7.
  - assert (Hd0 : Lex.isdigit (Lex.peek 0 lx) = true).
    { apply orb_true_iff in Hd as [?|Hd]; [done|]. discriminate. }
    destruct (take_while_spec Lex.isdigit (Lex.remaining lx) "" lx)
      as (a & H1 & H2 & H3 & H4 & H5 & H6 & H7 & H8).
    destruct (H8 (remaining_pos _ He) He Hd0) as [rest Ha].
    pose proof (take_while_scanning Lex.isdigit (Lex.remaining lx) "" lx)
      as Hsc.
    destruct (Lex.take_while Lex.isdigit (Lex.remaining lx) "" lx)
      as [lex lx1]. simpl in *. subst lex. change ("" +:+ a) with a in *.
    case_bool_decide as Hdot1.
    + assert (He1 : Lex.eof lx1 = false).
      { destruct (Lex.eof lx1) eqn:E; [|done].
        unfold Lex.peek in Hdot1. unfold Lex.eof in E.
        rewrite Nat.add_0_r, E in Hdot1. discriminate. }
      pose proof (get_fields lx1) as (Hs1 & Hl1 & _ & Hi1).
      pose proof (spans_get lx1) as Hg.
      assert (Hc : fst (Lex.get lx1) = "."%char).
      { unfold Lex.get. rewrite He1. rewrite <- Hdot1. by case_bool_decide. }
      destruct (Lex.get lx1) as [c lx2]. simpl in *. subst c.
      destruct (take_while_spec Lex.isdigit (Lex.remaining lx2)
                  (a +:+ ".") lx2)
        as (b & G1 & G2 & G3 & G4 & G5 & G6 & G7 & G8).
      pose proof (take_while_scanning Lex.isdigit (Lex.remaining lx2)
                    (a +:+ ".") lx2) as Hsc2.
      destruct (Lex.take_while Lex.isdigit (Lex.remaining lx2)
                  (a +:+ ".") lx2) as [lex lx3]. simpl in *. subst lex.
      exists ((a +:+ ".") +:+ b), lx3. split; [done|]. split.
      { rewrite string_app_assoc. apply numberShape_dot; [done|done|].
        left. by rewrite Ha. }
      split; [congruence|].
      intros text Hr. specialize (Hsc text Hr).
      destruct (Hg text Hsc He1) as (Hsp & Hr2 & _).
      split; [|by apply Hsc2].
      eapply spans_app; [eapply spans_app|].
      * split; [exact H6|]. by apply H7.
      * exact Hsp.
      * split; [done|]. by apply G7.
    + exists a, lx1. split; [done|]. split.
      { apply numberShape_digits; [done|]. by rewrite Ha. }
      split; [done|].
      intros text Hr. split; [|by apply Hsc]. split; [done|]. by apply H7.
Qed.

Lemma take_while_stops p fuel : ∀ lex lx,
  Lex.remaining lx ≤ fuel →
  Lex.eof (snd (Lex.take_while p fuel lex lx)) = true ∨
  p (Lex.peek 0 (snd (Lex.take_while p fuel lex lx))) = false.
Proof.
  induction fuel as [|fuel IH]; intros lex lx Hr; simpl.
  - left. unfold Lex.eof, Lex.remaining in *. apply bool_decide_eq_true. lia.
  - destruct (Lex.eof lx) eqn:He; simpl; [by left|].
    destruct (p (Lex.peek 0 lx)) eqn:Hp; simpl; [|by right].
    pose proof (get_remaining lx) as [_ Hg]. specialize (Hg He).
    destruct (Lex.get lx) as [c lx']. simpl in Hg. apply IH. lia.
Qed.

Lemma take_while_stopped p fuel lex lx :
  Lex.eof lx = true ∨ p (Lex.peek 0 lx) = false →
  Lex.take_while p fuel lex lx = (lex, lx).
Proof.
  intros H. destruct fuel as [|fuel]; simpl; [done|].
  destruct H as [-> | ->]; [done|]. by rewrite andb_false_r.
Qed.

Lemma skipWhitespace_stops lx :
  Lex.eof (Lex.skipWhitespace lx) = true ∨
  Lex.isspace (Lex.peek 0 (Lex.skipWhitespace lx)) = false.
Proof. by apply take_while_stops. Qed.

Lemma skipWhitespace_idem lx :
  Lex.skipWhitespace (Lex.skipWhitespace lx) = Lex.skipWhitespace lx.
Proof.
  unfold Lex.skipWhitespace at 1.
  by rewrite take_while_stopped by apply skipWhitespace_stops.
Qed.

Lemma skipWhitespace_fields lx :
  Lex.src (Lex.skipWhitespace lx) = Lex.src lx ∧
  Lex.length (Lex.skipWhitespace lx) = Lex.length lx ∧
  Lex.symtab (Lex.skipWhitespace lx) = Lex.symtab lx.
Proof.
  unfold Lex.skipWhitespace.
  destruct (take_while_spec Lex.isspace (Lex.remaining lx) "" lx)
    as (? & _ & _ & ? & ? & ? & _). done.
Qed.

Lemma skipWhitespace_spans lx text :
  scanning lx text →
  ∃ blank, allChars Lex.isspace blank ∧
    spans text (Lex.idx lx) blank (Lex.idx (Lex.skipWhitespace lx)) ∧
    scanning (Lex.skipWhitespace lx) text.
Proof.
  intros Hr. unfold Lex.skipWhitespace.
  destruct (take_while_spec Lex.isspace (Lex.remaining lx) "" lx)
    as (blank & _ & H2 & _ & _ & _ & H6 & H7 & _).
  exists blank. split; [done|]. split; [split; [done|by apply H7]|].
  by apply take_while_scanning.
Qed.

Lemma get_peek lx : Lex.eof lx = false → fst (Lex.get lx) = Lex.peek 0 lx.
Proof.
  intros He. unfold Lex.get. rewrite He.
  by destruct (bool_decide (Lex.peek 0 lx = "010"%char)).
Qed.

(** What [lexOperatorOrSymbol] returns on a character. *)
Lemma lexOperatorOrSymbol_result lx s :
  Lex.eof lx = false →
  ∃ k lx',
    Lex.lexOperatorOrSymbol lx s
    = (mkToken k (String (Lex.peek 0 lx) "") (Lex.line lx) (Lex.col lx), lx',
       if bool_decide (k = TokenKind.UNKNOWN)
       then (fst s, Lex.lexReportError
                      ("Unrecognized symbol '" +:+ String (Lex.peek 0 lx) ""
                       +:+ "'") lx' (snd s))
       else s) ∧
    (k = TokenKind.UNKNOWN ∨ symbolOf k = Some (Lex.peek 0 lx)) ∧
    (∀ k', symbolOf k' = Some (Lex.peek 0 lx) → k = k') ∧
    Lex.src lx' = Lex.src lx ∧
    (∀ text, scanning lx text →
       spans text (Lex.idx lx) (String (Lex.peek 0 lx) "") (Lex.idx lx') ∧
       scanning lx' text).
Proof.
  intros He. unfold Lex.lexOperatorOrSymbol.
  pose proof (get_fields lx) as (Hs & _).
  pose proof (spans_get lx) as Hg.
  assert (Hc : fst (Lex.get lx) = Lex.peek 0 lx).
  { unfold Lex.get. rewrite He. by case_bool_decide. }
  destruct (Lex.get lx) as [c lx']. simpl in Hs, Hg, Hc. subst c. cbv zeta.
  assert (Ht : ∀ text, scanning lx text →
       spans text (Lex.idx lx) (String (Lex.peek 0 lx) "") (Lex.idx lx') ∧
       scanning lx' text).
  { intros text Hr. destruct (Hg text Hr He) as (? & ? & _). done. }
  destruct (bool_decide (Lex.peek 0 lx = "+"%char)) eqn:E1;
    [apply bool_decide_eq_true in E1; exists TokenKind.PLUS, lx';
     split; [reflexivity|]; split; [right; simpl; congruence|];
     split; [intros [] Hk; simpl in Hk; congruence|]; done|].
  destruct (bool_decide (Lex.peek 0 lx = "-"%char)) eqn:E2;
    [apply bool_decide_eq_true in E2; exists TokenKind.MINUS, lx';
     split; [reflexivity|]; split; [right; simpl; congruence|];
     split; [intros [] Hk; simpl in Hk; congruence|]; done|].
  destruct (bool_decide (Lex.peek 0 lx = "*"%char)) eqn:E3;
    [apply bool_decide_eq_true in E3; exists TokenKind.STAR, lx';
     split; [reflexivity|]; split; [right; simpl; congruence|];
     split; [intros [] Hk; simpl in Hk; congruence|]; done|].
  destruct (bool_decide (Lex.peek 0 lx = "/"%char)) eqn:E4;
    [apply bool_decide_eq_true in E4; exists TokenKind.SLASH, lx';
     split; [reflexivity|]; split; [right; simpl; congruence|];
     split; [intros [] Hk; simpl in Hk; congruence|]; done|].
  destruct (bool_decide (Lex.peek 0 lx = "="%char)) eqn:E5;
    [apply bool_decide_eq_true in E5; exists TokenKind.ASSIGN, lx';
     split; [reflexivity|]; split; [right; simpl; congruence|];
     split; [intros [] Hk; simpl in Hk; congruence|]; done|].
  destruct (bool_decide (Lex.peek 0 lx = ";"%char)) eqn:E6;
    [apply bool_decide_eq_true in E6; exists TokenKind.SEMICOLON, lx';
     split; [reflexivity|]; split; [right; simpl; congruence|];
     split; [intros [] Hk; simpl in Hk; congruence|]; done|].
  apply bool_decide_eq_false in E1, E2, E3, E4, E5, E6.
  exists TokenKind.UNKNOWN, lx'. split; [reflexivity|].
  split; [by left|].
  split; [intros [] Hk; simpl in Hk; congruence|]. done.
Qed.

(** The branches of [getNextToken] on a lexer that has a source, each
    with what it returns; [lx1] is the lexer after the white space. *)
Lemma getNextToken_cases lx s source :
  Lex.src lx = Some source →
  let lx1 := Lex.skipWhitespace lx in
  (Lex.eof lx1 = true ∧
   Lex.getNextToken lx s
   = (mkToken TokenKind.END_OF_FILE "<EOF>" (Lex.line lx1) (Lex.col lx1),
      lx1, s)) ∨
  (Lex.eof lx1 = false ∧
   ∃ t lx' s',
     Lex.getNextToken lx s = (t, lx', s') ∧
     tk_line t = Lex.line lx1 ∧ tk_column t = Lex.col lx1 ∧
     Lex.src lx' = Lex.src lx ∧
     (∃ rest, lexeme t = String (Lex.peek 0 lx1) rest) ∧
     (∀ text, scanning lx1 text →
        spans text (Lex.idx lx1) (lexeme t) (Lex.idx lx') ∧
        scanning lx' text) ∧
     ((Lex.isIdentStart (Lex.peek 0 lx1) = true ∧
       tk_kind t = TokenKind.IDENT ∧
       allChars Lex.isIdentBody (lexeme t) ∧
       (Lex.eof lx' = true ∨ Lex.isIdentBody (Lex.peek 0 lx') = false) ∧
       s' = if Lex.symtab lx &&
               negb (existsInCurrentScope (lexeme t) (fst s))
            then snd (insertTokenPlaceholder (lexeme t) (tk_line t) s)
            else s) ∨
      (Lex.isIdentStart (Lex.peek 0 lx1) = false ∧
       tk_kind t = TokenKind.FLOAT_LIT ∧ numberShape (lexeme t) ∧ s' = s) ∨
      (Lex.isIdentStart (Lex.peek 0 lx1) = false ∧
       Lex.isdigit (Lex.peek 0 lx1) = false ∧
       lexeme t = String (Lex.peek 0 lx1) "" ∧
       (tk_kind t = TokenKind.UNKNOWN ∨
        symbolOf (tk_kind t) = Some (Lex.peek 0 lx1)) ∧
       (∀ k', symbolOf k' = Some (Lex.peek 0 lx1) → tk_kind t = k') ∧
       s' = if bool_decide (tk_kind t = TokenKind.UNKNOWN)
            then (fst s, Lex.lexReportError
                           ("Unrecognized symbol '" +:+ lexeme t +:+ "'")
                           lx' (snd s))
            else s))).
Proof.
  intros Hsrc lx1. unfold Lex.getNextToken. rewrite Hsrc.
  fold lx1. cbv zeta.
  pose proof (skipWhitespace_fields lx) as (Hs1 & Hl1 & Hy1). fold lx1 in Hs1, Hl1, Hy1.
  destruct (Lex.eof lx1) eqn:He; [by left|]. right. split; [done|].
  destruct (Lex.isIdentStart (Lex.peek 0 lx1)) eqn:Hi.
  - destruct (lexIdentifier_result lx1 s He Hi)
      as (rest & lx' & Heq & Hall & Hsrc' & Htxt).
    pose proof (take_while_stops Lex.isIdentBody (Lex.remaining lx1) "" lx1
                  (Nat.le_refl _)) as Hstop.
    assert (Hlx' : lx' = snd (Lex.take_while Lex.isIdentBody
                                (Lex.remaining lx1) "" lx1)).
    { unfold Lex.lexIdentifier in Heq.
      destruct (Lex.take_while Lex.isIdentBody (Lex.remaining lx1) "" lx1).
      simpl. congruence. }
    rewrite <- Hlx' in Hstop.
    eexists _, lx', _. split; [exact Heq|]. simpl.
    split; [done|]. split; [done|]. split; [congruence|].
    split; [by eexists|]. split; [done|]. left.
    split; [done|]. split; [done|]. split; [done|]. split; [done|].
    by rewrite Hy1.
  - destruct (Lex.isdigit (Lex.peek 0 lx1) ||
              bool_decide (Lex.peek 0 lx1 = "."%char) &&
              Lex.isdigit (Lex.peek 1 lx1)) eqn:Hn.
    + destruct (lexNumber_result lx1 s He Hn)
        as (lex & lx' & Heq & Hshape & Hsrc' & Htxt).
      eexists _, lx', _. split; [exact Heq|]. simpl.
      split; [done|]. split; [done|]. split; [congruence|].
      split.
      { destruct (Lex.remaining lx1) as [|n] eqn:Er.
        { pose proof (remaining_pos _ He). lia. }
        clear Htxt. revert Heq. unfold Lex.lexNumber.
        pose proof (get_peek lx1 He) as Hget.
        case_bool_decide as Hdot.
        - destruct (Lex.get lx1) as [c lx2]. simpl in Hget. subst c.
          destruct (negb (Lex.isdigit (Lex.peek 0 lx2))); [congruence|].
          destruct (take_while_spec Lex.isdigit (Lex.remaining lx2)
                      (String (Lex.peek 0 lx1) "") lx2) as (b & Hb & _).
          destruct (Lex.take_while Lex.isdigit (Lex.remaining lx2)
                      (String (Lex.peek 0 lx1) "") lx2) as [l l2].
          simpl in Hb. intros [= <- _]. subst l. by eexists.
        - assert (Hd0 : Lex.isdigit (Lex.peek 0 lx1) = true).
          { apply orb_true_iff in Hn as [?|Hn]; [done|]. discriminate. }
          rewrite Er.
          destruct (take_while_spec Lex.isdigit (S n) "" lx1)
            as (a & Ha & _ & _ & _ & _ & _ & _ & Ha8).
          destruct (Ha8 ltac:(lia) He Hd0) as [rest Hrest].
          destruct (Lex.take_while Lex.isdigit (S n) "" lx1) as [l l1].
          simpl in Ha. change ("" +:+ a) with a in Ha. subst l a.
          case_bool_decide.
          + destruct (Lex.get l1) as [c l2].
            destruct (take_while_spec Lex.isdigit (Lex.remaining l2)
                        (String (Lex.peek 0 lx1) rest +:+ String c "") l2)
              as (b & Hb & _).
            destruct (Lex.take_while Lex.isdigit (Lex.remaining l2)
                        (String (Lex.peek 0 lx1) rest +:+ String c "") l2)
              as [l l3].
            simpl in Hb. intros [= <- _]. subst l.
            rewrite !string_app_cons. by eexists.
          + intros [= <- _]. by eexists. }
      split; [done|]. right. left. done.
    + destruct (lexOperatorOrSymbol_result lx1 s He)
        as (k & lx' & Heq & Hk & Hk' & Hsrc' & Htxt).
      eexists _, lx', _. split; [exact Heq|]. simpl.
      split; [done|]. split; [done|]. split; [congruence|].
      split; [by eexists|]. split; [done|]. right. right.
      apply orb_false_iff in Hn as [Hn _]. done.
Qed.

Lemma skipWhitespace_no_source lx :
  Lex.src lx = None → Lex.skipWhitespace lx = lx.
Proof.
  intros Hs. unfold Lex.skipWhitespace.
  rewrite take_while_stopped; [done|]. right.
  unfold Lex.peek. rewrite Hs. by case_bool_decide.
Qed.

Lemma skipWhitespace_at_end lx :
  Lex.eof lx = true → Lex.skipWhitespace lx = lx.
Proof.
  intros He. unfold Lex.skipWhitespace.
  rewrite take_while_stopped; [done|by left].
Qed.

Lemma allChars_cons p c s :
  allChars p (String c s) ↔ p c = true ∧ allChars p s.
Proof. unfold allChars. simpl. by rewrite Forall_cons. Qed.

Lemma numberShape_head lex :
  numberShape lex →
  ∃ c rest, lex = String c rest ∧
            (Lex.isdigit c = true ∨ (c = "."%char ∧ rest ≠ "")).
Proof.
  intros (a & b & Ha & Hb & Hn & [[-> ->] | ->]).
  - destruct a as [|c a]; [by destruct Hn|].
    apply allChars_cons in Ha as [Hc _]. exists c, a. split; [done|by left].
  - destruct a as [|c a].
    + destruct Hn as [?|Hn]; [done|]. destruct b as [|d b]; [done|].
      exists "."%char, (String d b). split; [done|]. by right.
    + apply allChars_cons in Ha as [Hc _]. rewrite string_app_cons.
      eexists c, _. split; [done|by left].
Qed.

(** X14: once [getNextToken] has returned END_OF_FILE, whose lexeme
    is [<EOF>], it returns the same token again and again: lexer, table
    and diagnostics do not change any more. *)
Theorem getNextToken_at_end lx s t lx' s' :
  Lex.getNextToken lx s = (t, lx', s') →
  tk_kind t = TokenKind.END_OF_FILE →
  lexeme t = "<EOF>" ∧ s' = s ∧ Lex.getNextToken lx' s' = (t, lx', s').
Proof.
  intros Heq Hk. destruct (Lex.src lx) as [source|] eqn:Hsrc.
  - destruct (getNextToken_cases lx s source Hsrc)
      as [[He Hr] | (He & t1 & lx1 & s1 & Hr & _ & _ & _ & _ & _ & Hc)].
    + rewrite Hr in Heq. injection Heq as <- <- <-.
      split; [done|]. split; [done|].
      unfold Lex.getNextToken.
      destruct (skipWhitespace_fields lx) as (-> & _). rewrite Hsrc.
      rewrite skipWhitespace_idem. by rewrite He.
    + rewrite Hr in Heq. injection Heq as -> -> ->.
      destruct Hc as [(_ & Hc & _)|[(_ & Hc & _)|(_ & _ & _ & Hc & _)]];
        try congruence.
      destruct Hc as [Hc|Hc]; [congruence|]. by rewrite Hk in Hc.
  - unfold Lex.getNextToken in *. rewrite Hsrc in Heq.
    injection Heq as <- <- <-. by rewrite Hsrc.
Qed.

Lemma getNextToken_at_end_witness :
  let lx := Lex.setSource "x  " (Lex.newLexer true) in
  let s := newSymbolTable in
  let r1 := Lex.getNextToken lx (s, newErrorHandler) in
  let r2 := Lex.getNextToken (snd (fst r1)) (snd r1) in
  lexeme (fst (fst r2)) = "<EOF>" ∧ snd r2 = snd r1 ∧
  Lex.getNextToken (snd (fst r2)) (snd r2) = r2.
Proof.
  intros lx s r1 r2.
  apply (getNextToken_at_end (snd (fst r1)) (snd r1)
           (fst (fst r2)) (snd (fst r2)) (snd r2)); reflexivity.
Defined.

(** X15: [getNextToken] records a diagnostic exactly when the token
    it returns is UNKNOWN: then one Lexical error is added, at the
    position the lexer has reached, and the table is untouched; with any
    other token the diagnostics are what they were. *)
Theorem unknown_iff_lexical_error lx s :
  let r := Lex.getNextToken lx s in
  (tk_kind (fst (fst r)) = TokenKind.UNKNOWN →
   fst (snd r) = fst s ∧
   ∃ msg, snd (snd r)
          = reportError ErrorPhase.LEXICAL msg
              (Lex.line (snd (fst r))) (Lex.col (snd (fst r))) (snd s)) ∧
  (tk_kind (fst (fst r)) ≠ TokenKind.UNKNOWN → snd (snd r) = snd s).
Proof.
  intros r. subst r. destruct (Lex.src lx) as [source|] eqn:Hsrc.
  - destruct (getNextToken_cases lx s source Hsrc)
      as [[He Hr] | (He & t1 & lx1 & s1 & Hr & _ & _ & _ & _ & _ & Hc)];
      rewrite Hr; simpl; [done|].
    destruct Hc as [(_ & Hc & _ & _ & ->)|[(_ & Hc & _ & ->)|
                    (_ & _ & _ & _ & _ & ->)]].
    + split; [congruence|]. intros _.
      destruct (Lex.symtab lx && _); [|done].
      destruct s as [st h]. apply insertTokenPlaceholder_result.
    + split; [congruence|done].
    + case_bool_decide as Hk; (split; [|done]); [|done].
      intros _. split; [done|]. by eexists.
  - unfold Lex.getNextToken. rewrite Hsrc. done.
Qed.

(** X16: an IDENT token's lexeme starts with a letter or an
    underscore and consists of letters, digits and underscores; it is as
    long as possible, the next character not being one of those; no
    diagnostic is recorded; a lexer without a table leaves everything
    alone, and a lexer with a table that has a frame leaves the name
    bound in the current frame. *)
Theorem identifier_token lx s t lx' s' :
  Lex.getNextToken lx s = (t, lx', s') →
  tk_kind t = TokenKind.IDENT →
  (∃ c rest, lexeme t = String c rest ∧ Lex.isIdentStart c = true) ∧
  allChars Lex.isIdentBody (lexeme t) ∧
  (Lex.eof lx' = true ∨ Lex.isIdentBody (Lex.peek 0 lx') = false) ∧
  snd s' = snd s ∧
  (Lex.symtab lx = false → s' = s) ∧
  (Lex.symtab lx = true → scopes (fst s) ≠ [] →
   existsInCurrentScope (lexeme t) (fst s') = true).
Proof.
  intros Heq Hk. destruct (Lex.src lx) as [source|] eqn:Hsrc.
  - destruct (getNextToken_cases lx s source Hsrc)
      as [[He Hr] | (He & t1 & lx1 & s1 & Hr & _ & _ & _ & Hh & _ & Hc)];
      rewrite Hr in Heq.
    { injection Heq as <- <- <-. done. }
    injection Heq as -> -> ->.
    destruct Hc as [(Hi & _ & Hall & Hstop & ->)|[(_ & Hc & _)|
                    (_ & _ & _ & Hc & _)]]; try congruence.
    + destruct Hh as [rest Hl].
      split; [by eexists _, _|]. split; [done|]. split; [done|].
      destruct s as [st h]. cbn [fst snd].
      pose proof (insertTokenPlaceholder_result (lexeme t) (tk_line t) st h)
        as (Hq & Hiff & _ & Hex).
      destruct (Lex.symtab lx); cbn [andb].
      * destruct (existsInCurrentScope (lexeme t) st) eqn:Ex; cbn [negb].
        { split; [done|]. split; [done|]. done. }
        split; [done|]. split; [done|]. intros _ Hne.
        assert (Hl0 : lookupLocal (lexeme t) st = None).
        { destruct (lookupLocal (lexeme t) st) eqn:E; [|done].
          assert (existsInCurrentScope (lexeme t) st = true)
            by (apply existsInCurrentScope_spec; by eexists).
          congruence. }
        destruct (Hex (proj2 Hiff (conj Hne Hl0))) as (e & He' & _).
        apply existsInCurrentScope_spec. by eexists.
      * split; [done|]. split; [done|]. done.
    + destruct Hc as [Hc|Hc]; [congruence|]. by rewrite Hk in Hc.
  - unfold Lex.getNextToken in Heq. rewrite Hsrc in Heq.
    injection Heq as <- <- <-. done.
Qed.

Lemma identifier_token_witness :
  let lx := Lex.setSource " rate_2+1" (Lex.newLexer true) in
  let r := Lex.getNextToken lx (newSymbolTable, newErrorHandler) in
  lexeme (fst (fst r)) = "rate_2" ∧
  allChars Lex.isIdentBody (lexeme (fst (fst r))) ∧
  existsInCurrentScope "rate_2" (fst (snd r)) = true.
Proof.
  intros lx r.
  destruct (identifier_token lx (newSymbolTable, newErrorHandler)
              (fst (fst r)) (snd (fst r)) (snd r))
    as (_ & H2 & _ & _ & _ & H6); [reflexivity|reflexivity|].
  split; [reflexivity|]. split; [exact H2|].
  apply H6; [reflexivity|]. vm_compute. discriminate.
Defined.

(** X17: a FLOAT_LIT token's lexeme is a number literal: digits,
    possibly followed by a dot and digits, or a dot followed by digits,
    with at least one digit; table and diagnostics are unchanged. *)
Theorem number_token lx s t lx' s' :
  Lex.getNextToken lx s = (t, lx', s') →
  tk_kind t = TokenKind.FLOAT_LIT →
  numberShape (lexeme t) ∧ s' = s.
Proof.
  intros Heq Hk. destruct (Lex.src lx) as [source|] eqn:Hsrc.
  - destruct (getNextToken_cases lx s source Hsrc)
      as [[He Hr] | (He & t1 & lx1 & s1 & Hr & _ & _ & _ & Hh & _ & Hc)];
      rewrite Hr in Heq.
    { injection Heq as <- <- <-. done. }
    injection Heq as -> -> ->.
    destruct Hc as [(_ & Hc & _)|[(_ & _ & Hn & ->)|
                    (_ & _ & _ & Hc & _)]]; try congruence; [done|].
    destruct Hc as [Hc|Hc]; [congruence|]. by rewrite Hk in Hc.
  - unfold Lex.getNextToken in Heq. rewrite Hsrc in Heq.
    injection Heq as <- <- <-. done.
Qed.

Lemma number_token_witness :
  let lx := Lex.setSource ".5x" (Lex.newLexer true) in
  let r := Lex.getNextToken lx (newSymbolTable, newErrorHandler) in
  numberShape ".5" ∧ snd r = (newSymbolTable, newErrorHandler).
Proof.
  intros lx r.
  apply (number_token lx (newSymbolTable, newErrorHandler)
           (fst (fst r)) (snd (fst r)) (snd r)); reflexivity.
Defined.

(** X18: the six operator and separator tokens are told by their
    lexeme: a token has such a kind exactly when its lexeme is the one
    character of that kind. *)
Theorem symbol_token lx s t lx' s' k c :
  Lex.getNextToken lx s = (t, lx', s') →
  symbolOf k = Some c →
  (tk_kind t = k ↔ lexeme t = String c "").
Proof.
  intros Heq Hsym.
  assert (Hnd : Lex.isdigit c = false ∧ Lex.isIdentStart c = false ∧
                c ≠ "."%char ∧ k ≠ TokenKind.END_OF_FILE ∧
                k ≠ TokenKind.IDENT ∧ k ≠ TokenKind.FLOAT_LIT ∧
                k ≠ TokenKind.UNKNOWN).
  { destruct k; simpl in Hsym; try discriminate;
      injection Hsym as <-; repeat split; done. }
  destruct Hnd as (Hd & Hi & Hdot & Hk1 & Hk2 & Hk3 & Hk4).
  destruct (Lex.src lx) as [source|] eqn:Hsrc.
  - destruct (getNextToken_cases lx s source Hsrc)
      as [[He Hr] | (He & t1 & lx1 & s1 & Hr & _ & _ & _ & Hh & _ & Hc)];
      rewrite Hr in Heq.
    { injection Heq as <- <- <-. simpl. split; [congruence|done]. }
    injection Heq as -> -> ->. destruct Hh as [rest Hl].
    destruct Hc as [(Hi1 & Hc & _)|[(_ & Hc & Hn & _)|
                    (_ & _ & Hl1 & Hc & Hc' & _)]].
    + split; [congruence|]. rewrite Hl. intros [= Hp _]. congruence.
    + split; [congruence|]. intros Hl2.
      destruct (numberShape_head _ Hn) as (d & r & Hd1 & [Hd2|[Hd2 _]]);
        rewrite Hl2 in Hd1; injection Hd1 as Hd1 _; congruence.
    + split.
      * intros <-. destruct Hc as [Hc|Hc]; [done|]. congruence.
      * rewrite Hl1. intros [= Hp]. apply Hc'. congruence.
  - unfold Lex.getNextToken in Heq. rewrite Hsrc in Heq.
    injection Heq as <- <- <-. simpl. split; [congruence|done].
Qed.

Lemma symbol_token_witness :
  let lx := Lex.setSource "  ;" (Lex.newLexer false) in
  let r := Lex.getNextToken lx (newSymbolTable, newErrorHandler) in
  tk_kind (fst (fst r)) = TokenKind.SEMICOLON ↔
  lexeme (fst (fst r)) = ";".
Proof.
  intros lx r.
  apply (symbol_token lx (newSymbolTable, newErrorHandler)
           (fst (fst r)) (snd (fst r)) (snd r)); reflexivity.
Defined.

(** X19: [getNextToken] consumes white space and then exactly the
    text of the token it returns: the source between the old and the new
    position is blank characters followed by the lexeme; at END_OF_FILE
    it is blank characters up to the end of the source. *)
Theorem token_is_source_slice lx s text t lx' s' :
  scanning lx text →
  Lex.getNextToken lx s = (t, lx', s') →
  scanning lx' text ∧
  ∃ blank, allChars Lex.isspace blank ∧
    if bool_decide (tk_kind t = TokenKind.END_OF_FILE)
    then spans text (Lex.idx lx) blank (Lex.idx lx') ∧
         String.length text ≤ Lex.idx lx'
    else spans text (Lex.idx lx) (blank +:+ lexeme t) (Lex.idx lx').
Proof.
  intros Hr Heq. pose proof Hr as [Hsrc Hlen].
  destruct (skipWhitespace_spans lx text Hr) as (blank & Hb & Hsp & Hr1).
  destruct (getNextToken_cases lx s text Hsrc)
    as [[He Hq] | (He & t1 & lx1 & s1 & Hq & _ & _ & _ & _ & Hs & Hc)];
    rewrite Hq in Heq.
  - injection Heq as <- <- <-. split; [done|]. exists blank.
    split; [done|]. simpl. split; [done|].
    unfold Lex.eof in He. apply bool_decide_eq_true in He.
    destruct Hr1 as [_ Hl1]. lia.
  - injection Heq as -> -> ->. destruct (Hs text Hr1) as [Hsp2 Hr2].
    split; [done|]. exists blank. split; [done|].
    rewrite bool_decide_eq_false_2.
    + by eapply spans_app.
    + destruct Hc as [(_ & Hc & _)|[(_ & Hc & _)|(_ & _ & _ & Hc & _)]];
        try congruence.
      destruct Hc as [Hc|Hc]; [congruence|]. intros Hk. by rewrite Hk in Hc.
Qed.

Lemma token_is_source_slice_witness :
  let text := "  n1 = 2;" in
  let lx := Lex.setSource text (Lex.newLexer true) in
  let r := Lex.getNextToken lx (newSymbolTable, newErrorHandler) in
  scanning (snd (fst r)) text ∧
  ∃ blank, allChars Lex.isspace blank ∧
           spans text 0 (blank +:+ "n1") 4.
Proof.
  intros text lx r.
  apply (token_is_source_slice lx (newSymbolTable, newErrorHandler) text
           (fst (fst r)) (snd (fst r)) (snd r)); [|reflexivity].
  split; reflexivity.
Defined.

(** Skipping white space before calling [getNextToken] changes
    nothing. *)
Lemma leading_whitespace_ignored lx s :
  Lex.getNextToken (Lex.skipWhitespace lx) s = Lex.getNextToken lx s.
Proof.
  destruct (Lex.src lx) as [source|] eqn:Hsrc.
  - unfold Lex.getNextToken.
    destruct (skipWhitespace_fields lx) as (-> & _). rewrite Hsrc.
    by rewrite skipWhitespace_idem.
  - by rewrite skipWhitespace_no_source.
Qed.

Lemma tokenize_loop_total fuel : ∀ lx s acc,
  Lex.remaining lx < fuel →
  ∃ toks t lx' s',
    tokenize_loop fuel lx s acc = Some ((acc ++ toks) ++ [t], lx', s') ∧
    tk_kind t = TokenKind.END_OF_FILE ∧
    Forall (λ u, tk_kind u ≠ TokenKind.END_OF_FILE) toks ∧
    List.length toks ≤ Lex.remaining lx.
Proof.
  induction fuel as [|fuel IH]; intros lx s acc Hf; [lia|]. simpl.
  pose proof (getNextToken_spec lx s) as [Hrem _].
  destruct (Lex.getNextToken lx s) as [[t lx1] s1]. simpl in Hrem.
  case_bool_decide as Hk.
  - exists [], t, lx1, s1. rewrite app_nil_r.
    split; [done|]. split; [done|]. split; [constructor|]. simpl. lia.
  - destruct (IH lx1 s1 (acc ++ [t]) ltac:(lia))
      as (toks & t' & lx' & s' & Heq & Hk' & Hall & Hlen).
    exists (t :: toks), t', lx', s'.
    split; [rewrite <- (app_assoc acc [t] toks) in Heq; exact Heq|].
    split; [done|].
    split; [by constructor|]. simpl. lia.
Qed.

(** X21: [tokenize] returns for every source: a list of tokens none
    of which is END_OF_FILE, at most one for each character, followed by
    exactly one END_OF_FILE token. *)
Theorem tokenize_total source lx s :
  ∃ toks t lx' s',
    tokenize source lx s = Some (toks ++ [t], lx', s') ∧
    tk_kind t = TokenKind.END_OF_FILE ∧
    Forall (λ u, tk_kind u ≠ TokenKind.END_OF_FILE) toks ∧
    List.length toks ≤ String.length source.
Proof.
  unfold tokenize.
  destruct (tokenize_loop_total (S (String.length source))
              (Lex.setSource source lx) s [])
    as (toks & t & lx' & s' & Heq & Hk & Hall & Hlen).
  { unfold Lex.remaining. simpl. lia. }
  exists toks, t, lx', s'. split; [done|]. split; [done|]. split; [done|].
  unfold Lex.remaining in Hlen. simpl in Hlen. lia.
Qed.

(** *** Lines and columns *)

Lemma walk_app a : ∀ b pos, walk (a +:+ b) pos = walk b (walk a pos).
Proof.
  induction a as [|c a IH]; intros b pos; [done|].
  rewrite string_app_cons. simpl. apply IH.
Qed.

Lemma positionAt_step text i c :
  String.get i text = Some c →
  positionAt text (S i) = walk (String c "") (positionAt text i).
Proof.
  intros Hg. unfold positionAt.
  replace (S i) with (i + 1) by lia.
  rewrite substring_add, walk_app. simpl (0 + i).
  by rewrite (substring_step _ _ _ _ Hg), substring_zero.
Qed.

Lemma setSource_located source lx : located source (Lex.setSource source lx).
Proof.
  split; [done|]. unfold positionAt. simpl. by rewrite substring_zero.
Qed.

Lemma get_located text lx : located text lx → located text (snd (Lex.get lx)).
Proof.
  intros [Hr Hp]. destruct (Lex.eof lx) eqn:He.
  { unfold Lex.get. by rewrite He. }
  pose proof (get_char lx text Hr He) as Hc.
  pose proof (get_peek lx He) as Hk.
  destruct (spans_get lx text Hr He) as (_ & Hr' & _).
  split; [done|].
  pose proof (get_fields lx) as (_ & _ & _ & Hi). rewrite He in Hi.
  rewrite Hi, Nat.add_1_r, (positionAt_step _ _ _ Hc), <- Hp, Hk.
  unfold Lex.get. rewrite He. simpl.
  by destruct (bool_decide (Lex.peek 0 lx = "010"%char)).
Qed.

(** What [get] preserves, every method of the lexer preserves. *)
Section GetInvariant.

Context (P : Lex.Lexer → Prop).
Context (Hget : ∀ lx, P lx → P (snd (Lex.get lx))).

Lemma take_while_keeps p fuel : ∀ lex lx,
  P lx → P (snd (Lex.take_while p fuel lex lx)).
Proof.
  induction fuel as [|fuel IH]; intros lex lx Hl; [done|]. simpl.
  destruct (negb (Lex.eof lx) && p (Lex.peek 0 lx)); [|done].
  pose proof (Hget lx Hl) as Hg.
  destruct (Lex.get lx) as [c lx1]. by apply IH.
Qed.

Lemma lexIdentifier_keeps lx s :
  P lx → P (snd (fst (Lex.lexIdentifier lx s))).
Proof.
  intros Hl. unfold Lex.lexIdentifier.
  pose proof (take_while_keeps Lex.isIdentBody (Lex.remaining lx) "" lx Hl)
    as H.
  by destruct (Lex.take_while _ _ _ _) as [lex lx'].
Qed.

Lemma lexNumber_keeps lx s : P lx → P (snd (fst (Lex.lexNumber lx s))).
Proof.
  intros Hl. unfold Lex.lexNumber.
  destruct (bool_decide (Lex.peek 0 lx = "."%char)).
  - pose proof (Hget lx Hl) as Hg.
    destruct (Lex.get lx) as [c lx1]. simpl in Hg.
    destruct (negb (Lex.isdigit (Lex.peek 0 lx1))); [done|].
    pose proof (take_while_keeps Lex.isdigit (Lex.remaining lx1)
                  (String c "") lx1 Hg) as H.
    by destruct (Lex.take_while _ _ _ _) as [lex lx2].
  - pose proof (take_while_keeps Lex.isdigit (Lex.remaining lx) "" lx Hl)
      as H.
    destruct (Lex.take_while _ _ _ _) as [lex lx1]. simpl in H.
    destruct (bool_decide (Lex.peek 0 lx1 = "."%char)); [|done].
    pose proof (Hget lx1 H) as Hg.
    destruct (Lex.get lx1) as [c lx2]. simpl in Hg.
    pose proof (take_while_keeps Lex.isdigit (Lex.remaining lx2)
                  (lex +:+ String c "") lx2 Hg) as H2.
    by destruct (Lex.take_while _ _ _ _) as [lex' lx3].
Qed.

Lemma lexOperatorOrSymbol_keeps lx s :
  P lx → P (snd (fst (Lex.lexOperatorOrSymbol lx s))).
Proof.
  intros Hl. unfold Lex.lexOperatorOrSymbol.
  pose proof (Hget lx Hl) as Hg.
  destruct (Lex.get lx) as [c lx']. cbv zeta.
  by repeat destruct (bool_decide (c = _)).
Qed.

Lemma getNextToken_keeps lx s : P lx → P (snd (fst (Lex.getNextToken lx s))).
Proof.
  intros Hl. unfold Lex.getNextToken.
  destruct (Lex.src lx); [|done]. cbv zeta.
  pose proof (take_while_keeps Lex.isspace (Lex.remaining lx) "" lx Hl) as Hs.
  fold (Lex.skipWhitespace lx) in Hs.
  destruct (Lex.eof (Lex.skipWhitespace lx)); [done|].
  destruct (Lex.isIdentStart _); [by apply lexIdentifier_keeps|].
  destruct (_ || _);
    [by apply lexNumber_keeps|by apply lexOperatorOrSymbol_keeps].
Qed.

End GetInvariant.

Lemma take_while_located text p fuel lex lx :
  located text lx → located text (snd (Lex.take_while p fuel lex lx)).
Proof. apply take_while_keeps, get_located. Qed.

Lemma getNextToken_located text lx s :
  located text lx → located text (snd (fst (Lex.getNextToken lx s))).
Proof. apply getNextToken_keeps, get_located. Qed.

Lemma getNextToken_symtab lx s :
  Lex.symtab (snd (fst (Lex.getNextToken lx s))) = Lex.symtab lx.
Proof.
  apply (getNextToken_keeps (fun l => Lex.symtab l = Lex.symtab lx)); [|done].
  intros l Hl. pose proof (get_fields l) as (_ & _ & Hy & _). congruence.
Qed.

(** X20: the line and column a token carries are those of its first
    character in the source, lines and columns counted from 1 and a new
    line starting after each newline character; at END_OF_FILE they are
    those of the position reached.  The lexer's own line and column keep
    matching its index. *)
Theorem token_position text lx s t lx' s' :
  located text lx →
  Lex.getNextToken lx s = (t, lx', s') →
  located text lx' ∧
  (tk_line t, tk_column t)
  = positionAt text
      (if bool_decide (tk_kind t = TokenKind.END_OF_FILE) then Lex.idx lx'
       else Lex.idx lx' - String.length (lexeme t)).
Proof.
  intros Hl Heq.
  pose proof (getNextToken_located text lx s Hl) as Hl'.
  rewrite Heq in Hl'. split; [done|].
  pose proof Hl as [[Hsrc Hlen] _].
  pose proof (take_while_located text Lex.isspace (Lex.remaining lx) "" lx Hl)
    as [Hr1 Hp1]. fold (Lex.skipWhitespace lx) in Hr1, Hp1.
  destruct (getNextToken_cases lx s text Hsrc)
    as [[He Hq] | (He & t1 & lx1 & s1 & Hq & Hln & Hcl & _ & _ & Hs & Hc)];
    rewrite Hq in Heq.
  - injection Heq as <- <- <-. by simpl.
  - injection Heq as -> -> ->. destruct (Hs text Hr1) as [[Hj _] _].
    rewrite bool_decide_eq_false_2.
    + rewrite Hln, Hcl, Hp1. f_equal. lia.
    + destruct Hc as [(_ & Hc & _)|[(_ & Hc & _)|(_ & _ & _ & Hc & _)]];
        try congruence.
      destruct Hc as [Hc|Hc]; [congruence|]. intros Hk. by rewrite Hk in Hc.
Qed.

Lemma token_position_witness :
  let text := "a = 1;" +:+ String "010"%char "  bb = a;" in
  let lx := Lex.setSource text (Lex.newLexer true) in
  let r1 := Lex.getNextToken lx (newSymbolTable, newErrorHandler) in
  let r2 := Lex.getNextToken (snd (fst r1)) (snd r1) in
  let r3 := Lex.getNextToken (snd (fst r2)) (snd r2) in
  let r4 := Lex.getNextToken (snd (fst r3)) (snd r3) in
  let r5 := Lex.getNextToken (snd (fst r4)) (snd r4) in
  lexeme (fst (fst r5)) = "bb" ∧
  (tk_line (fst (fst r5)), tk_column (fst (fst r5))) = (2, 3)%Z ∧
  (2, 3)%Z = positionAt text 9.
Proof.
  intros text lx r1 r2 r3 r4 r5. split; [reflexivity|].
  split; [reflexivity|].
  destruct (token_position text (snd (fst r4)) (snd r4)
              (fst (fst r5)) (snd (fst r5)) (snd r5)) as [_ H];
    [|reflexivity|exact H].
  repeat apply getNextToken_located. apply setSource_located.
Defined.

(** ** Dead-code eliminator: what is retained *)

Lemma initialLive_elem tac sym d :
  d ∈ initialLive tac sym ↔
  d ∈ (dest <$> tac) ∧ d ≠ "" ∧ starts_with_t d = false ∧
  ∀ e, e ∈ getUnusedEntries sym → name e ≠ d.
Proof.
  rewrite initialLive_seed. unfold liveSeed, declarable,
    DCESpec.unusedNames.
  rewrite elem_of_list_to_set, list_elem_of_filter.
  split.
  - intros [[[? ?] Hn] Hd]. split; [done|]. split; [done|]. split; [done|].
    intros e He Hne. apply Hn. apply list_elem_of_fmap. exists e.
    by split.
  - intros (Hd & ? & ? & Hn). split; [|done]. split; [done|].
    intros (e & He1 & He2)%list_elem_of_fmap. by eapply Hn.
Qed.

Lemma reconstruct_sublist l ks : reconstruct l ks `sublist_of` l.
Proof.
  revert ks. induction l as [|x l IH]; intros ks; simpl; [constructor|].
  destruct ks as [|k ks]; [apply sublist_nil_l|].
  destruct k; [by apply sublist_skip|by apply sublist_cons].
Qed.

(** X22: elimination only removes instructions: the result is the
    input with some instructions left out, in the same order. *)
Theorem eliminate_sublist tac sym :
  eliminate tac sym `sublist_of` tac.
Proof. apply reconstruct_sublist. Qed.

(** X23: an instruction is retained exactly when its destination is
    not empty and either it is a name that does not start with [t] and
    that the unused-entries report does not list, or a retained
    instruction further down reads it. *)
Theorem keepFlags_spec tac sym i a :
  tac !! i = Some a →
  keepFlags tac sym !! i = Some true ↔
  dest a ≠ "" ∧
  ((starts_with_t (dest a) = false ∧
    ∀ e, e ∈ getUnusedEntries sym → name e ≠ dest a) ∨
   ∃ j u, i < j ∧ tac !! j = Some u ∧ keepFlags tac sym !! j = Some true ∧
          dest a ∈ usesOf u).
Proof.
  intros Hi. rewrite keepFlags_scan, <- initialLive_seed.
  rewrite (scan_flag _ _ _ _ Hi), initialLive_elem.
  split; intros [Hne H]; (split; [done|]).
  - destruct H as [(_ & _ & ? & ?)|H]; [by left|by right].
  - destruct H as [[? ?]|H]; [left|by right].
    split; [|done]. apply list_elem_of_fmap. exists a. split; [done|].
    by eapply list_elem_of_lookup_2.
Qed.

Lemma keepFlags_spec_witness :
  let tac := [mkTacInst TACOp.LOAD_CONST "t0" "" "" "1.0";
              mkTacInst TACOp.ASSIGN "x" "t0" "" ""] in
  keepFlags tac newSymbolTable !! 0 = Some true ↔
  "t0" ≠ "" ∧
  ((starts_with_t "t0" = false ∧
    ∀ e, e ∈ getUnusedEntries newSymbolTable → name e ≠ "t0") ∨
   ∃ j u, 0 < j ∧ tac !! j = Some u ∧
          keepFlags tac newSymbolTable !! j = Some true ∧
          "t0" ∈ usesOf u).
Proof.
  intros tac.
  apply (keepFlags_spec tac newSymbolTable 0
           (mkTacInst TACOp.LOAD_CONST "t0" "" "" "1.0")).
  reflexivity.
Defined.

Lemma scan_nothing_live l :
  scan l ∅ = (∅, replicate (length l) false).
Proof.
  induction l as [|x l IH]; [done|]. simpl. rewrite IH.
  unfold needed. rewrite bool_decide_eq_false_2 by set_solver.
  by rewrite andb_false_r.
Qed.

Lemma reconstruct_none l : reconstruct l (replicate (length l) false) = [].
Proof. induction l as [|x l IH]; [done|]. simpl. exact IH. Qed.

(** X24: when every destination that is not a temporary belongs to
    an entry of the unused-entries report, nothing is retained. *)
Theorem eliminate_all_unused tac sym :
  (∀ x, x ∈ tac → dest x ≠ "" → starts_with_t (dest x) = false →
        ∃ e, e ∈ getUnusedEntries sym ∧ name e = dest x) →
  eliminate tac sym = [].
Proof.
  intros H. rewrite eliminate_scan, <- initialLive_seed.
  assert (initialLive tac sym = ∅) as ->.
  { apply set_eq. intros d. rewrite initialLive_elem. split; [|set_solver].
    intros ((x & -> & Hx)%list_elem_of_fmap & Hne & Ht & Hn).
    destruct (H x Hx Hne Ht) as (e & He & Hd). by destruct (Hn e He). }
  rewrite scan_nothing_live. apply reconstruct_none.
Qed.

Lemma eliminate_all_unused_witness :
  eliminate [mkTacInst TACOp.LOAD_CONST "t0" "" "" "1.0";
             mkTacInst TACOp.ADD "t1" "t0" "t0" ""] newSymbolTable = [].
Proof.
  apply eliminate_all_unused. intros x Hx Hne Ht.
  apply elem_of_cons in Hx as [->|Hx]; [discriminate Ht|].
  apply elem_of_cons in Hx as [->|Hx]; [discriminate Ht|].
  by apply elem_of_nil in Hx.
Defined.

(** ** TAC generator: invariants *)

Lemma tableGrows_refl st : tableGrows st st.
Proof. done. Qed.

Lemma tableGrows_trans a b c : tableGrows a b → tableGrows b c → tableGrows a c.
Proof.
  intros (H1 & H2 & H3) (G1 & G2 & G3). split; [congruence|].
  split; [tauto|]. intros j m H. by apply G3, H3.
Qed.

Lemma store_grows i n e st :
  (keyed st → name e = n) →
  (∀ e0, entryAt i n st = Some e0 → is_used e0 = true → is_used e = true) →
  tableGrows st (store i n e st).
Proof.
  intros Hn Hu. split; [apply store_length|]. split.
  - intros Hk j k e' H. rewrite entryAt_store in H. case_decide as Hd.
    + destruct Hd as (-> & -> & _). injection H as <-. by apply Hn.
    + by eapply Hk.
  - intros j m (e0 & He0 & Hu0). apply usedAt_store; [by exists e0|].
    intros [= <- <-]. by eapply Hu.
Qed.

Lemma reindex_grows st k : tableGrows st (mkSymbolTable (scopes st) k).
Proof.
  split; [done|]. split.
  - intros Hk j n e H. by apply (Hk j n e).
  - intros j m (e & He & Hu). by exists e.
Qed.

Lemma insert_grows entry s :
  tableGrows (fst s) (fst (snd (insert entry s))).
Proof.
  destruct s as [st h]. cbn [fst].
  destruct (lookupLocal (name entry) st) as [x|] eqn:Hl.
  { rewrite (insert_present _ _ _ _ Hl). apply tableGrows_refl. }
  destruct (decide (scopes st = [])) as [He|Hne].
  { rewrite insert_no_frame by done. apply tableGrows_refl. }
  rewrite (insert_fresh_eq _ _ _ Hne Hl). cbn [fst snd].
  eapply tableGrows_trans; [apply (reindex_grows st)|].
  apply store_grows.
  - intros _. unfold stored. by destruct (is_empty _).
  - intros e0 He0. rewrite lookupLocal_entryAt in Hl.
    change (entryAt (backIndex st) (name entry) st = Some e0) in He0.
    congruence.
Qed.

Lemma insertTokenPlaceholder_grows n l s :
  tableGrows (fst s) (fst (snd (insertTokenPlaceholder n l s))).
Proof.
  unfold insertTokenPlaceholder.
  destruct (existsInCurrentScope n (fst s)); [apply tableGrows_refl|].
  apply insert_grows.
Qed.

Lemma lookup_entryAt n st i e :
  lookup n st = Some (i, e) → entryAt i n st = Some e.
Proof.
  intros H. unfold lookup in H. apply lookup_from_spec in H. tauto.
Qed.

Lemma markUsed_grows n s : tableGrows (fst s) (fst (markUsed n s)).
Proof.
  destruct s as [st h]. cbn [fst].
  destruct (lookup n st) as [[i e]|] eqn:Hl.
  - rewrite (markUsed_found _ _ _ _ _ Hl). cbn [fst].
    apply store_grows; [|done].
    intros Hk. apply (Hk i n e). by apply lookup_entryAt.
  - rewrite (markUsed_unfound _ _ _ Hl). cbn [fst]. by apply store_grows.
Qed.

Lemma updateEntry_grows n f s :
  (∀ e, name (f e) = name e) →
  (∀ e, is_used e = true → is_used (f e) = true) →
  tableGrows (fst s) (fst (snd (updateEntry n f s))).
Proof.
  intros Hn Hu. destruct s as [st h]. cbn [fst].
  destruct (lookupLocal n st) as [e|] eqn:Hl.
  - rewrite (updateEntry_present _ _ _ _ _ Hl). cbn [fst snd].
    rewrite lookupLocal_entryAt in Hl. apply store_grows.
    + intros Hk. rewrite Hn. by apply (Hk _ _ _ Hl).
    + intros e0 He0 Hu0. apply Hu. congruence.
  - destruct (decide (scopes st = [])) as [He|Hne].
    { rewrite updateEntry_no_frame by done. apply tableGrows_refl. }
    rewrite (updateEntry_absent _ _ _ _ Hne Hl). cbn [fst snd].
    eapply tableGrows_trans; [apply (reindex_grows st)|].
    eapply tableGrows_trans; [apply store_grows|apply store_grows].
    + intros _. unfold stored. by destruct (is_empty _).
    + intros e0 He0. rewrite lookupLocal_entryAt in Hl.
      change (entryAt (backIndex st) n st = Some e0) in He0. congruence.
    + intros _. rewrite Hn. unfold stored. by destruct (is_empty _).
    + intros e0 He0 Hu0. apply Hu. rewrite entryAt_store in He0.
      case_decide as Hd; [congruence|]. rewrite lookupLocal_entryAt in Hl.
      change (entryAt (backIndex st) n st = Some e0) in He0. congruence.
Qed.

Lemma declare_grows lhs l s : tableGrows (fst s) (fst (declare lhs l s)).
Proof.
  unfold declare. destruct (lookup lhs (fst s)) as [[i e]|].
  - destruct (is_dummy e); [|apply tableGrows_refl].
    by apply updateEntry_grows.
  - apply insert_grows.
Qed.

Lemma getNextToken_token lx s :
  tokenOK (fst (fst (Lex.getNextToken lx s))) ∧
  tableGrows (fst s) (fst (snd (Lex.getNextToken lx s))).
Proof.
  destruct (Lex.src lx) as [source|] eqn:Hsrc.
  - destruct (getNextToken_cases lx s source Hsrc)
      as [[He Hr] | (He & t1 & lx1 & s1 & Hr & _ & _ & _ & Hh & _ & Hc)];
      rewrite Hr; cbn [fst snd].
    { split; [by split|apply tableGrows_refl]. }
    destruct Hh as [rest Hl].
    destruct Hc as [(_ & Hk & _ & _ & ->)|[(_ & Hk & Hn & ->)|
                    (_ & _ & _ & Hk & _ & ->)]].
    + split; [split; [by rewrite Hl|congruence]|].
      destruct (Lex.symtab lx && _); [|apply tableGrows_refl].
      apply insertTokenPlaceholder_grows.
    + split; [split; [congruence|done]|apply tableGrows_refl].
    + split.
      * destruct Hk as [Hk|Hk]; [split; congruence|].
        split; intros E; by rewrite E in Hk.
      * case_bool_decide; apply tableGrows_refl.
  - unfold Lex.getNextToken. rewrite Hsrc. cbn [fst snd].
    split; [by split|apply tableGrows_refl].
Qed.

Lemma markUsed_used n st h :
  length (scopes st) = 1 → usedAt 0 n (fst (markUsed n (st, h))).
Proof.
  intros Hlen. destruct (lookup n st) as [[i e]|] eqn:Hl.
  - rewrite (markUsed_found _ _ _ _ _ Hl). cbn [fst].
    apply lookup_entryAt in Hl.
    assert (i = 0) as ->.
    { destruct i as [|i]; [done|].
      rewrite entryAt_out_of_range in Hl by lia. done. }
    exists (set_is_used true e). rewrite entryAt_store.
    rewrite decide_True by (repeat split; lia). done.
  - rewrite (markUsed_unfound _ _ _ Hl). cbn [fst].
    exists (usedDummy n). rewrite entryAt_store.
    rewrite decide_True by (repeat split; lia). done.
Qed.

Lemma operandOK_grows st st' a :
  tableGrows st st' → operandOK st a → operandOK st' a.
Proof.
  intros (_ & _ & Hu) [Hne [Ht|Hused]]; (split; [done|]);
    [by left|right; by apply Hu].
Qed.

Lemma instOK_grows st st' x : tableGrows st st' → instOK st x → instOK st' x.
Proof.
  intros Hg. unfold instOK.
  destruct (op x); try done.
  - intros (? & ? & ? & ? & ?). pose proof Hg as (_ & _ & Hu).
    split; [done|]. split; [by apply Hu|].
    split; [by eapply operandOK_grows|done].
  - intros (? & ? & ? & ?). split; [done|].
    split; [by eapply operandOK_grows|].
    split; [by eapply operandOK_grows|done].
  - intros (? & ? & ? & ?). split; [done|].
    split; [by eapply operandOK_grows|].
    split; [by eapply operandOK_grows|done].
  - intros (? & ? & ? & ?). split; [done|].
    split; [by eapply operandOK_grows|].
    split; [by eapply operandOK_grows|done].
  - intros (? & ? & ? & ?). split; [done|].
    split; [by eapply operandOK_grows|].
    split; [by eapply operandOK_grows|done].
Qed.

Lemma consistent_table w st h t lx :
  consistent w → tableGrows (table w) st → tokenOK t →
  consistent (mkWorld lx st h t (tempCounter w) (freeTemps w) (out w)).
Proof.
  intros (H1 & H2 & H3 & H4 & H5) Hg Ht. pose proof Hg as (G1 & G2 & G3).
  unfold consistent. cbn.
  split; [congruence|]. split; [tauto|]. split; [done|]. split; [done|].
  eapply Forall_impl; [exact H5|]. intros x. by apply instOK_grows.
Qed.

(** Running a bind that returned. *)
Lemma bind_inv {A B} (m : Gen A) (k : A → Gen B) w b w' :
  bind m k w = Some (b, w') →
  ∃ a w1, m w = Some (a, w1) ∧ k a w1 = Some (b, w').
Proof.
  unfold bind. destruct (m w) as [[a w1]|]; [|done]. intros H.
  by exists a, w1.
Qed.

Lemma nextToken_consistent w t w' :
  nextToken w = Some (t, w') → consistent w →
  consistent w' ∧ tableGrows (table w) (table w') ∧ t = cur w.
Proof.
  unfold nextToken. intros H Hc.
  pose proof (getNextToken_token (lexer w) (table w, handler w)) as [Ht Hg].
  destruct (Lex.getNextToken (lexer w) (table w, handler w))
    as [[t1 lx] [st h]]. cbn [fst snd] in *.
  injection H as <- <-. split; [by apply consistent_table|]. done.
Qed.

Lemma advance_consistent w u w' :
  advance w = Some (u, w') → consistent w →
  consistent w' ∧ tableGrows (table w) (table w').
Proof.
  unfold advance. intros H Hc.
  pose proof (getNextToken_token (lexer w) (table w, handler w)) as [Ht Hg].
  destruct (Lex.getNextToken (lexer w) (table w, handler w))
    as [[t1 lx] [st h]]. cbn [fst snd] in *.
  injection H as <- <-. split; [by apply consistent_table|]. done.
Qed.

Lemma reportAtCur_consistent p msg w u w' :
  reportAtCur p msg w = Some (u, w') → consistent w →
  consistent w' ∧ table w' = table w.
Proof.
  unfold reportAtCur. intros [= <- <-] Hc. split; [|done].
  apply consistent_table; [done|apply tableGrows_refl|apply Hc].
Qed.

Lemma newTemp_consistent w d w' :
  newTemp w = Some (d, w') → consistent w →
  consistent w' ∧ table w' = table w ∧ starts_with_t d = true.
Proof.
  unfold newTemp. intros H (H1 & H2 & H3 & H4 & H5).
  destruct (freeTemps w) as [|t rest] eqn:Ef; injection H as <- <-.
  - split; [|done]. unfold consistent. by cbn.
  - apply Forall_cons in H4 as [Ht Hrest].
    split; [|done]. unfold consistent. by cbn.
Qed.

Lemma push_back_consistent i w u w' :
  push_back i w = Some (u, w') → consistent w → instOK (table w) i →
  consistent w' ∧ table w' = table w.
Proof.
  unfold push_back. intros [= <- <-] (H1 & H2 & H3 & H4 & H5) Hi.
  split; [|done]. unfold consistent. cbn.
  split; [done|]. split; [done|]. split; [done|]. split; [done|].
  apply Forall_app. split; [done|]. by constructor.
Qed.

Lemma release_consistent x w u w' :
  release x w = Some (u, w') → consistent w →
  consistent w' ∧ table w' = table w.
Proof.
  unfold release. intros H (H1 & H2 & H3 & H4 & H5).
  destruct (starts_with_t x) eqn:Ex; injection H as <- <-; (split; [|done]).
  - unfold consistent. cbn. split; [done|]. split; [done|]. split; [done|].
    split; [by constructor|done].
  - done.
Qed.

Lemma markUsed_consistent n w u w' :
  onSym (fun s => (tt, markUsed n s)) w = Some (u, w') → consistent w →
  consistent w' ∧ tableGrows (table w) (table w') ∧ usedAt 0 n (table w').
Proof.
  unfold onSym. intros H Hc.
  pose proof (markUsed_grows n (table w, handler w)) as Hg.
  pose proof (markUsed_used n (table w) (handler w) (proj1 Hc)) as Hu.
  destruct (markUsed n (table w, handler w)) as [st h]. cbn [fst snd] in *.
  injection H as <- <-. cbn.
  split; [apply consistent_table; [done|done|apply Hc]|]. done.
Qed.

Lemma declare_consistent lhs l w u w' :
  onSym (fun s => (tt, declare lhs l s)) w = Some (u, w') → consistent w →
  consistent w' ∧ tableGrows (table w) (table w').
Proof.
  unfold onSym. intros H Hc.
  pose proof (declare_grows lhs l (table w, handler w)) as Hg.
  destruct (declare lhs l (table w, handler w)) as [st h]. cbn [fst snd] in *.
  injection H as <- <-. cbn.
  split; [apply consistent_table; [done|done|apply Hc]|]. done.
Qed.

Ltac bind_step H a w1 H1 :=
  apply bind_inv in H as (a & w1 & H1 & H).

Lemma parseFactor_consistent : yields parseFactor.
Proof.
  intros w r w' H Hc. unfold parseFactor in H.
  bind_step H k w1 H1. injection H1 as <- <-.
  case_bool_decide as Hk; [|case_bool_decide as Hf].
  - bind_step H t w1 H1. injection H1 as <- <-.
    bind_step H u w1 H1.
    apply markUsed_consistent in H1 as (Hc1 & Hg1 & Hu1); [|done].
    bind_step H t2 w2 H2.
    apply nextToken_consistent in H2 as (Hc2 & Hg2 & _); [|done].
    injection H as <- <-. split; [done|].
    split; [by eapply tableGrows_trans|].
    intros n [= <-]. split; [by apply Hc|].
    right. by apply Hg2.
  - bind_step H t w1 H1. injection H1 as <- <-.
    bind_step H d w1 H1.
    apply newTemp_consistent in H1 as (Hc1 & Ht1 & Hd); [|done].
    bind_step H u w2 H2.
    apply push_back_consistent in H2 as (Hc2 & Ht2); [|done|].
    2:{ unfold instOK. cbn. split; [done|]. split; [done|]. split; [done|].
        by apply Hc. }
    bind_step H t3 w3 H3.
    apply nextToken_consistent in H3 as (Hc3 & Hg3 & _); [|done].
    injection H as <- <-. split; [done|].
    split; [by rewrite <- Ht1, <- Ht2|].
    intros n [= <-]. split; [by apply starts_with_t_nonempty|by left].
  - bind_step H u w1 H1.
    apply reportAtCur_consistent in H1 as (Hc1 & Ht1); [|done].
    injection H as <- <-. split; [done|].
    split; [rewrite Ht1; apply tableGrows_refl|done].
Qed.

(** The shared end of both binary folds. *)
Lemma fold_tail_consistent (o1 o2 : TACOp.t) (b : bool) left_ right_
    (k : string → Gen (option string)) w r w' :
  (d <- newTemp ;;
   (if b then emitBinary o1 d left_ right_
    else emitBinary o2 d left_ right_) ;;;
   release left_ ;;; release right_ ;;; k d) w = Some (r, w') →
  o1 ∈ [TACOp.ADD; TACOp.SUB; TACOp.MUL; TACOp.DIV] →
  o2 ∈ [TACOp.ADD; TACOp.SUB; TACOp.MUL; TACOp.DIV] →
  consistent w → operandOK (table w) left_ → operandOK (table w) right_ →
  ∃ d w1, k d w1 = Some (r, w') ∧ consistent w1 ∧ table w1 = table w ∧
          operandOK (table w1) d.
Proof.
  intros H Ho1 Ho2 Hc Hl Hr.
  bind_step H d w1 H1.
  apply newTemp_consistent in H1 as (Hc1 & Ht1 & Hd); [|done].
  bind_step H u w2 H2.
  assert (Hi : ∀ o, o ∈ [TACOp.ADD; TACOp.SUB; TACOp.MUL; TACOp.DIV] →
                    instOK (table w1) (mkTacInst o d left_ right_ "")).
  { intros o Ho. rewrite Ht1. unfold instOK. cbn.
    repeat (apply elem_of_cons in Ho as [->|Ho]; [done|]).
    by apply elem_of_nil in Ho. }
  assert (Hc2 : consistent w2 ∧ table w2 = table w1).
  { destruct b; eapply push_back_consistent; eauto. }
  destruct Hc2 as [Hc2 Ht2].
  bind_step H u3 w3 H3.
  apply release_consistent in H3 as (Hc3 & Ht3); [|done].
  bind_step H u4 w4 H4.
  apply release_consistent in H4 as (Hc4 & Ht4); [|done].
  exists d, w4. split; [done|]. split; [done|].
  split; [congruence|].
  split; [by apply starts_with_t_nonempty|by left].
Qed.

Lemma parseTerm_loop_consistent fuel : ∀ left_ w r w',
  parseTerm_loop fuel left_ w = Some (r, w') →
  consistent w → operandOK (table w) left_ →
  consistent w' ∧ tableGrows (table w) (table w') ∧
  ∀ n, r = Some n → operandOK (table w') n.
Proof.
  induction fuel as [|fuel IH]; intros left_ w r w' H Hc Hl; [done|].
  simpl in H. bind_step H k w1 H1. injection H1 as <- <-.
  destruct (bool_decide (tk_kind (cur w) = TokenKind.STAR) ||
            bool_decide (tk_kind (cur w) = TokenKind.SLASH)).
  - bind_step H t w1 H1.
    apply nextToken_consistent in H1 as (Hc1 & Hg1 & _); [|done].
    bind_step H f w2 H2.
    destruct (parseFactor_consistent _ _ _ H2 Hc1) as (Hc2 & Hg2 & Hf).
    destruct f as [right_|].
    + apply fold_tail_consistent in H as (d & w3 & H & Hc3 & Ht3 & Hd);
        [|set_solver|set_solver|done| |by apply Hf].
      2:{ eapply operandOK_grows; [|exact Hl].
          by eapply tableGrows_trans. }
      destruct (IH _ _ _ _ H Hc3 Hd) as (Hc4 & Hg4 & Hr).
      split; [done|]. split; [|done].
      eapply tableGrows_trans; [exact Hg1|].
      eapply tableGrows_trans; [exact Hg2|]. by rewrite <- Ht3.
    + bind_step H u w3 H3.
      apply reportAtCur_consistent in H3 as (Hc3 & Ht3); [|done].
      injection H as <- <-. split; [done|]. split; [|done].
      rewrite Ht3. by eapply tableGrows_trans.
  - injection H as <- <-. split; [done|]. split; [apply tableGrows_refl|].
    by intros n [= <-].
Qed.

Lemma parseTerm_consistent fuel : yields (parseTerm fuel).
Proof.
  intros w r w' H Hc. unfold parseTerm in H.
  bind_step H f w1 H1.
  destruct (parseFactor_consistent _ _ _ H1 Hc) as (Hc1 & Hg1 & Hf).
  destruct f as [left_|].
  - apply parseTerm_loop_consistent in H as (Hc2 & Hg2 & Hr);
      [|done|by apply Hf].
    split; [done|]. split; [by eapply tableGrows_trans|done].
  - injection H as <- <-. done.
Qed.

Lemma parseExpression_loop_consistent fuel : ∀ left_ w r w',
  parseExpression_loop fuel left_ w = Some (r, w') →
  consistent w → operandOK (table w) left_ →
  consistent w' ∧ tableGrows (table w) (table w') ∧
  ∀ n, r = Some n → operandOK (table w') n.
Proof.
  induction fuel as [|fuel IH]; intros left_ w r w' H Hc Hl; [done|].
  simpl in H. bind_step H k w1 H1. injection H1 as <- <-.
  destruct (bool_decide (tk_kind (cur w) = TokenKind.PLUS) ||
            bool_decide (tk_kind (cur w) = TokenKind.MINUS)).
  - bind_step H t w1 H1.
    apply nextToken_consistent in H1 as (Hc1 & Hg1 & _); [|done].
    bind_step H f w2 H2.
    destruct (parseTerm_consistent _ _ _ _ H2 Hc1) as (Hc2 & Hg2 & Hf).
    destruct f as [right_|].
    + apply fold_tail_consistent in H as (d & w3 & H & Hc3 & Ht3 & Hd);
        [|set_solver|set_solver|done| |by apply Hf].
      2:{ eapply operandOK_grows; [|exact Hl].
          by eapply tableGrows_trans. }
      destruct (IH _ _ _ _ H Hc3 Hd) as (Hc4 & Hg4 & Hr).
      split; [done|]. split; [|done].
      eapply tableGrows_trans; [exact Hg1|].
      eapply tableGrows_trans; [exact Hg2|]. by rewrite <- Ht3.
    + bind_step H u w3 H3.
      apply reportAtCur_consistent in H3 as (Hc3 & Ht3); [|done].
      injection H as <- <-. split; [done|]. split; [|done].
      rewrite Ht3. by eapply tableGrows_trans.
  - injection H as <- <-. split; [done|]. split; [apply tableGrows_refl|].
    by intros n [= <-].
Qed.

Lemma parseExpression_consistent fuel : yields (parseExpression fuel).
Proof.
  intros w r w' H Hc. unfold parseExpression in H.
  bind_step H f w1 H1.
  destruct (parseTerm_consistent _ _ _ _ H1 Hc) as (Hc1 & Hg1 & Hf).
  destruct f as [left_|].
  - apply parseExpression_loop_consistent in H as (Hc2 & Hg2 & Hr);
      [|done|by apply Hf].
    split; [done|]. split; [by eapply tableGrows_trans|done].
  - injection H as <- <-. done.
Qed.

Lemma parseStatement_consistent fuel w ok w' :
  parseStatement fuel w = Some (ok, w') → consistent w →
  consistent w' ∧ tableGrows (table w) (table w').
Proof.
  intros H Hc. unfold parseStatement in H.
  bind_step H k w1 H1. injection H1 as <- <-.
  case_bool_decide as Hk; cbn [negb] in H.
  2:{ bind_step H u w1 H1.
      apply reportAtCur_consistent in H1 as (Hc1 & Ht1); [|done].
      injection H as <- <-. split; [done|].
      rewrite Ht1. apply tableGrows_refl. }
  bind_step H t w1 H1. injection H1 as <- <-.
  assert (Hlhs : lexeme (cur w) ≠ "") by (by apply Hc).
  bind_step H t1 w1 H1.
  apply nextToken_consistent in H1 as (Hc1 & Hg1 & _); [|done].
  bind_step H k w2 H2. injection H2 as <- <-.
  case_bool_decide as Hk1; cbn [negb] in H.
  2:{ bind_step H u w2 H2.
      apply reportAtCur_consistent in H2 as (Hc2 & Ht2); [|done].
      injection H as <- <-. split; [done|]. by rewrite Ht2. }
  bind_step H t2 w2 H2.
  apply nextToken_consistent in H2 as (Hc2 & Hg2 & _); [|done].
  bind_step H e w3 H3.
  destruct (parseExpression_consistent _ _ _ _ H3 Hc2) as (Hc3 & Hg3 & He).
  assert (Hg03 : tableGrows (table w) (table w3)).
  { eapply tableGrows_trans; [exact Hg1|]. by eapply tableGrows_trans. }
  destruct e as [rhsName|].
  2:{ bind_step H u w4 H4.
      apply reportAtCur_consistent in H4 as (Hc4 & Ht4); [|done].
      injection H as <- <-. split; [done|]. by rewrite Ht4. }
  bind_step H k w4 H4. injection H4 as <- <-.
  case_bool_decide as Hk3; cbn [negb] in H.
  2:{ bind_step H u w4 H4.
      apply reportAtCur_consistent in H4 as (Hc4 & Ht4); [|done].
      injection H as <- <-. split; [done|]. by rewrite Ht4. }
  bind_step H t4 w4 H4.
  apply nextToken_consistent in H4 as (Hc4 & Hg4 & _); [|done].
  bind_step H u5 w5 H5.
  apply declare_consistent in H5 as (Hc5 & Hg5); [|done].
  bind_step H u6 w6 H6. unfold emitAssign, push_back in H6.
  injection H6 as <- <-.
  bind_step H u7 w7 H7. injection H as <- <-.
  unfold onSym in H7. cbn [table handler] in H7.
  pose proof (markUsed_grows (lexeme (cur w)) (table w5, handler w5)) as Hg7.
  pose proof (markUsed_used (lexeme (cur w)) (table w5) (handler w5)
                (proj1 Hc5)) as Hu7.
  destruct (markUsed (lexeme (cur w)) (table w5, handler w5)) as [st h].
  cbn [fst snd] in *. injection H7 as Hu <-. cbn.
  assert (Hg : tableGrows (table w3) st).
  { eapply tableGrows_trans; [exact Hg4|]. by eapply tableGrows_trans. }
  split; [|by eapply tableGrows_trans].
  destruct Hc5 as (G1 & G2 & G3 & G4 & G5). pose proof Hg7 as (F1 & F2 & F3).
  unfold consistent. cbn.
  split; [congruence|]. split; [tauto|]. split; [done|]. split; [done|].
  apply Forall_app. split.
  - eapply Forall_impl; [exact G5|]. intros x. by apply instOK_grows.
  - constructor; [|constructor]. unfold instOK. cbn.
    split; [done|]. split; [done|]. split; [|done].
    eapply operandOK_grows; [exact Hg|]. by apply He.
Qed.

Lemma skip_loop_consistent fuel : ∀ w u w',
  skip_loop fuel w = Some (u, w') → consistent w →
  consistent w' ∧ tableGrows (table w) (table w').
Proof.
  induction fuel as [|fuel IH]; intros w u w' H Hc; [done|].
  simpl in H. bind_step H k w1 H1. injection H1 as <- <-.
  destruct (negb _ && negb _).
  - bind_step H u1 w1 H1.
    apply advance_consistent in H1 as (Hc1 & Hg1); [|done].
    destruct (IH _ _ _ H Hc1) as (Hc2 & Hg2).
    split; [done|by eapply tableGrows_trans].
  - injection H as <- <-. split; [done|apply tableGrows_refl].
Qed.

Lemma recover_consistent fuel w u w' :
  recover fuel w = Some (u, w') → consistent w →
  consistent w' ∧ tableGrows (table w) (table w').
Proof.
  intros H Hc. unfold recover in H.
  bind_step H u1 w1 H1.
  apply reportAtCur_consistent in H1 as (Hc1 & Ht1); [|done].
  bind_step H u2 w2 H2.
  apply skip_loop_consistent in H2 as (Hc2 & Hg2); [|done].
  bind_step H k w3 H3. injection H3 as <- <-.
  rewrite Ht1 in Hg2.
  case_bool_decide.
  - apply advance_consistent in H as (Hc3 & Hg3); [|done].
    split; [done|by eapply tableGrows_trans].
  - injection H as <- <-. done.
Qed.

Lemma parseProgram_consistent fuel : ∀ w ok w',
  parseProgram fuel w = Some (ok, w') → consistent w →
  consistent w' ∧ tableGrows (table w) (table w').
Proof.
  induction fuel as [|fuel IH]; intros w ok w' H Hc; [done|].
  simpl in H. bind_step H k w1 H1. injection H1 as <- <-.
  case_bool_decide as Hk; cbn [negb] in H.
  - injection H as <- <-. split; [done|apply tableGrows_refl].
  - bind_step H b w1 H1.
    apply parseStatement_consistent in H1 as (Hc1 & Hg1); [|done].
    bind_step H u w2 H2.
    assert (Hc2 : consistent w2 ∧ tableGrows (table w1) (table w2)).
    { destruct b.
      - injection H2 as <- <-. split; [done|apply tableGrows_refl].
      - by eapply recover_consistent. }
    destruct Hc2 as [Hc2 Hg2].
    destruct (IH _ _ _ H Hc2) as (Hc3 & Hg3).
    split; [done|].
    eapply tableGrows_trans; [exact Hg1|]. by eapply tableGrows_trans.
Qed.

Lemma startOn_consistent attached source :
  consistent (startOn attached source).
Proof.
  unfold startOn, newTACGenerator.
  pose proof (getNextToken_token
                (Lex.setSource source (Lex.newLexer attached))
                (newSymbolTable, newErrorHandler)) as [Ht Hg].
  destruct (Lex.getNextToken _ _) as [[t lx] [st h]]. cbn [fst snd] in *.
  destruct Hg as (G1 & G2 & G3). unfold consistent. cbn.
  split; [done|]. split.
  { apply G2. intros i k e H. unfold entryAt, newSymbolTable in H.
    cbn in H. destruct i; cbn in H; [|done]. by rewrite lookup_empty in H. }
  split; [done|]. split; constructor.
Qed.

Lemma run_consistent attached source b w :
  run attached source = Some (b, w) → consistent w.
Proof.
  intros H. unfold run, generate in H.
  eapply parseProgram_consistent; [exact H|].
  apply startOn_consistent.
Qed.

Lemma compiled_run attached source :
  ∃ w, run attached source = Some (true, w) ∧
       compiled attached source = (out w, table w).
Proof.
  destruct (run_total attached source) as (w & Hr & _).
  exists w. split; [done|]. unfold compiled. by rewrite Hr.
Qed.

(** X25: the code the generator emits for a source, and the table it
    leaves.  A LOAD_CONST writes a number literal to a name that starts
    with [t]; a binary operation writes to a name that starts with [t]
    and reads two operands; an ASSIGN writes to a non-empty name that the
    table holds as used and reads one operand; no NOP is emitted.  Every
    operand is non-empty and either starts with [t] or is held as used by
    the table.  The table still has its one frame and every entry is
    stored under its own name. *)
Theorem generated_code_shape attached source :
  let (tac, st) := compiled attached source in
  Forall (instOK st) tac ∧ length (scopes st) = 1 ∧ keyed st.
Proof.
  destruct (compiled_run attached source) as (w & Hr & ->).
  apply run_consistent in Hr as (H1 & H2 & _ & _ & H5). done.
Qed.

Lemma assignment_target_live w x :
  consistent w → x ∈ out w → op x = TACOp.ASSIGN →
  starts_with_t (dest x) = false →
  dest x ≠ "" ∧ dest x ∈ initialLive (out w) (table w).
Proof.
  intros (H1 & H2 & _ & _ & H5) Hx Hop Ht.
  rewrite Forall_forall in H5. specialize (H5 x Hx).
  unfold instOK in H5. rewrite Hop in H5.
  destruct H5 as (Hne & (e' & He' & Hu') & _).
  split; [done|]. apply initialLive_elem.
  split; [apply list_elem_of_fmap; by exists x|].
  split; [done|]. split; [done|].
  intros e He Hn. apply getUnusedEntries_elem in He as (i & n & Hi & Hu).
  pose proof (H2 _ _ _ Hi) as Hk. subst n. rewrite Hn in Hi.
  assert (i = 0) as ->.
  { destruct i as [|i]; [done|].
    rewrite entryAt_out_of_range in Hi by lia. done. }
  congruence.
Qed.

(** X26: run on what the generator produced, with the table the
    generator left, the eliminator retains every assignment to a name
    that does not start with [t]. *)
Theorem assignments_survive_elimination attached source x :
  x ∈ fst (compiled attached source) →
  op x = TACOp.ASSIGN → starts_with_t (dest x) = false →
  x ∈ eliminate (fst (compiled attached source))
        (snd (compiled attached source)).
Proof.
  destruct (compiled_run attached source) as (w & Hr & ->). cbn [fst snd].
  intros Hx Hop Ht. apply run_consistent in Hr.
  destruct (assignment_target_live w x Hr Hx Hop Ht) as [Hne Hl].
  rewrite eliminate_scan, <- initialLive_seed. by apply seeded_kept.
Qed.

Lemma assignments_survive_elimination_witness :
  mkTacInst TACOp.ASSIGN "rate" "t0" "" ""
  ∈ eliminate (fst (compiled true "rate = 2.5; tmp = rate;"))
      (snd (compiled true "rate = 2.5; tmp = rate;")).
Proof.
  apply (assignments_survive_elimination true "rate = 2.5; tmp = rate;"
           (mkTacInst TACOp.ASSIGN "rate" "t0" "" ""));
    [|reflexivity|reflexivity].
  apply (list_elem_of_lookup_2 _ 1). vm_compute. reflexivity.
Defined.

(** ** A generator whose lexer holds the symbol table *)

Lemma keepsEntries_refl st : keepsEntries st st.
Proof. by intros j n H. Qed.

Lemma keepsEntries_trans a b c :
  keepsEntries a b → keepsEntries b c → keepsEntries a c.
Proof. intros H G j n Hj. by apply G, H. Qed.

Lemma store_keeps i n e st : keepsEntries st (store i n e st).
Proof.
  intros j m H. rewrite entryAt_store. case_decide; [by eexists|done].
Qed.

Lemma insert_keeps entry s :
  keepsEntries (fst s) (fst (snd (insert entry s))).
Proof.
  destruct s as [st h]. cbn [fst].
  destruct (lookupLocal (name entry) st) as [x|] eqn:Hl.
  { rewrite (insert_present _ _ _ _ Hl). apply keepsEntries_refl. }
  destruct (decide (scopes st = [])) as [He|Hne].
  { rewrite insert_no_frame by done. apply keepsEntries_refl. }
  rewrite (insert_fresh_eq _ _ _ Hne Hl). cbn [fst snd].
  intros j m H. apply store_keeps. exact H.
Qed.

Lemma markUsed_keeps n s : keepsEntries (fst s) (fst (markUsed n s)).
Proof.
  destruct s as [st h]. cbn [fst].
  destruct (lookup n st) as [[i e]|] eqn:Hl.
  - rewrite (markUsed_found _ _ _ _ _ Hl). apply store_keeps.
  - rewrite (markUsed_unfound _ _ _ Hl). apply store_keeps.
Qed.

Lemma one_frame_back st : length (scopes st) = 1 → backIndex st = 0.
Proof. unfold backIndex. by intros ->. Qed.

Lemma lookup_one_frame_None n st :
  length (scopes st) = 1 → lookup n st = None → lookupLocal n st = None.
Proof.
  unfold lookup, lookupLocal, backIndex.
  destruct (scopes st) as [|f [|g fs]]; try discriminate. intros _. simpl.
  by destruct (f !! n).
Qed.

Lemma entryAt_lookup_one_frame n st e :
  length (scopes st) = 1 → entryAt 0 n st = Some e →
  lookup n st = Some (0, e).
Proof.
  unfold lookup, entryAt.
  destruct (scopes st) as [|f [|g fs]]; try discriminate. intros _. simpl.
  by intros ->.
Qed.

(** On a one-frame table [declare] reports nothing, drops nothing, and
    leaves the name with an entry. *)
Lemma declare_one_frame lhs l st h :
  length (scopes st) = 1 →
  snd (declare lhs l (st, h)) = h ∧
  keepsEntries st (fst (declare lhs l (st, h))) ∧
  is_Some (entryAt 0 lhs (fst (declare lhs l (st, h)))).
Proof.
  intros H1. assert (Hne : scopes st ≠ []) by (by destruct (scopes st)).
  pose proof (one_frame_back _ H1) as Hb.
  destruct (lookup lhs st) as [[i e]|] eqn:Hk.
  - destruct (lookup_one_frame _ _ _ _ H1 Hk) as (-> & _ & Hl).
    destruct (is_dummy e) eqn:Hd.
    + rewrite (declare_dummy_local _ _ _ _ _ Hl Hd). cbn [fst snd]. rewrite Hb.
      split; [done|]. split; [apply store_keeps|].
      rewrite entryAt_store, decide_True; [by eexists|].
      rewrite H1. split; [done|]. split; [done|lia].
    + rewrite (declare_concrete _ _ _ _ _ _ Hk Hd). cbn [fst snd].
      split; [done|]. split; [apply keepsEntries_refl|].
      apply lookup_entryAt in Hk. rewrite Hk. by eexists.
  - pose proof (lookup_one_frame_None _ _ H1 Hk) as Hl.
    unfold declare. cbn [fst]. rewrite Hk.
    rewrite (insert_fresh_eq
               (newSymbolEntry lhs "variable" "float" (currentScope st) l)
               _ _ Hne Hl).
    cbn [fst snd]. rewrite Hb. split; [done|]. split.
    { intros j m H. apply store_keeps. exact H. }
    rewrite entryAt_store, decide_True; [by eexists|].
    cbn [scopes]. rewrite H1. split; [done|]. split; [done|lia].
Qed.

(** What [getNextToken] does for a generator whose lexer holds the table:
    an identifier it returns has an entry, no entry is dropped, and a
    diagnostic it records is not a Semantic one. *)
Lemma getNextToken_announces lx s :
  Lex.symtab lx = true → length (scopes (fst s)) = 1 →
  keepsEntries (fst s) (fst (snd (Lex.getNextToken lx s))) ∧
  (tk_kind (fst (fst (Lex.getNextToken lx s))) = TokenKind.IDENT →
   is_Some (entryAt 0 (lexeme (fst (fst (Lex.getNextToken lx s))))
              (fst (snd (Lex.getNextToken lx s))))) ∧
  (Forall (fun e => phase e ≠ ErrorPhase.SEMANTIC) (errors (snd s)) →
   Forall (fun e => phase e ≠ ErrorPhase.SEMANTIC)
     (errors (snd (snd (Lex.getNextToken lx s))))).
Proof.
  intros Hy H1.
  destruct (Lex.src lx) as [source|] eqn:Hsrc.
  - destruct (getNextToken_cases lx s source Hsrc)
      as [[He Hr] | (He & t1 & lx1 & s1 & Hr & _ & _ & _ & Hh & _ & Hc)];
      rewrite Hr; cbn [fst snd].
    { split; [apply keepsEntries_refl|]. by split. }
    destruct Hc as [(_ & Hk & _ & _ & ->)|[(_ & Hk & Hn & ->)|
                    (_ & _ & _ & Hk & _ & ->)]].
    + rewrite Hy. cbn [andb]. destruct s as [st h]. cbn [fst snd] in *.
      pose proof (one_frame_back _ H1) as Hb.
      pose proof (insertTokenPlaceholder_result (lexeme t1) (tk_line t1) st h)
        as (R1 & R2 & R3 & R4).
      pose proof (insertTokenPlaceholder_grows (lexeme t1) (tk_line t1) (st, h))
        as (G1 & _).
      cbn [fst snd] in G1.
      destruct (existsInCurrentScope (lexeme t1) st) eqn:Hex; cbn [negb].
      * split; [apply keepsEntries_refl|]. split; [|done]. intros _.
        apply existsInCurrentScope_spec in Hex.
        by rewrite lookupLocal_entryAt, Hb in Hex.
      * split.
        { unfold insertTokenPlaceholder. cbn [fst]. rewrite Hex.
          apply (insert_keeps _ (st, h)). }
        split; [|by rewrite R1].
        intros _.
        assert (Hl : lookupLocal (lexeme t1) st = None).
        { destruct (lookupLocal (lexeme t1) st) eqn:E; [|done].
          assert (existsInCurrentScope (lexeme t1) st = true)
            by (apply existsInCurrentScope_spec; by eexists).
          congruence. }
        destruct R4 as (e & He' & _).
        { apply R2. split; [by destruct (scopes st)|done]. }
        rewrite lookupLocal_entryAt in He'.
        rewrite (one_frame_back _ (eq_trans G1 H1)) in He'.
        rewrite He'. by eexists.
    + split; [apply keepsEntries_refl|]. split; [|done].
      intros E. congruence.
    + split; [case_bool_decide; apply keepsEntries_refl|]. split.
      * intros E. destruct Hk as [Hk|Hk]; [congruence|].
        by rewrite E in Hk.
      * intros Hf. case_bool_decide; [|done]. cbn [snd].
        unfold Lex.lexReportError. rewrite reportError_errors.
        apply Forall_app. split; [done|]. by repeat constructor.
  - unfold Lex.getNextToken. rewrite Hsrc. cbn [fst snd].
    split; [apply keepsEntries_refl|]. by split.
Qed.

Lemma nextToken_announced w t w' :
  nextToken w = Some (t, w') → announced w → announced w'.
Proof.
  unfold nextToken. intros H (H1 & Hy & Hb & He).
  pose proof (getNextToken_announces (lexer w) (table w, handler w) Hy H1)
    as (K1 & K2 & K3).
  pose proof (getNextToken_symtab (lexer w) (table w, handler w)) as Hs.
  pose proof (getNextToken_token (lexer w) (table w, handler w))
    as (_ & G1 & _).
  destruct (Lex.getNextToken (lexer w) (table w, handler w))
    as [[t1 lx] [st h]]. cbn [fst snd] in *.
  injection H as <- <-. unfold announced. cbn.
  split; [congruence|]. split; [congruence|]. split; [done|by apply K3].
Qed.

Lemma advance_announced w u w' :
  advance w = Some (u, w') → announced w → announced w'.
Proof.
  unfold advance. intros H (H1 & Hy & Hb & He).
  pose proof (getNextToken_announces (lexer w) (table w, handler w) Hy H1)
    as (K1 & K2 & K3).
  pose proof (getNextToken_symtab (lexer w) (table w, handler w)) as Hs.
  pose proof (getNextToken_token (lexer w) (table w, handler w))
    as (_ & G1 & _).
  destruct (Lex.getNextToken (lexer w) (table w, handler w))
    as [[t1 lx] [st h]]. cbn [fst snd] in *.
  injection H as <- <-. unfold announced. cbn.
  split; [congruence|]. split; [congruence|]. split; [done|by apply K3].
Qed.

Lemma syntaxError_announced msg w u w' :
  reportAtCur ErrorPhase.SYNTAX msg w = Some (u, w') →
  announced w → announced w'.
Proof.
  unfold reportAtCur. intros [= <- <-] (H1 & Hy & Hb & He).
  unfold announced. cbn [lexer cur table handler].
  split; [done|]. split; [done|]. split; [done|].
  rewrite reportError_errors. apply Forall_app. split; [done|].
  by repeat constructor.
Qed.

Lemma newTemp_announced w d w' :
  newTemp w = Some (d, w') → announced w → announced w'.
Proof.
  unfold newTemp. intros H Ha.
  by destruct (freeTemps w); injection H as <- <-.
Qed.

Lemma push_back_announced i w u w' :
  push_back i w = Some (u, w') → announced w → announced w'.
Proof. unfold push_back. by intros [= <- <-]. Qed.

Lemma release_announced x w u w' :
  release x w = Some (u, w') → announced w → announced w'.
Proof.
  unfold release. intros H Ha.
  by destruct (starts_with_t x); injection H as <- <-.
Qed.

(** [markUsed] on a name that has an entry reports nothing. *)
Lemma markUsed_announced n w u w' :
  onSym (fun s => (tt, markUsed n s)) w = Some (u, w') →
  announced w → is_Some (entryAt 0 n (table w)) →
  announced w' ∧ handler w' = handler w.
Proof.
  unfold onSym. intros H (H1 & Hy & Hb & He) [e Hn].
  apply (entryAt_lookup_one_frame _ _ _ H1) in Hn.
  rewrite (markUsed_found _ _ _ _ _ Hn) in H. injection H as <- <-.
  split; [|done]. unfold announced. cbn.
  split; [by rewrite length_alter|]. split; [done|]. split; [|done].
  intros Hk. apply store_keeps. by apply Hb.
Qed.

Lemma declare_announced lhs l w u w' :
  onSym (fun s => (tt, declare lhs l s)) w = Some (u, w') →
  announced w →
  announced w' ∧ is_Some (entryAt 0 lhs (table w')).
Proof.
  unfold onSym. intros H (H1 & Hy & Hb & He).
  pose proof (declare_one_frame lhs l (table w) (handler w) H1)
    as (D1 & D2 & D3).
  pose proof (declare_grows lhs l (table w, handler w)) as (G1 & _).
  destruct (declare lhs l (table w, handler w)) as [st h].
  cbn [fst snd] in *. injection H as <- <-. cbn. split; [|done].
  unfold announced. cbn. split; [congruence|]. split; [done|].
  split; [|by subst h]. intros Hk. apply D2. by apply Hb.
Qed.

Lemma parseFactor_announced w r w' :
  parseFactor w = Some (r, w') → announced w → announced w'.
Proof.
  intros H Ha. unfold parseFactor in H.
  bind_step H k w1 H1. injection H1 as <- <-.
  case_bool_decide as Hk; [|case_bool_decide as Hf].
  - bind_step H t w1 H1. injection H1 as <- <-.
    bind_step H u w1 H1.
    apply markUsed_announced in H1 as (Ha1 & _); [|done|by apply Ha].
    bind_step H t2 w2 H2.
    apply nextToken_announced in H2; [|done].
    by injection H as <- <-.
  - bind_step H t w1 H1. injection H1 as <- <-.
    bind_step H d w1 H1. apply newTemp_announced in H1; [|done].
    bind_step H u w2 H2. apply push_back_announced in H2; [|done].
    bind_step H t3 w3 H3. apply nextToken_announced in H3; [|done].
    by injection H as <- <-.
  - bind_step H u w1 H1. apply syntaxError_announced in H1; [|done].
    by injection H as <- <-.
Qed.

(** The shared end of both binary folds. *)
Lemma fold_tail_announced (o1 o2 : TACOp.t) (b : bool) left_ right_
    (k : string → Gen (option string)) w r w' :
  (d <- newTemp ;;
   (if b then emitBinary o1 d left_ right_
    else emitBinary o2 d left_ right_) ;;;
   release left_ ;;; release right_ ;;; k d) w = Some (r, w') →
  announced w →
  ∃ d w1, k d w1 = Some (r, w') ∧ announced w1.
Proof.
  intros H Ha.
  bind_step H d w1 H1. apply newTemp_announced in H1; [|done].
  bind_step H u w2 H2.
  assert (Ha2 : announced w2).
  { destruct b; eapply push_back_announced; eauto. }
  bind_step H u3 w3 H3. apply release_announced in H3; [|done].
  bind_step H u4 w4 H4. apply release_announced in H4; [|done].
  by exists d, w4.
Qed.

Lemma parseTerm_loop_announced fuel : ∀ left_ w r w',
  parseTerm_loop fuel left_ w = Some (r, w') → announced w → announced w'.
Proof.
  induction fuel as [|fuel IH]; intros left_ w r w' H Ha; [done|].
  simpl in H. bind_step H k w1 H1. injection H1 as <- <-.
  destruct (bool_decide (tk_kind (cur w) = TokenKind.STAR) ||
            bool_decide (tk_kind (cur w) = TokenKind.SLASH)).
  - bind_step H t w1 H1. apply nextToken_announced in H1; [|done].
    bind_step H f w2 H2. apply parseFactor_announced in H2; [|done].
    destruct f as [right_|].
    + apply fold_tail_announced in H as (d & w3 & H & Ha3); [|done].
      by eapply IH.
    + bind_step H u w3 H3. apply syntaxError_announced in H3; [|done].
      by injection H as <- <-.
  - by injection H as <- <-.
Qed.

Lemma parseTerm_announced fuel w r w' :
  parseTerm fuel w = Some (r, w') → announced w → announced w'.
Proof.
  intros H Ha. unfold parseTerm in H.
  bind_step H f w1 H1. apply parseFactor_announced in H1; [|done].
  destruct f as [left_|].
  - by eapply parseTerm_loop_announced.
  - by injection H as <- <-.
Qed.

Lemma parseExpression_loop_announced fuel : ∀ left_ w r w',
  parseExpression_loop fuel left_ w = Some (r, w') →
  announced w → announced w'.
Proof.
  induction fuel as [|fuel IH]; intros left_ w r w' H Ha; [done|].
  simpl in H. bind_step H k w1 H1. injection H1 as <- <-.
  destruct (bool_decide (tk_kind (cur w) = TokenKind.PLUS) ||
            bool_decide (tk_kind (cur w) = TokenKind.MINUS)).
  - bind_step H t w1 H1. apply nextToken_announced in H1; [|done].
    bind_step H f w2 H2. apply parseTerm_announced in H2; [|done].
    destruct f as [right_|].
    + apply fold_tail_announced in H as (d & w3 & H & Ha3); [|done].
      by eapply IH.
    + bind_step H u w3 H3. apply syntaxError_announced in H3; [|done].
      by injection H as <- <-.
  - by injection H as <- <-.
Qed.

Lemma parseExpression_announced fuel w r w' :
  parseExpression fuel w = Some (r, w') → announced w → announced w'.
Proof.
  intros H Ha. unfold parseExpression in H.
  bind_step H f w1 H1. apply parseTerm_announced in H1; [|done].
  destruct f as [left_|].
  - by eapply parseExpression_loop_announced.
  - by injection H as <- <-.
Qed.

Lemma parseStatement_announced fuel w ok w' :
  parseStatement fuel w = Some (ok, w') → announced w → announced w'.
Proof.
  intros H Ha. unfold parseStatement in H.
  bind_step H k w1 H1. injection H1 as <- <-.
  case_bool_decide as Hk; cbn [negb] in H.
  2:{ bind_step H u w1 H1. apply syntaxError_announced in H1; [|done].
      by injection H as <- <-. }
  bind_step H t w1 H1. injection H1 as <- <-.
  bind_step H t1 w1 H1. apply nextToken_announced in H1; [|done].
  bind_step H k w2 H2. injection H2 as <- <-.
  case_bool_decide as Hk1; cbn [negb] in H.
  2:{ bind_step H u w2 H2. apply syntaxError_announced in H2; [|done].
      by injection H as <- <-. }
  bind_step H t2 w2 H2. apply nextToken_announced in H2; [|done].
  bind_step H e w3 H3. apply parseExpression_announced in H3; [|done].
  destruct e as [rhsName|].
  2:{ bind_step H u w4 H4. apply syntaxError_announced in H4; [|done].
      by injection H as <- <-. }
  bind_step H k w4 H4. injection H4 as <- <-.
  case_bool_decide as Hk3; cbn [negb] in H.
  2:{ bind_step H u w4 H4. apply syntaxError_announced in H4; [|done].
      by injection H as <- <-. }
  bind_step H t4 w4 H4. apply nextToken_announced in H4; [|done].
  bind_step H u5 w5 H5. apply declare_announced in H5 as (Ha5 & Hb5); [|done].
  bind_step H u6 w6 H6. pose proof H6 as H6'.
  apply push_back_announced in H6; [|done].
  assert (Ht6 : table w6 = table w5).
  { unfold emitAssign, push_back in H6'. by injection H6' as _ <-. }
  bind_step H u7 w7 H7.
  apply markUsed_announced in H7 as (Ha7 & _); [|done|by rewrite Ht6].
  by injection H as <- <-.
Qed.

Lemma skip_loop_announced fuel : ∀ w u w',
  skip_loop fuel w = Some (u, w') → announced w → announced w'.
Proof.
  induction fuel as [|fuel IH]; intros w u w' H Ha; [done|].
  simpl in H. bind_step H k w1 H1. injection H1 as <- <-.
  destruct (negb _ && negb _).
  - bind_step H u1 w1 H1. apply advance_announced in H1; [|done].
    by eapply IH.
  - by injection H as <- <-.
Qed.

Lemma recover_announced fuel w u w' :
  recover fuel w = Some (u, w') → announced w → announced w'.
Proof.
  intros H Ha. unfold recover in H.
  bind_step H u1 w1 H1. apply syntaxError_announced in H1; [|done].
  bind_step H u2 w2 H2. apply skip_loop_announced in H2; [|done].
  bind_step H k w3 H3. injection H3 as <- <-.
  case_bool_decide.
  - by eapply advance_announced.
  - by injection H as <- <-.
Qed.

Lemma parseProgram_announced fuel : ∀ w ok w',
  parseProgram fuel w = Some (ok, w') → announced w → announced w'.
Proof.
  induction fuel as [|fuel IH]; intros w ok w' H Ha; [done|].
  simpl in H. bind_step H k w1 H1. injection H1 as <- <-.
  case_bool_decide as Hk; cbn [negb] in H.
  - by injection H as <- <-.
  - bind_step H b w1 H1. apply parseStatement_announced in H1; [|done].
    bind_step H u w2 H2.
    assert (Ha2 : announced w2).
    { destruct b.
      - by injection H2 as <- <-.
      - by eapply recover_announced. }
    by eapply IH.
Qed.

Lemma startOn_announced source : announced (startOn true source).
Proof.
  unfold startOn, newTACGenerator.
  pose proof (getNextToken_announces
                (Lex.setSource source (Lex.newLexer true))
                (newSymbolTable, newErrorHandler) eq_refl eq_refl)
    as (K1 & K2 & K3).
  pose proof (getNextToken_symtab
                (Lex.setSource source (Lex.newLexer true))
                (newSymbolTable, newErrorHandler)) as Hs.
  pose proof (getNextToken_token
                (Lex.setSource source (Lex.newLexer true))
                (newSymbolTable, newErrorHandler)) as (_ & G1 & _).
  destruct (Lex.getNextToken _ _) as [[t lx] [st h]]. cbn [fst snd] in *.
  unfold announced. cbn.
  split; [done|]. split; [done|]. split; [done|]. apply K3. constructor.
Qed.

(** With the lexer holding the table, the way the driver builds them, no
    compilation records a Semantic diagnostic, whatever the source: every
    identifier the generator hands to [markUsed] has the placeholder of
    the lexer, or its declaration, in the table, so the branch of
    [markUsed] that reports an undeclared identifier is never taken. *)
Lemma attached_run_reports_no_undeclared source ok w :
  run true source = Some (ok, w) →
  Forall (fun e => phase e ≠ ErrorPhase.SEMANTIC) (errors (handler w)) ∧
  ∀ n, undeclaredFor n (handler w) = [].
Proof.
  intros H. unfold run, generate in H.
  apply parseProgram_announced in H; [|apply startOn_announced].
  destruct H as (_ & _ & _ & He). split; [done|].
  intros n. unfold undeclaredFor.
  induction He as [|e l Hp _ IH]; [done|].
  rewrite filter_cons. case_decide as Hd; [|done]. by destruct Hd.
Qed.

(** A statement that succeeds declares its left-hand name on a table of
    one frame: [w1] is the state in which lines 88-102 of
    [parseStatement] run, [w2] the state they leave. *)
Lemma statement_declares_on_one_frame fuel w w' :
  parseStatement fuel w = Some (true, w') → consistent w →
  ∃ w1 w2,
    length (scopes (table w1)) = 1 ∧
    (table w2, handler w2)
    = declare (lexeme (cur w)) (tk_line (cur w)) (table w1, handler w1) ∧
    (table w', handler w')
    = markUsed (lexeme (cur w)) (table w2, handler w2).
Proof.
  intros H Hc. unfold parseStatement in H.
  bind_step H k w1 H1. injection H1 as <- <-.
  case_bool_decide as Hk; cbn [negb] in H.
  2:{ bind_step H u w1 H1. by injection H. }
  bind_step H t w1 H1. injection H1 as <- <-.
  bind_step H t1 w1 H1.
  apply nextToken_consistent in H1 as (Hc1 & Hg1 & _); [|done].
  bind_step H k w2 H2. injection H2 as <- <-.
  case_bool_decide as Hk1; cbn [negb] in H.
  2:{ bind_step H u w2 H2. by injection H. }
  bind_step H t2 w2 H2.
  apply nextToken_consistent in H2 as (Hc2 & Hg2 & _); [|done].
  bind_step H e w3 H3.
  destruct (parseExpression_consistent _ _ _ _ H3 Hc2) as (Hc3 & Hg3 & He).
  destruct e as [rhsName|].
  2:{ bind_step H u w4 H4. by injection H. }
  bind_step H k w4 H4. injection H4 as <- <-.
  case_bool_decide as Hk3; cbn [negb] in H.
  2:{ bind_step H u w4 H4. by injection H. }
  bind_step H t4 w4 H4.
  apply nextToken_consistent in H4 as (Hc4 & Hg4 & _); [|done].
  bind_step H u5 w5 H5. bind_step H u6 w6 H6. bind_step H u7 w7 H7.
  injection H as <-.
  exists w4, w5. split; [apply Hc4|].
  unfold onSym in H5.
  destruct (declare (lexeme (cur w)) (tk_line (cur w))
              (table w4, handler w4)) as [st5 h5].
  injection H5 as _ <-. cbn [table handler]. split; [done|].
  unfold emitAssign, push_back in H6. injection H6 as _ <-.
  unfold onSym in H7. cbn [table handler] in H7.
  destruct (markUsed (lexeme (cur w)) (st5, h5)) as [st7 h7].
  by injection H7 as _ <-.
Qed.

(** C4 on the code: [markUsed] does report a name that no frame holds,
    once, and leaves a used dummy for it in the global frame.  But the
    lexer the driver builds holds the symbol table, and [lexIdentifier]
    enters a placeholder for every identifier it reads before the
    generator sees the token: no compilation records an
    UndeclaredIdentifier, whatever the source.  In the compilation of
    [y = z;] the name [z] has no binding when the statement starts; no
    diagnostic is recorded, where one is due, and the table ends with one
    entry for [z], a dummy whose isUsed flag is set.  Only with a lexer
    that holds no symbol table is the diagnostic recorded. *)
Theorem undeclared_read_unreported :
  lookup "z" (table (startOn true "y = z;")) = None ∧
  (∃ w e, run true "y = z;" = Some (true, w) ∧
          errors (handler w) = [] ∧
          undeclaredFor "z" (handler w) = [] ∧
          entriesFor "z" (table w) = [e] ∧
          is_dummy e = true ∧ is_used e = true) ∧
  (∀ source ok w n,
     run true source = Some (ok, w) → undeclaredFor n (handler w) = []) ∧
  (∃ w e, run false "y = z;" = Some (true, w) ∧
          length (undeclaredFor "z" (handler w)) = 1 ∧
          entriesFor "z" (table w) = [e] ∧
          is_dummy e = true ∧ is_used e = true) ∧
  (∀ n st h, lookup n st = None → scopes st ≠ [] →
     ∃ st' h',
       markUsed n (st, h) = (st', h') ∧
       errors h' = errors h ++
         [mkCompilerError ErrorPhase.SEMANTIC Severity.ERROR
            (undeclaredMessage n) (-1) (-1) true] ∧
       lookup n st' = Some (0, usedDummy n) ∧
       snd (markUsed n (st', h')) = h').
Proof.
  split; [vm_compute; reflexivity|]. split; [|split; [|split]].
  - eexists _, _. split; [vm_compute; reflexivity|].
    repeat split; vm_compute; reflexivity.
  - intros source ok w n H.
    apply (proj2 (attached_run_reports_no_undeclared _ _ _ H)).
  - eexists _, _. split; [vm_compute; reflexivity|].
    repeat split; vm_compute; reflexivity.
  - apply markUsed_unbound.
Qed.

(** ** Parser *)

(** *** The parser next to the generator *)

Lemma addErrors_nil h : addErrors [] h = h.
Proof. destruct h. unfold addErrors. simpl. by rewrite app_nil_r. Qed.

Lemma addErrors_app es1 es2 h :
  addErrors es2 (addErrors es1 h) = addErrors (es1 ++ es2) h.
Proof. unfold addErrors. simpl. by rewrite app_assoc. Qed.

Lemma reportError_addErrors p msg l c h :
  reportError p msg l c h
  = addErrors [mkCompilerError p Severity.ERROR msg l c true] h.
Proof. reflexivity. Qed.

Lemma nonSyntax_addErrors es h :
  Forall (λ e, phase e ≠ ErrorPhase.SYNTAX) es →
  nonSyntax (addErrors es h) = nonSyntax h ++ es.
Proof.
  intros H. unfold nonSyntax, addErrors. simpl. rewrite filter_app.
  f_equal. induction H as [|e es He _ IH]; [done|].
  rewrite filter_cons_True by done. by rewrite IH.
Qed.

Lemma nonSyntax_syntax msg l c h :
  nonSyntax (reportError ErrorPhase.SYNTAX msg l c h) = nonSyntax h.
Proof.
  unfold nonSyntax. rewrite reportError_errors, filter_app.
  rewrite filter_cons_False by (simpl; tauto). simpl. apply app_nil_r.
Qed.

Lemma oblivious_quiet {A} (f : Sym → A * Sym) st a st' :
  (∀ h, f (st, h) = (a, (st', h))) →
  ∃ a st' es,
    Forall (λ e, phase e ≠ ErrorPhase.SYNTAX) es ∧
    ∀ h, f (st, h) = (a, (st', addErrors es h)).
Proof.
  intros H. exists a, st', []. split; [constructor|].
  intros h. by rewrite addErrors_nil.
Qed.

Lemma insert_oblivious entry : oblivious (insert entry).
Proof.
  intros st.
  destruct (lookupLocal (name entry) st) as [x|] eqn:Hl.
  { exists false, st,
      [mkCompilerError ErrorPhase.SEMANTIC Severity.ERROR
         (duplicateMessage x entry) (decl_line entry) (-1) true].
    split; [by repeat constructor|].
    intros h. by rewrite (insert_present _ _ _ _ Hl). }
  destruct (decide (scopes st = [])) as [He|Hne].
  { eapply oblivious_quiet. intros h. by apply insert_no_frame. }
  eapply oblivious_quiet. intros h. by apply insert_fresh_eq.
Qed.

Lemma insertTokenPlaceholder_oblivious n l :
  oblivious (insertTokenPlaceholder n l).
Proof.
  intros st. unfold insertTokenPlaceholder. cbn [fst].
  destruct (existsInCurrentScope n st).
  - by eapply oblivious_quiet.
  - apply insert_oblivious.
Qed.

Lemma markUsed_oblivious n : oblivious (fun s => (tt, markUsed n s)).
Proof.
  intros st. destruct (lookup n st) as [[i e]|] eqn:Hl.
  - exists tt, (store i n (set_is_used true e) st), [].
    split; [constructor|]. intros h.
    by rewrite addErrors_nil, (markUsed_found _ _ _ _ _ Hl).
  - exists tt, (store 0 n (usedDummy n) st),
      [mkCompilerError ErrorPhase.SEMANTIC Severity.ERROR
         (undeclaredMessage n) (-1) (-1) true].
    split; [by repeat constructor|].
    intros h. by rewrite (markUsed_unfound _ _ _ Hl).
Qed.

Lemma updateEntry_oblivious n f : oblivious (updateEntry n f).
Proof.
  intros st. destruct (lookupLocal n st) as [e|] eqn:Hl.
  - eapply oblivious_quiet. intros h. by apply updateEntry_present.
  - destruct (decide (scopes st = [])) as [He|Hne].
    + eapply oblivious_quiet. intros h. by apply updateEntry_no_frame.
    + eapply oblivious_quiet. intros h. by apply updateEntry_absent.
Qed.

Lemma declare_oblivious lhs l : oblivious (fun s => (tt, declare lhs l s)).
Proof.
  intros st. unfold declare. cbn [fst].
  destruct (lookup lhs st) as [[i e]|].
  - destruct (is_dummy e).
    + destruct (updateEntry_oblivious lhs (promote l) st)
        as (a & st' & es & Hes & H).
      exists tt, st', es. split; [done|]. intros h. by rewrite H.
    + exists tt, st, []. split; [constructor|]. intros h.
      by rewrite addErrors_nil.
  - destruct (insert_oblivious
                (newSymbolEntry lhs "variable" "float" (currentScope st) l) st)
      as (a & st' & es & Hes & H).
    exists tt, st', es. split; [done|]. intros h. by rewrite H.
Qed.

Lemma lexIdentifier_oblivious : lexOblivious Lex.lexIdentifier.
Proof.
  intros lx st. unfold Lex.lexIdentifier.
  destruct (Lex.take_while Lex.isIdentBody (Lex.remaining lx) "" lx)
    as [lex lx']. cbn [fst].
  destruct (Lex.symtab lx' && negb (existsInCurrentScope lex st)).
  - destruct (insertTokenPlaceholder_oblivious lex (Lex.line lx) st)
      as (a & st' & es & Hes & H).
    eexists _, lx', st', es. split; [done|]. intros h. by rewrite H.
  - eexists _, lx', st, []. split; [constructor|]. intros h.
    by rewrite addErrors_nil.
Qed.

Lemma lexNumber_oblivious : lexOblivious Lex.lexNumber.
Proof.
  intros lx st. unfold Lex.lexNumber.
  destruct (bool_decide (Lex.peek 0 lx = "."%char)).
  - destruct (Lex.get lx) as [c lx1].
    destruct (negb (Lex.isdigit (Lex.peek 0 lx1))).
    + eexists _, lx1, st, [_]. split; [|intros h; reflexivity].
      by repeat constructor.
    + destruct (Lex.take_while Lex.isdigit (Lex.remaining lx1)
                  (String c "") lx1) as [lex lx2].
      eexists _, lx2, st, []. split; [constructor|]. intros h.
      by rewrite addErrors_nil.
  - destruct (Lex.take_while Lex.isdigit (Lex.remaining lx) "" lx)
      as [lex lx1].
    destruct (bool_decide (Lex.peek 0 lx1 = "."%char)).
    + destruct (Lex.get lx1) as [c lx2].
      destruct (Lex.take_while Lex.isdigit (Lex.remaining lx2)
                  (lex +:+ String c "") lx2) as [lex' lx3].
      eexists _, lx3, st, []. split; [constructor|]. intros h.
      by rewrite addErrors_nil.
    + eexists _, lx1, st, []. split; [constructor|]. intros h.
      by rewrite addErrors_nil.
Qed.

Lemma lexOperatorOrSymbol_oblivious : lexOblivious Lex.lexOperatorOrSymbol.
Proof.
  intros lx st. unfold Lex.lexOperatorOrSymbol.
  destruct (Lex.get lx) as [c lx']. cbv zeta.
  repeat (destruct (bool_decide (c = _));
    [eexists _, lx', st, []; split; [constructor|]; intros h;
     by rewrite addErrors_nil|]).
  eexists _, lx', st, [_]. split; [|intros h; reflexivity].
  by repeat constructor.
Qed.

Lemma getNextToken_oblivious : lexOblivious Lex.getNextToken.
Proof.
  intros lx st. unfold Lex.getNextToken.
  destruct (Lex.src lx).
  2:{ eexists _, lx, st, []. split; [constructor|]. intros h.
      by rewrite addErrors_nil. }
  cbv zeta. destruct (Lex.eof (Lex.skipWhitespace lx)).
  { eexists _, _, st, []. split; [constructor|]. intros h.
    by rewrite addErrors_nil. }
  destruct (Lex.isIdentStart _); [apply lexIdentifier_oblivious|].
  destruct (_ || _);
    [apply lexNumber_oblivious|apply lexOperatorOrSymbol_oblivious].
Qed.

Lemma follows_ret {A B} (R : A → B → Prop) a b :
  R a b → follows R (ret a) (Parser.ret b).
Proof.
  intros HR w p a' w' Hal [= <- <-]. by exists b, p.
Qed.

Lemma follows_bind {A B A' B'} (R1 : A → B → Prop) (R2 : A' → B' → Prop)
    (m : Gen A) (n : Parser.M B) k k' :
  follows R1 m n → (∀ a b, R1 a b → follows R2 (k a) (k' b)) →
  follows R2 (bind m k) (Parser.bind n k').
Proof.
  intros Hm Hk w p a' w' Hal H.
  apply bind_inv in H as (a & w1 & H1 & H).
  destruct (Hm _ _ _ _ Hal H1) as (b & p1 & Hn & HR & Hal1).
  destruct (Hk a b HR _ _ _ _ Hal1 H) as (b' & p' & Hn' & HR' & Hal').
  exists b', p'. split; [|done]. unfold Parser.bind. by rewrite Hn.
Qed.

Lemma follows_left {A A' B'} (R : A' → B' → Prop) (m : Gen A) k n :
  generatorOnly m → (∀ a, follows R (k a) n) → follows R (bind m k) n.
Proof.
  intros Hm Hk w p a' w' Hal H.
  apply bind_inv in H as (a & w1 & H1 & H).
  eapply Hk; [|exact H]. by eapply Hm.
Qed.

Lemma follows_right {B A' B'} (R : A' → B' → Prop) m (n : Parser.M B) k' :
  parserOnly n → (∀ b, follows R m (k' b)) →
  follows R m (Parser.bind n k').
Proof.
  intros Hn Hk w p a' w' Hal H.
  destruct (Hn p) as (b & p1 & Hnp & Hal1).
  destruct (Hk b _ _ _ _ (Hal1 _ Hal) H) as (b' & p' & Hn' & HR' & Hal').
  exists b', p'. split; [|done]. unfold Parser.bind. by rewrite Hnp.
Qed.

Lemma follows_assoc {A B C D} (R : A → D → Prop) m (n : Parser.M B)
    (f : B → Parser.M C) (g : C → Parser.M D) :
  follows R m (Parser.bind n (fun x => Parser.bind (f x) g)) →
  follows R m (Parser.bind (Parser.bind n f) g).
Proof.
  intros H w p a w' Hal Hm.
  destruct (H _ _ _ _ Hal Hm) as (b & p' & Hn & HR).
  exists b, p'. split; [|done].
  unfold Parser.bind in *. by destruct (n p) as [[x p1]|].
Qed.

Lemma follows_curKind : follows eq curKind Parser.curKind.
Proof.
  intros w p a w' Hal [= <- <-]. exists (tk_kind (Parser.cur p)), p.
  split; [done|]. split; [|done]. destruct Hal as (_ & _ & -> & _). done.
Qed.

Lemma follows_curTok : follows eq curTok Parser.curTok.
Proof.
  intros w p a w' Hal [= <- <-]. exists (Parser.cur p), p.
  split; [done|]. split; [|done]. destruct Hal as (_ & _ & -> & _). done.
Qed.

Lemma curTok_generatorOnly : generatorOnly curTok.
Proof. by intros w p a w' Hal [= <- <-]. Qed.

Lemma curTok_parserOnly : parserOnly Parser.curTok.
Proof. intros p. by exists (Parser.cur p), p. Qed.

Lemma reportAtCur_generatorOnly msg :
  generatorOnly (reportAtCur ErrorPhase.SYNTAX msg).
Proof.
  intros w p a w' (H1 & H2 & H3 & H4) [= <- <-].
  refine (conj H1 (conj H2 (conj H3 _))). cbn [handler].
  by rewrite nonSyntax_syntax.
Qed.

Lemma syntaxError_parserOnly msg t : parserOnly (Parser.syntaxError msg t).
Proof.
  intros p. eexists tt, _. split; [reflexivity|].
  intros w (H1 & H2 & H3 & H4).
  refine (conj H1 (conj H2 (conj H3 _))). cbn [Parser.handler].
  by rewrite nonSyntax_syntax.
Qed.

Lemma newTemp_generatorOnly : generatorOnly newTemp.
Proof.
  intros w p a w' Hal H. unfold newTemp in H.
  by destruct (freeTemps w); injection H as <- <-.
Qed.

Lemma push_back_generatorOnly i : generatorOnly (push_back i).
Proof. by intros w p a w' Hal [= <- <-]. Qed.

Lemma release_generatorOnly x : generatorOnly (release x).
Proof.
  intros w p a w' Hal H. unfold release in H.
  by destruct (starts_with_t x); injection H as <- <-.
Qed.

Lemma aligned_token w p :
  aligned w p →
  ∃ t lx st hw hp,
    Lex.getNextToken (lexer w) (table w, handler w) = (t, lx, (st, hw)) ∧
    Lex.getNextToken (Parser.lexer p) (Parser.table p, Parser.handler p)
    = (t, lx, (st, hp)) ∧
    nonSyntax hw = nonSyntax hp.
Proof.
  intros (H1 & H2 & H3 & H4).
  destruct (getNextToken_oblivious (lexer w) (table w))
    as (t & lx & st & es & Hes & H).
  exists t, lx, st, (addErrors es (handler w)),
    (addErrors es (Parser.handler p)).
  split; [apply H|]. split; [rewrite <- H1, <- H2; apply H|].
  rewrite !nonSyntax_addErrors by done. by rewrite H4.
Qed.

Lemma follows_advance : follows (fun _ _ => True) advance Parser.advance.
Proof.
  intros w p a w' Hal H.
  destruct (aligned_token w p Hal) as (t & lx & st & hw & hp & Hw & Hp & Hh).
  unfold advance in H. rewrite Hw in H. injection H as <- <-.
  eexists tt, _. unfold Parser.advance. rewrite Hp.
  split; [reflexivity|]. done.
Qed.

Lemma follows_nextToken_advance :
  follows (fun _ _ => True) nextToken Parser.advance.
Proof.
  intros w p a w' Hal H.
  destruct (aligned_token w p Hal) as (t & lx & st & hw & hp & Hw & Hp & Hh).
  unfold nextToken in H. rewrite Hw in H. injection H as <- <-.
  eexists tt, _. unfold Parser.advance. rewrite Hp.
  split; [reflexivity|]. done.
Qed.

Lemma follows_nextToken :
  follows (fun _ _ => True) nextToken Parser.nextToken.
Proof.
  intros w p a w' Hal H.
  destruct (aligned_token w p Hal) as (t & lx & st & hw & hp & Hw & Hp & Hh).
  unfold nextToken in H. rewrite Hw in H. injection H as <- <-.
  eexists _, _. unfold Parser.nextToken. rewrite Hp.
  split; [reflexivity|]. done.
Qed.

Lemma follows_onSym {A} (f : Sym → A * Sym) :
  oblivious f → follows eq (onSym f) (Parser.onSym f).
Proof.
  intros Hf w p a w' (H1 & H2 & H3 & H4) H.
  destruct (Hf (table w)) as (a0 & st & es & Hes & Hfe).
  unfold onSym in H. rewrite Hfe in H. injection H as <- <-.
  exists a0, (Parser.mkState (Parser.lexer p) st
                (addErrors es (Parser.handler p)) (Parser.cur p)).
  unfold Parser.onSym. rewrite <- H2, Hfe.
  split; [done|]. split; [done|].
  refine (conj H1 (conj eq_refl (conj H3 _))).
  cbn [handler Parser.handler].
  rewrite !nonSyntax_addErrors by done. by rewrite H4.
Qed.

Lemma follows_parseFactor : follows verdict parseFactor Parser.parseFactor.
Proof.
  unfold parseFactor, Parser.parseFactor.
  eapply follows_bind; [apply follows_curKind|]. intros k ? <-.
  destruct (bool_decide (k = TokenKind.IDENT)).
  - eapply follows_bind; [apply follows_curTok|]. intros t ? <-.
    eapply follows_bind; [apply follows_onSym, markUsed_oblivious|].
    intros _ _ _.
    eapply follows_bind; [apply follows_nextToken_advance|]. intros _ _ _.
    by apply follows_ret.
  - destruct (bool_decide (k = TokenKind.FLOAT_LIT)).
    + apply follows_left; [apply curTok_generatorOnly|]. intros t.
      apply follows_left; [apply newTemp_generatorOnly|]. intros d.
      apply follows_left; [apply push_back_generatorOnly|]. intros _.
      eapply follows_bind; [apply follows_nextToken_advance|]. intros _ _ _.
      by apply follows_ret.
    + apply follows_left; [apply reportAtCur_generatorOnly|]. intros _.
      apply follows_right; [apply curTok_parserOnly|]. intros t.
      apply follows_right; [apply syntaxError_parserOnly|]. intros _.
      by apply follows_ret.
Qed.

Lemma follows_fold_tail (o1 o2 : TACOp.t) (b : bool) left_ right_
    (k : string → Gen (option string)) n :
  (∀ d, follows verdict (k d) n) →
  follows verdict
    (d <- newTemp ;;
     (if b then emitBinary o1 d left_ right_
      else emitBinary o2 d left_ right_) ;;;
     release left_ ;;; release right_ ;;; k d) n.
Proof.
  intros Hk.
  apply follows_left; [apply newTemp_generatorOnly|]. intros d.
  apply follows_left; [destruct b; apply push_back_generatorOnly|]. intros _.
  apply follows_left; [apply release_generatorOnly|]. intros _.
  apply follows_left; [apply release_generatorOnly|]. intros _.
  apply Hk.
Qed.

Lemma follows_parseTerm_loop fuel : ∀ left_,
  follows verdict (parseTerm_loop fuel left_) (Parser.parseTerm_loop fuel).
Proof.
  induction fuel as [|fuel IH]; intros left_; [by intros w p a w' _ H|].
  simpl.
  eapply follows_bind; [apply follows_curKind|]. intros k ? <-.
  destruct (_ || _); [|by apply follows_ret].
  eapply follows_bind; [apply follows_nextToken_advance|]. intros _ _ _.
  eapply follows_bind; [apply follows_parseFactor|]. intros r b ->.
  destruct r as [right_|]; cbn [negb].
  - apply follows_fold_tail. intros d. apply IH.
  - apply follows_left; [apply reportAtCur_generatorOnly|]. intros _.
    apply follows_right; [apply curTok_parserOnly|]. intros t.
    apply follows_right; [apply syntaxError_parserOnly|]. intros _.
    by apply follows_ret.
Qed.

Lemma follows_parseTerm fuel :
  follows verdict (parseTerm fuel) (Parser.parseTerm fuel).
Proof.
  unfold parseTerm, Parser.parseTerm.
  eapply follows_bind; [apply follows_parseFactor|]. intros r b ->.
  destruct r as [left_|]; cbn [negb].
  - apply follows_parseTerm_loop.
  - by apply follows_ret.
Qed.

Lemma follows_parseExpression_loop fuel : ∀ left_,
  follows verdict (parseExpression_loop fuel left_)
    (Parser.parseExpression_loop fuel).
Proof.
  induction fuel as [|fuel IH]; intros left_; [by intros w p a w' _ H|].
  simpl.
  eapply follows_bind; [apply follows_curKind|]. intros k ? <-.
  destruct (_ || _); [|by apply follows_ret].
  eapply follows_bind; [apply follows_nextToken_advance|]. intros _ _ _.
  eapply follows_bind; [apply follows_parseTerm|]. intros r b ->.
  destruct r as [right_|]; cbn [negb].
  - apply follows_fold_tail. intros d. apply IH.
  - apply follows_left; [apply reportAtCur_generatorOnly|]. intros _.
    apply follows_right; [apply curTok_parserOnly|]. intros t.
    apply follows_right; [apply syntaxError_parserOnly|]. intros _.
    by apply follows_ret.
Qed.

Lemma follows_parseExpression fuel :
  follows verdict (parseExpression fuel) (Parser.parseExpression fuel).
Proof.
  unfold parseExpression, Parser.parseExpression.
  eapply follows_bind; [apply follows_parseTerm|]. intros r b ->.
  destruct r as [left_|]; cbn [negb].
  - apply follows_parseExpression_loop.
  - by apply follows_ret.
Qed.

(** The generator's test of the lookahead followed by [nextToken], next
    to the parser's [expect]. *)
Lemma follows_expect {A B} (R : A → B → Prop) k0 msg
    (m : Gen A) (fail : Gen A) (n : bool → Parser.M B) :
  follows R fail (n false) →
  follows R (nextToken ;;; m) (Parser.bind Parser.advance (fun _ => n true)) →
  follows R
    (k <- curKind ;;
     if negb (bool_decide (k = k0)) then reportAtCur ErrorPhase.SYNTAX msg ;;; fail
     else nextToken ;;; m)
    (Parser.bind (Parser.expect k0) n).
Proof.
  intros Hfail Hm. unfold Parser.expect.
  apply follows_assoc.
  eapply follows_bind; [apply follows_curKind|]. intros k ? <-.
  destruct (bool_decide (k = k0)); cbn [negb].
  - apply follows_assoc. unfold Parser.bind at 2.
    intros w p a w' Hal H. destruct (Hm _ _ _ _ Hal H) as (b & p' & Hn & HR).
    exists b, p'. split; [|done]. unfold Parser.bind in *.
    destruct (Parser.advance p) as [[u p1]|]; [|done]. exact Hn.
  - apply follows_left; [apply reportAtCur_generatorOnly|]. intros _.
    apply follows_assoc.
    apply follows_right; [apply curTok_parserOnly|]. intros t.
    apply follows_assoc.
    apply follows_right; [apply syntaxError_parserOnly|]. intros _.
    intros w p a w' Hal H. destruct (Hfail _ _ _ _ Hal H) as (b & p' & Hn & HR).
    by exists b, p'.
Qed.

Lemma follows_assoc_l {A B C D} (R : C → D → Prop) (m : Gen A)
    (f : A → Gen B) (g : B → Gen C) n :
  follows R (bind m (fun x => bind (f x) g)) n →
  follows R (bind (bind m f) g) n.
Proof.
  intros H w p a w' Hal Hm. eapply H; [exact Hal|].
  unfold bind in *. by destruct (m w) as [[x w1]|].
Qed.

Lemma follows_parseStatement fuel :
  follows eq (parseStatement fuel) (Parser.parseStatement fuel).
Proof.
  unfold parseStatement, Parser.parseStatement.
  eapply follows_bind; [apply follows_curKind|]. intros k ? <-.
  destruct (bool_decide (k = TokenKind.IDENT)); cbn [negb].
  2:{ apply follows_left; [apply reportAtCur_generatorOnly|]. intros _.
      apply follows_right; [apply curTok_parserOnly|]. intros t.
      apply follows_right; [apply syntaxError_parserOnly|]. intros _.
      by apply follows_ret. }
  eapply follows_bind; [apply follows_curTok|]. intros t ? <-.
  eapply follows_bind; [apply follows_nextToken|]. intros _ _ _.
  apply follows_expect; [by apply follows_ret|]. cbn [negb].
  eapply follows_bind; [apply follows_nextToken_advance|]. intros _ _ _.
  eapply follows_bind; [apply follows_parseExpression|]. intros r b ->.
  destruct r as [rhsName|]; cbn [negb].
  2:{ apply follows_left; [apply reportAtCur_generatorOnly|]. intros _.
      apply follows_right; [apply curTok_parserOnly|]. intros t'.
      apply follows_right; [apply syntaxError_parserOnly|]. intros _.
      by apply follows_ret. }
  apply follows_expect; [by apply follows_ret|]. cbn [negb].
  eapply follows_bind; [apply follows_nextToken_advance|]. intros _ _ _.
  eapply follows_bind; [apply follows_onSym, declare_oblivious|].
  intros _ _ _.
  apply follows_left; [apply push_back_generatorOnly|]. intros _.
  eapply follows_bind; [apply follows_onSym, markUsed_oblivious|].
  intros _ _ _.
  by apply follows_ret.
Qed.

Lemma follows_skip_loop fuel :
  follows (fun _ _ => True) (skip_loop fuel) (Parser.skip_loop fuel).
Proof.
  induction fuel as [|fuel IH]; [by intros w p a w' _ H|]. simpl.
  eapply follows_bind; [apply follows_curKind|]. intros k ? <-.
  destruct (_ && _); [|by apply follows_ret].
  eapply follows_bind; [apply follows_advance|]. intros _ _ _. apply IH.
Qed.

Lemma follows_parseProgram fuel : ∀ ok,
  follows (fun _ _ => True) (parseProgram fuel) (Parser.parse_loop fuel ok).
Proof.
  induction fuel as [|fuel IH]; intros ok; [by intros w p a w' _ H|]. simpl.
  eapply follows_bind; [apply follows_curKind|]. intros k ? <-.
  destruct (bool_decide (k = TokenKind.END_OF_FILE)); cbn [negb];
    [by apply follows_ret|].
  eapply follows_bind; [apply follows_parseStatement|]. intros s ? <-.
  destruct s; cbn [negb].
  - apply follows_left; [by intros w p a w' Hal [= <- <-]|]. intros _.
    apply IH.
  - unfold recover. apply follows_assoc_l.
    apply follows_left; [apply reportAtCur_generatorOnly|]. intros _.
    apply follows_assoc_l.
    eapply follows_bind; [apply follows_skip_loop|]. intros _ _ _.
    apply follows_assoc_l.
    eapply follows_bind; [apply follows_curKind|]. intros k' ? <-.
    eapply follows_bind; [|intros _ _ _; apply IH].
    destruct (bool_decide (k' = TokenKind.SEMICOLON)).
    + apply follows_advance.
    + by apply follows_ret.
Qed.

Lemma startOn_aligned attached source :
  aligned (startOn attached source)
    (Parser.newParser (Lex.setSource source (Lex.newLexer attached))
       (newSymbolTable, newErrorHandler)).
Proof.
  unfold startOn, newTACGenerator, Parser.newParser.
  by destruct (Lex.getNextToken _ _) as [[t lx] [st h]].
Qed.

(** X27: on every source the parser returns, like the generator
    does, and both leave the same lexer position, the same lookahead, the
    same symbol table and the same Lexical and Semantic diagnostics, in
    the same order; they differ in their Syntax diagnostics only. *)
Theorem parse_follows_generate attached source :
  ∃ w ok p,
    run attached source = Some (true, w) ∧
    Parser.run attached source = Some (ok, p) ∧
    Parser.lexer p = lexer w ∧ Parser.table p = table w ∧
    Parser.cur p = cur w ∧
    nonSyntax (Parser.handler p) = nonSyntax (handler w).
Proof.
  destruct (run_total attached source) as (w & Hr & _).
  destruct (follows_parseProgram (String.length source + 2) true
              _ _ _ _ (startOn_aligned attached source) Hr)
    as (ok & p & Hp & _ & H1 & H2 & H3 & H4).
  by exists w, ok, p.
Qed.

(** *** The verdict of the parser *)

Lemma pbind_inv {A B} (m : Parser.M A) (k : A → Parser.M B) p b p' :
  Parser.bind m k p = Some (b, p') →
  ∃ a p1, m p = Some (a, p1) ∧ k a p1 = Some (b, p').
Proof.
  unfold Parser.bind. destruct (m p) as [[a p1]|]; [|done]. intros H.
  by exists a, p1.
Qed.

Ltac pbind_step H a p1 H1 :=
  apply pbind_inv in H as (a & p1 & H1 & H).

Lemma advance_quiet : quiet Parser.advance.
Proof.
  intros p a p' H. unfold Parser.advance in H.
  pose proof (getNextToken_spec (Parser.lexer p)
                (Parser.table p, Parser.handler p)) as [_ Hc].
  destruct (Lex.getNextToken _ _) as [[t lx] [st h]].
  injection H as <- <-. exact Hc.
Qed.

Lemma nextToken_quiet : quiet Parser.nextToken.
Proof.
  intros p a p' H. unfold Parser.nextToken in H.
  pose proof (getNextToken_spec (Parser.lexer p)
                (Parser.table p, Parser.handler p)) as [_ Hc].
  destruct (Lex.getNextToken _ _) as [[t lx] [st h]].
  injection H as <- <-. exact Hc.
Qed.

Lemma onSym_quiet (f : Sym → Sym) :
  (∀ s, syntaxCount (snd (f s)) = syntaxCount (snd s)) →
  quiet (Parser.onSym (fun s => (tt, f s))).
Proof.
  intros Hf p a p' H. unfold Parser.onSym in H.
  specialize (Hf (Parser.table p, Parser.handler p)).
  destruct (f _) as [st h]. injection H as <- <-. exact Hf.
Qed.

Lemma syntaxError_counts msg t p u p' :
  Parser.syntaxError msg t p = Some (u, p') →
  syntaxCount (Parser.handler p') = S (syntaxCount (Parser.handler p)).
Proof.
  intros [= <- <-]. cbn [Parser.handler].
  rewrite syntaxCount_reportError. simpl. lia.
Qed.

Lemma failing_judged msg (t : Token) p b p' :
  (Parser.bind (Parser.syntaxError msg t)
     (fun _ => Parser.ret false)) p = Some (b, p') →
  b = false ∧ syntaxCount (Parser.handler p) < syntaxCount (Parser.handler p').
Proof.
  intros H. pbind_step H u p1 H1. apply syntaxError_counts in H1.
  injection H as <- <-. split; [done|lia].
Qed.

Lemma expect_judged k : judged (Parser.expect k).
Proof.
  intros p b p' H. unfold Parser.expect in H.
  pbind_step H c p1 H1. injection H1 as <- <-.
  destruct (bool_decide (tk_kind (Parser.cur p) = k)).
  - pbind_step H u p1 H1. apply advance_quiet in H1.
    by injection H as <- <-.
  - pbind_step H t p1 H1. injection H1 as <- <-.
    by apply failing_judged in H as [-> H].
Qed.

Lemma parseFactor_judged : judged Parser.parseFactor.
Proof.
  intros p b p' H. unfold Parser.parseFactor in H.
  pbind_step H c p1 H1. injection H1 as <- <-.
  destruct (bool_decide (_ = TokenKind.IDENT)).
  - pbind_step H t p1 H1. injection H1 as <- <-.
    pbind_step H u p1 H1.
    apply (onSym_quiet (markUsed _)) in H1; [|apply markUsed_syntaxCount].
    pbind_step H u2 p2 H2. apply advance_quiet in H2.
    injection H as <- <-. congruence.
  - destruct (bool_decide (_ = TokenKind.FLOAT_LIT)).
    + pbind_step H u p1 H1. apply advance_quiet in H1.
      by injection H as <- <-.
    + pbind_step H t p1 H1. injection H1 as <- <-.
      by apply failing_judged in H as [-> H].
Qed.

Lemma parseTerm_loop_judged fuel : judged (Parser.parseTerm_loop fuel).
Proof.
  induction fuel as [|fuel IH]; intros p b p' H; [done|]. simpl in H.
  pbind_step H c p1 H1. injection H1 as <- <-.
  destruct (_ || _); [|by injection H as <- <-].
  pbind_step H u p1 H1. apply advance_quiet in H1.
  pbind_step H r p2 H2. apply parseFactor_judged in H2.
  destruct r; cbn [negb] in H.
  - apply IH in H. destruct b; lia.
  - pbind_step H t p3 H3. injection H3 as <- <-.
    apply failing_judged in H as [-> H]. lia.
Qed.

Lemma parseTerm_judged fuel : judged (Parser.parseTerm fuel).
Proof.
  intros p b p' H. unfold Parser.parseTerm in H.
  pbind_step H r p1 H1. apply parseFactor_judged in H1.
  destruct r; cbn [negb] in H.
  - apply parseTerm_loop_judged in H. destruct b; lia.
  - by injection H as <- <-.
Qed.

Lemma parseExpression_loop_judged fuel :
  judged (Parser.parseExpression_loop fuel).
Proof.
  induction fuel as [|fuel IH]; intros p b p' H; [done|]. simpl in H.
  pbind_step H c p1 H1. injection H1 as <- <-.
  destruct (_ || _); [|by injection H as <- <-].
  pbind_step H u p1 H1. apply advance_quiet in H1.
  pbind_step H r p2 H2. apply parseTerm_judged in H2.
  destruct r; cbn [negb] in H.
  - apply IH in H. destruct b; lia.
  - pbind_step H t p3 H3. injection H3 as <- <-.
    apply failing_judged in H as [-> H]. lia.
Qed.

Lemma parseExpression_judged fuel : judged (Parser.parseExpression fuel).
Proof.
  intros p b p' H. unfold Parser.parseExpression in H.
  pbind_step H r p1 H1. apply parseTerm_judged in H1.
  destruct r; cbn [negb] in H.
  - apply parseExpression_loop_judged in H. destruct b; lia.
  - by injection H as <- <-.
Qed.

Lemma parseStatement_judged fuel : judged (Parser.parseStatement fuel).
Proof.
  intros p b p' H. unfold Parser.parseStatement in H.
  pbind_step H c p1 H1. injection H1 as <- <-.
  destruct (bool_decide (_ = TokenKind.IDENT)); cbn [negb] in H.
  2:{ pbind_step H t p1 H1. injection H1 as <- <-.
      by apply failing_judged in H as [-> H]. }
  pbind_step H t p1 H1. injection H1 as <- <-.
  pbind_step H t1 p1 H1. apply nextToken_quiet in H1.
  pbind_step H e p2 H2. apply expect_judged in H2.
  destruct e; cbn [negb] in H; [|injection H as <- <-; lia].
  pbind_step H r p3 H3. apply parseExpression_judged in H3.
  destruct r; cbn [negb] in H.
  2:{ pbind_step H t3 p4 H4. injection H4 as <- <-.
      apply failing_judged in H as [-> H]. lia. }
  pbind_step H e p4 H4. apply expect_judged in H4.
  destruct e; cbn [negb] in H; [|injection H as <- <-; lia].
  pbind_step H u5 p5 H5.
  apply (onSym_quiet (declare _ _)) in H5; [|apply declare_syntaxCount].
  pbind_step H u6 p6 H6.
  apply (onSym_quiet (markUsed _)) in H6; [|apply markUsed_syntaxCount].
  injection H as <- <-. congruence.
Qed.

Lemma skip_loop_quiet fuel : quiet (Parser.skip_loop fuel).
Proof.
  induction fuel as [|fuel IH]; intros p a p' H; [done|]. simpl in H.
  pbind_step H c p1 H1. injection H1 as <- <-.
  destruct (_ && _); [|by injection H as <- <-].
  pbind_step H u p1 H1. apply advance_quiet in H1. apply IH in H. congruence.
Qed.

Lemma parse_loop_judged fuel : ∀ ok p b p',
  Parser.parse_loop fuel ok p = Some (b, p') →
  syntaxCount (Parser.handler p) ≤ syntaxCount (Parser.handler p') ∧
  (b = true ↔
   ok = true ∧
   syntaxCount (Parser.handler p') = syntaxCount (Parser.handler p)).
Proof.
  induction fuel as [|fuel IH]; intros ok p b p' H; [done|]. simpl in H.
  pbind_step H c p1 H1. injection H1 as <- <-.
  destruct (bool_decide (_ = TokenKind.END_OF_FILE)); cbn [negb] in H.
  { injection H as <- <-. split; [done|]. tauto. }
  pbind_step H s p1 H1. apply parseStatement_judged in H1.
  destruct s; cbn [negb] in H.
  - apply IH in H as [Hle Hiff]. split; [lia|].
    rewrite Hiff. split; intros [? ?]; (split; [done|lia]).
  - pbind_step H u p2 H2. apply skip_loop_quiet in H2.
    pbind_step H k p3 H3. injection H3 as <- <-.
    pbind_step H u4 p4 H4.
    assert (H5 : syntaxCount (Parser.handler p4)
                 = syntaxCount (Parser.handler p2)).
    { destruct (bool_decide _); [by apply advance_quiet in H4|].
      by injection H4 as <- <-. }
    apply IH in H as [Hle Hiff]. split; [lia|].
    rewrite Hiff. split; [by intros [? _]|]. intros [_ ?]. lia.
Qed.

Lemma newParser_syntaxCount lx s :
  syntaxCount (Parser.handler (Parser.newParser lx s)) = syntaxCount (snd s).
Proof.
  unfold Parser.newParser.
  pose proof (getNextToken_spec lx s) as [_ Hc].
  by destruct (Lex.getNextToken lx s) as [[t lx'] [st h]].
Qed.

(** X28: [parse] returns [true] exactly when it has recorded no
    Syntax diagnostic, whatever state it starts from; and on every source,
    parsed with a fresh table and handler, it does return, [true] exactly
    when the handler holds no Syntax diagnostic afterwards. *)
Theorem parse_verdict :
  (∀ fuel p ok p',
     Parser.parse fuel p = Some (ok, p') →
     (ok = true ↔
      syntaxCount (Parser.handler p') = syntaxCount (Parser.handler p))) ∧
  (∀ attached source,
     ∃ ok p, Parser.run attached source = Some (ok, p) ∧
             (ok = true ↔ syntaxCount (Parser.handler p) = 0)).
Proof.
  split.
  - intros fuel p ok p' H. apply parse_loop_judged in H as [_ H].
    rewrite H. tauto.
  - intros attached source.
    destruct (run_total attached source) as (w & Hr & _).
    destruct (follows_parseProgram (String.length source + 2) true
                _ _ _ _ (startOn_aligned attached source) Hr)
      as (ok & p & Hp & _).
    exists ok, p. split; [exact Hp|].
    apply parse_loop_judged in Hp as [_ Hp]. rewrite Hp.
    rewrite newParser_syntaxCount. cbn. tauto.
Qed.

Lemma parse_verdict_witness :
  let p := Parser.newParser
             (Lex.setSource "a = 1.0 b = a;" (Lex.newLexer true))
             (newSymbolTable, newErrorHandler) in
  ∃ ok p', Parser.parse 16 p = Some (ok, p') ∧
    (ok = true ↔
     syntaxCount (Parser.handler p') = syntaxCount (Parser.handler p)).
Proof.
  intros p. eexists _, _. split.
  - vm_compute. reflexivity.
  - apply (proj1 parse_verdict 16 p). vm_compute. reflexivity.
Defined.

(** ** The driver *)

Lemma newTACGenerator_pending source lx s :
  pending (newTACGenerator (Lex.setSource source lx) s)
  ≤ String.length source.
Proof.
  unfold newTACGenerator.
  pose proof (getNextToken_spec (Lex.setSource source lx) s) as [Hr _].
  destruct (Lex.getNextToken _ _) as [[t lx'] [st h]]. simpl in Hr.
  unfold pending. simpl.
  unfold Lex.remaining at 2 in Hr. simpl in Hr. lia.
Qed.

Lemma newTACGenerator_consistent lx st h :
  length (scopes st) = 1 → keyed st →
  consistent (newTACGenerator lx (st, h)) ∧
  tableGrows st (table (newTACGenerator lx (st, h))).
Proof.
  intros Hlen Hk. unfold newTACGenerator.
  pose proof (getNextToken_token lx (st, h)) as [Ht Hg].
  destruct (Lex.getNextToken _ _) as [[t lx'] [st' h']]. cbn [fst snd] in *.
  split; [|done]. destruct Hg as (G1 & G2 & G3). unfold consistent. cbn.
  split; [congruence|]. split; [tauto|]. split; [done|]. split; constructor.
Qed.

Lemma newParser_aligned lx s :
  aligned (newTACGenerator lx s) (Parser.newParser lx s).
Proof.
  unfold newTACGenerator, Parser.newParser.
  by destruct (Lex.getNextToken _ _) as [[t lx'] [st h]].
Qed.

Lemma tokenize_loop_grows fuel : ∀ lx s acc toks lx' s',
  tokenize_loop fuel lx s acc = Some (toks, lx', s') →
  tableGrows (fst s) (fst s').
Proof.
  induction fuel as [|fuel IH]; intros lx s acc toks lx' s' H; [done|].
  simpl in H.
  pose proof (getNextToken_token lx s) as [_ Hg].
  destruct (Lex.getNextToken lx s) as [[t lx1] s1]. cbn [fst snd] in Hg.
  case_bool_decide.
  - by injection H as <- <- <-.
  - eapply tableGrows_trans; [exact Hg|]. by eapply IH.
Qed.

Lemma newSymbolTable_keyed : keyed newSymbolTable.
Proof.
  intros i k e H. unfold entryAt, newSymbolTable in H. cbn in H.
  destruct i; cbn in H; [|done]. by rewrite lookup_empty in H.
Qed.

Lemma registerBuiltins_grows s :
  tableGrows (fst s) (fst (Driver.registerBuiltins s)).
Proof.
  unfold Driver.registerBuiltins.
  eapply tableGrows_trans; apply insert_grows.
Qed.

(** A pass of the generator from a one-frame table. *)
Lemma generate_pass source lx st h :
  length (scopes st) = 1 → keyed st →
  ∃ w, generate (String.length source + 2)
         (newTACGenerator (Lex.setSource source lx) (st, h))
       = Some (true, w) ∧ consistent w.
Proof.
  intros Hlen Hk.
  pose proof (newTACGenerator_pending source lx (st, h)) as Hp.
  destruct (newTACGenerator_consistent (Lex.setSource source lx) st h Hlen Hk)
    as [Hc _].
  destruct (parseProgram_spec (String.length source + 2)
              (newTACGenerator (Lex.setSource source lx) (st, h))
              ltac:(lia))
    as (ok & w & Hrun & -> & _ & _).
  exists w. split; [exact Hrun|].
  by destruct (parseProgram_consistent _ _ _ _ Hrun Hc).
Qed.

(** X29: the driver returns for every source text: tokenizing,
    registering the built-in names, parsing and generating all come to an
    end within their loop bounds.  What it shows after elimination is the
    eliminator's result on the generated code and the final table, and it
    still holds every assignment to a name that does not start with
    [t]: the parser's pass and the generator's pass over the same table
    leave each assigned name marked used. *)
Theorem driver_keeps_assignments source :
  ∃ o, Driver.main source = Some o ∧
    Driver.tacAfter o = eliminate (Driver.tacBefore o) (Driver.sym o) ∧
    ∀ x, x ∈ Driver.tacBefore o → op x = TACOp.ASSIGN →
         starts_with_t (dest x) = false → x ∈ Driver.tacAfter o.
Proof.
  unfold Driver.main, Driver.lexStage.
  destruct (tokenize_total source (Lex.newLexer true)
              (newSymbolTable, newErrorHandler))
    as (toks & t & lx & [st h] & Htok & _).
  rewrite Htok.
  pose proof (tokenize_loop_grows _ _ _ _ _ _ _ Htok) as Hg1.
  pose proof (registerBuiltins_grows (st, h)) as Hg2.
  destruct (Driver.registerBuiltins (st, h)) as [st2 h2] eqn:Hreg.
  cbn [fst snd] in Hg1, Hg2.
  pose proof (tableGrows_trans _ _ _ Hg1 Hg2) as (G1 & G2 & _).
  assert (Hlen2 : length (scopes st2) = 1) by (by rewrite G1).
  assert (Hk2 : keyed st2) by (apply G2, newSymbolTable_keyed).
  destruct (generate_pass source lx st2 h2 Hlen2 Hk2) as (w1 & Hrun1 & Hc1).
  destruct (follows_parseProgram (String.length source + 2) true
              _ _ _ _ (newParser_aligned (Lex.setSource source lx) (st2, h2))
              Hrun1)
    as (ok & p & Hp & _ & _ & Htab & _).
  unfold Parser.parse. rewrite Hp.
  destruct Hc1 as (Hlen3 & Hk3 & _). rewrite Htab in Hlen3, Hk3.
  destruct (generate_pass source (Parser.lexer p) (Parser.table p)
              (Parser.handler p) Hlen3 Hk3) as (w & Hrun & Hc).
  rewrite Hrun. eexists. split; [reflexivity|]. cbn.
  split; [done|]. intros x Hx Hop Ht.
  destruct (assignment_target_live w x Hc Hx Hop Ht) as [Hne Hl].
  rewrite eliminate_scan, <- initialLive_seed. by apply seeded_kept.
Qed.

(** *** The built-in names *)

Lemma mentioned_snoc n toks t :
  mentioned n (toks ++ [t]) ↔
  mentioned n toks ∨ (tk_kind t = TokenKind.IDENT ∧ lexeme t = n).
Proof.
  unfold mentioned. split.
  - intros (u & Hu & Hk & Hl). apply elem_of_app in Hu as [Hu|Hu].
    + left. by exists u.
    + apply list_elem_of_singleton in Hu as ->. by right.
  - intros [(u & Hu & Hk & Hl)|[Hk Hl]].
    + exists u. split; [|done]. apply elem_of_app. by left.
    + exists t. split; [|done]. apply elem_of_app. right.
      by apply list_elem_of_singleton.
Qed.

Lemma mentioned_dec n toks : mentioned n toks ∨ ¬ mentioned n toks.
Proof.
  destruct (decide (Exists (λ t, tk_kind t = TokenKind.IDENT ∧ lexeme t = n)
                      toks)) as [H|H].
  - left. apply Exists_exists in H as (t & Ht & Hk). by exists t.
  - right. intros (t & Ht & Hk). apply H, Exists_exists. by exists t.
Qed.

Lemma insert_lookupLocal_other entry s m :
  m ≠ name entry →
  lookupLocal m (fst (snd (insert entry s))) = lookupLocal m (fst s).
Proof.
  intros Hm. destruct s as [st h]. cbn [fst].
  destruct (lookupLocal (name entry) st) as [x|] eqn:Hl.
  { by rewrite (insert_present _ _ _ _ Hl). }
  destruct (decide (scopes st = [])) as [He|Hne].
  { by rewrite insert_no_frame. }
  rewrite (insert_fresh_eq _ _ _ Hne Hl). cbn [fst snd].
  set (st1 := mkSymbolTable (scopes st) _).
  change (backIndex st) with (backIndex st1).
  rewrite (lookupLocal_store st1) by done.
  by rewrite decide_False by done.
Qed.

Lemma insert_lookupLocal_fresh entry st h :
  scopes st ≠ [] → lookupLocal (name entry) st = None →
  lookupLocal (name entry) (fst (snd (insert entry (st, h))))
  = Some (stored entry st).
Proof.
  intros Hne Hl. rewrite (insert_fresh_eq _ _ _ Hne Hl). cbn [fst snd].
  set (st1 := mkSymbolTable (scopes st) _).
  change (backIndex st) with (backIndex st1).
  rewrite (lookupLocal_store st1) by done.
  by rewrite decide_True.
Qed.

(** What one call of [getNextToken] does to the current frame. *)
Lemma getNextToken_binding lx st h :
  let r := Lex.getNextToken lx (st, h) in
  let t := fst (fst r) in
  (fst (snd r) = st ∧
   (tk_kind t = TokenKind.IDENT → Lex.symtab lx = true →
    is_Some (lookupLocal (lexeme t) st))) ∨
  (tk_kind t = TokenKind.IDENT ∧ lookupLocal (lexeme t) st = None ∧
   fst (snd r)
   = fst (snd (insertTokenPlaceholder (lexeme t) (tk_line t) (st, h)))).
Proof.
  intros r t. subst r t. destruct (Lex.src lx) as [source|] eqn:Hsrc.
  - destruct (getNextToken_cases lx (st, h) source Hsrc)
      as [[He Hr] | (He & t1 & lx1 & s1 & Hr & _ & _ & _ & _ & _ & Hc)];
      rewrite Hr; cbn [fst snd].
    { left. by split. }
    destruct Hc as [(_ & Hk & _ & _ & ->)|[(_ & Hk & _ & ->)|
                    (_ & _ & _ & Hk & _ & ->)]].
    + cbn [fst].
      destruct (existsInCurrentScope (lexeme t1) st) eqn:Hex.
      * left. rewrite andb_false_r. split; [done|]. intros _ _.
        by apply existsInCurrentScope_spec.
      * assert (Hl : lookupLocal (lexeme t1) st = None).
        { destruct (lookupLocal (lexeme t1) st) eqn:E; [|done].
          assert (existsInCurrentScope (lexeme t1) st = true)
            by (apply existsInCurrentScope_spec; by eexists).
          congruence. }
        destruct (Lex.symtab lx); cbn [andb negb].
        -- right. done.
        -- left. split; [done|]. intros _ Hs. discriminate Hs.
    + left. split; [done|]. congruence.
    + left. split; [by case_bool_decide|].
      destruct Hk as [Hk|Hk]; [congruence|]. intros E. by rewrite E in Hk.
  - unfold Lex.getNextToken. rewrite Hsrc. cbn [fst snd].
    left. split; [done|]. discriminate.
Qed.

Lemma binds_step lx st h toks :
  Lex.symtab lx = true → scopes st ≠ [] → binds st toks →
  binds (fst (snd (Lex.getNextToken lx (st, h))))
    (toks ++ [fst (fst (Lex.getNextToken lx (st, h)))]).
Proof.
  intros Hsym Hne Hb.
  pose proof (getNextToken_binding lx st h) as Hg. cbv zeta in Hg.
  destruct (Lex.getNextToken lx (st, h)) as [[t lx1] [st1 h1]].
  cbn [fst snd] in *. intros n. rewrite mentioned_snoc.
  destruct Hg as [[-> Hbound]|(Hk & Hl & ->)].
  - split.
    + intros [Hm|[Hk Hn]]; [by apply Hb|]. subst n.
      destruct (Hbound Hk Hsym) as [e He].
      apply Hb. destruct (Hb (lexeme t)) as [_ Hnone].
      destruct (mentioned_dec (lexeme t) toks) as [?|Hno]; [done|].
      rewrite (Hnone Hno) in He. done.
    + intros Hno. apply Hb. tauto.
  - pose proof (insertTokenPlaceholder_result (lexeme t) (tk_line t) st h)
      as (_ & Hiff & _ & Hex).
    destruct (Hex (proj2 Hiff (conj Hne Hl)))
      as (e & He & Hkind & _ & Hdummy & _).
    split.
    + intros [Hm|[_ Hn]].
      * destruct (decide (n = lexeme t)) as [->|Hneq]; [by exists e|].
        unfold insertTokenPlaceholder. cbn [fst snd].
        destruct (existsInCurrentScope (lexeme t) st); [by apply Hb|].
        rewrite insert_lookupLocal_other by done. by apply Hb.
      * subst n. by exists e.
    + intros Hno.
      assert (Hneq : n ≠ lexeme t) by (intros ->; tauto).
      unfold insertTokenPlaceholder. cbn [fst snd].
      destruct (existsInCurrentScope (lexeme t) st); [apply Hb; tauto|].
      rewrite insert_lookupLocal_other by done. apply Hb. tauto.
Qed.

Lemma tokenize_loop_binds fuel : ∀ lx st h acc toks lx' s',
  tokenize_loop fuel lx (st, h) acc = Some (toks, lx', s') →
  Lex.symtab lx = true → scopes st ≠ [] → binds st acc →
  binds (fst s') toks ∧ scopes (fst s') ≠ [].
Proof.
  induction fuel as [|fuel IH]; intros lx st h acc toks lx' s' H Hsym Hne Hb;
    [done|].
  simpl in H.
  pose proof (binds_step lx st h acc Hsym Hne Hb) as Hb1.
  pose proof (getNextToken_symtab lx (st, h)) as Hs1.
  pose proof (getNextToken_token lx (st, h)) as [_ (Hlen & _)].
  destruct (Lex.getNextToken lx (st, h)) as [[t lx1] [st1 h1]].
  cbn [fst snd] in *.
  assert (Hne1 : scopes st1 ≠ []).
  { intros E. rewrite E in Hlen. by destruct (scopes st). }
  case_bool_decide.
  - by injection H as <- <- <-.
  - eapply IH; [exact H|congruence|done|done].
Qed.

Lemma lexStage_binds source toks lx s :
  Driver.lexStage source = Some (toks, lx, s) →
  binds (fst s) toks ∧ scopes (fst s) ≠ [].
Proof.
  unfold Driver.lexStage, tokenize. intros H.
  eapply tokenize_loop_binds; [exact H|done|done|].
  intros n. split; [|done]. intros (t & Ht & _). by apply elem_of_nil in Ht.
Qed.

Lemma stored_kind entry st :
  kind (stored entry st) = kind entry ∧
  is_dummy (stored entry st) = is_dummy entry.
Proof. unfold stored. by destruct (is_empty _). Qed.

(** One registration of a built-in name. *)
Lemma insert_registers entry st h :
  scopes st ≠ [] →
  let s1 := snd (insert entry (st, h)) in
  scopes (fst s1) ≠ [] ∧
  (∀ m, m ≠ name entry → lookupLocal m (fst s1) = lookupLocal m st) ∧
  (∀ d, d ∈ errors h → d ∈ errors (snd s1)) ∧
  (∀ e, lookupLocal (name entry) st = Some e →
     lookupLocal (name entry) (fst s1) = Some e ∧
     ∃ d, d ∈ errors (snd s1) ∧
          isDuplicateDiagnostic (name entry) (decl_line e) d) ∧
  (lookupLocal (name entry) st = None →
     lookupLocal (name entry) (fst s1) = Some (stored entry st)).
Proof.
  intros Hne s1. subst s1.
  pose proof (insert_grows entry (st, h)) as (Hlen & _).
  split.
  { intros E. cbn [fst] in Hlen. rewrite E in Hlen. by destruct (scopes st). }
  split; [intros m Hm; by apply (insert_lookupLocal_other entry (st, h))|].
  split.
  { destruct (insert_oblivious entry st) as (a & st' & es & _ & H).
    rewrite H. cbn. intros d Hd. apply elem_of_app. by left. }
  split.
  - intros e He. rewrite (insert_present _ _ _ _ He). cbn [fst snd].
    split; [done|]. eexists. split.
    + unfold reportDuplicate. rewrite reportError_errors.
      apply elem_of_app. right. apply list_elem_of_singleton. reflexivity.
    + split; reflexivity.
  - intros Hl. by apply insert_lookupLocal_fresh.
Qed.

Lemma lexStage_total source :
  ∃ toks lx s, Driver.lexStage source = Some (toks, lx, s).
Proof.
  destruct (tokenize_total source (Lex.newLexer true)
              (newSymbolTable, newErrorHandler))
    as (toks & t & lx & s & H & _).
  by exists (toks ++ [t]), lx, s.
Qed.

(** X30: the driver registers the built-in names [in] and [out]
    after the token listing has put a placeholder in the table for every
    identifier of the source.  For a name the source mentions, the
    registration fails: a Duplicate declaration diagnostic is recorded
    and the name stays bound to the placeholder of kind [token]; for a
    name the source does not mention, the name is bound to the built-in
    entry. *)
Theorem builtin_shadowed source :
  ∃ toks lx s,
    Driver.lexStage source = Some (toks, lx, s) ∧
    ∀ n, n = "in" ∨ n = "out" →
      let s' := Driver.registerBuiltins s in
      (mentioned n toks →
       (∃ e, lookupLocal n (fst s') = Some e ∧ kind e = "token" ∧
             is_dummy e = true) ∧
       ∃ d l, d ∈ errors (snd s') ∧ isDuplicateDiagnostic n l d) ∧
      (¬ mentioned n toks →
       ∃ e, lookupLocal n (fst s') = Some e ∧ kind e = "builtin" ∧
            is_dummy e = false).
Proof.
  destruct (lexStage_total source) as (toks & lx & s & Hlex).
  exists toks, lx, s. split; [exact Hlex|]. intros n Hn s'. subst s'.
  destruct (lexStage_binds _ _ _ _ Hlex) as [Hb Hne].
  destruct s as [st h]. cbn [fst] in Hb, Hne.
  unfold Driver.registerBuiltins. cbn [fst].
  set (e_in := newSymbolEntry "in" "builtin" "float()->float"
                 (currentScope st) (-1)).
  destruct (insert_registers e_in st h Hne) as (Hne1 & Ho1 & Hd1 & Hp1 & Hf1).
  destruct (snd (insert e_in (st, h))) as [st1 h1] eqn:E1. cbn [fst snd] in *.
  set (e_out := newSymbolEntry "out" "builtin" "void(float)"
                  (currentScope st1) (-1)).
  destruct (insert_registers e_out st1 h1 Hne1)
    as (Hne2 & Ho2 & Hd2 & Hp2 & Hf2).
  destruct (snd (insert e_out (st1, h1))) as [st2 h2] eqn:E2.
  cbn [fst snd] in *.
  destruct (Hb n) as [Hyes Hno].
  destruct Hn as [-> | ->].
  - split.
    + intros Hm. destruct (Hyes Hm) as (e & He & Hk & Hdm).
      destruct (Hp1 e He) as (He1 & d & Hd & Hdup).
      split.
      * exists e. by rewrite (Ho2 "in") by done.
      * exists d, (decl_line e). split; [by apply Hd2|done].
    + intros Hm. specialize (Hf1 (Hno Hm)).
      exists (stored e_in st). rewrite (Ho2 "in") by done.
      split; [done|]. apply stored_kind.
  - split.
    + intros Hm. destruct (Hyes Hm) as (e & He & Hk & Hdm).
      rewrite <- (Ho1 "out") in He by done.
      destruct (Hp2 e He) as (He2 & d & Hd & Hdup).
      split; [by exists e|]. by exists d, (decl_line e).
    + intros Hm. pose proof (Hno Hm) as Hl.
      rewrite <- (Ho1 "out") in Hl by done.
      exists (stored e_out st1). split; [by apply Hf2|]. apply stored_kind.
Qed.
